(** * MyUnorderedMap: a hash map with one shared singly linked list

    A shallow embedding of [my_unordered_map.hpp].  Nodes ([__bucket]) live
    in a store addressed by pointers, the bucket index ([array]) is a list
    of nullable head pointers, and every member function is a function on
    the container state.  A result of [None] stands for undefined behaviour
    of the C++ program (null or dangling dereference, index outside the
    bucket array, float-to-integer conversion out of range) or for a loop
    that does not terminate. *)

From Stdlib Require Import ZArith Lia Bool.
From Stdlib Require Import Floats.SpecFloat.
From stdpp Require Import base option list gmap fin_maps.

Local Open Scope Z_scope.

(** ** Machine arithmetic *)

(** [size_t] is a 64-bit unsigned integer. *)
Definition size_max : Z := 2 ^ 64.
Definition wrap (z : Z) : Z := z mod size_max.

(** [__constrain_hash]: [!(size & (size - 1)) ? hash & (size - 1)
    : (hash < size ? hash : hash % size)]. *)
Definition __constrain_hash (hash size : Z) : Z :=
  if Z.land size (wrap (size - 1)) =? 0
  then Z.land hash (wrap (size - 1))
  else if hash <? size then hash else hash mod size.

(** [__is_hash_power2]: [size > 2 && !(size & (size - 1))]. *)
Definition __is_hash_power2 (size : Z) : bool :=
  (2 <? size) && (Z.land size (wrap (size - 1)) =? 0).

(** ** Single-precision floats

    [float] is IEEE binary32: 24 bits of precision, infinities at
    exponent 128, round to nearest even. *)
Abbreviation float := spec_float.
Definition fprec : Z := 24.
Definition femax : Z := 128.

Definition fmul : float -> float -> float := SFmul fprec femax.
Definition fdiv : float -> float -> float := SFdiv fprec femax.
Definition flt : float -> float -> bool := SFltb.

(** Conversion of a [size_t] to [float]. *)
Definition float_of_size (n : Z) : float := binary_normalize fprec femax n 0 false.

(** [ceil] on a float. *)
Definition fceil (x : float) : float :=
  match x with
  | S754_finite s m e =>
      if 0 <=? e then x
      else
        let d := 2 ^ (- e) in
        let q := Z.pos m / d in
        if s then
          (if q =? 0 then S754_zero true else binary_normalize fprec femax (- q) 0 true)
        else
          binary_normalize fprec femax (if Z.pos m mod d =? 0 then q else q + 1) 0 false
  | _ => x
  end.

(** Conversion of a float to [size_t]: the value is truncated; the
    behaviour is undefined when the truncated value is not representable. *)
Definition size_of_float (x : float) : option Z :=
  match x with
  | S754_zero _ => Some 0
  | S754_finite s m e =>
      let t := if 0 <=? e then Z.pos m * 2 ^ e else Z.pos m / 2 ^ (- e) in
      if s then (if t =? 0 then Some 0 else None)
      else if t <? size_max then Some t else None
  | _ => None
  end.

(** The default [__max_load_factor = 1]. *)
Definition float_one : float := S754_finite false 8388608 (-23).

(** A float above zero: finite or infinite. *)
Definition positive_float (x : spec_float) : Prop :=
  match x with
  | S754_finite false _ _ | S754_infinity false => True
  | _ => False
  end.

(** ** Nodes and the container state *)

(** Node addresses.  [nullptr] is [None] in a field of type [option ptr]. *)
Abbreviation ptr := positive.

Section Map.
Context {Key T : Type} `{!EqDecision Key} `{!Inhabited Key} `{!Inhabited T}.

(** The hash functor: any function, its result truncated to a [size_t]. *)
Variable Hash : Key -> Z.
Definition hash_key (k : Key) : Z := wrap (Hash k).

(** [struct __bucket { std::pair<Key, T> item; size_t hash = -1;
    __bucket* next = nullptr; }]. *)
Record bucket := Bucket {
  item : Key * T;
  hash : Z;
  next : option ptr
}.

(** A default-constructed node, as the past-last sentinel is; [Key()] and
    [T()] are the inhabitants of the two types. *)
Definition default_bucket : bucket :=
  Bucket (inhabitant, inhabitant) (wrap (-1)) None.

Definition set_next (b : bucket) (n : option ptr) : bucket :=
  Bucket (item b) (hash b) n.
Definition set_hash (b : bucket) (h : Z) : bucket :=
  Bucket (item b) h (next b).

(** The members of [MyUnorderedMap]; [heap] is the node store the
    container owns, [array = None] is the null bucket index, and
    [start_next] is [__start.next]. *)
Record state := State {
  heap : gmap ptr bucket;
  array : option (list (option ptr));
  _size : Z;
  _count : Z;
  _max_load_factor : float;
  start_next : option ptr;
  _end : ptr
}.

(** [B_AllocTraits::allocate]: an address that is not in use. *)
Definition alloc (h : gmap ptr bucket) : ptr := fresh (dom h).

(** Reading [array[h].next]. *)
Definition slot (a : list (option ptr)) (h : Z) : option (option ptr) :=
  if h <? 0 then None else a !! Z.to_nat h.

(** Loops over the node store are bounded by the number of nodes. *)
Definition fuel_of (s : state) : nat := S (size (heap s)).

(** *** Default constructor *)
Definition default_map : state :=
  let e := alloc ∅ in
  State {[ e := default_bucket ]} None 0 0 float_one (Some e) e.

(** *** [__find] and [find] *)
Fixpoint find_loop (n : nat) (s : state) (h : Z) (key : Key) (g : option ptr)
  : option ptr :=
  match n with
  | O => None
  | S n' =>
      if decide (g = Some (_end s)) then Some (_end s)
      else
        p ← g; b ← heap s !! p;
        if decide (h = hash b) then
          if decide ((item b).1 = key) then Some p
          else find_loop n' s h key (next b)
        else Some (_end s)
  end.

Definition __find (s : state) (key : Key) : option ptr :=
  let h := __constrain_hash (hash_key key) (_size s) in
  a ← array s; g ← slot a h;
  match g with
  | None => Some (_end s)
  | Some _ => find_loop (fuel_of s) s h key g
  end.

Definition find (s : state) (key : Key) : option ptr :=
  match array s with
  | None => Some (_end s)
  | Some _ => __find s key
  end.

(** [begin], [end], [empty], [size] (the bucket count) and [count]. *)
Definition begin (s : state) : option ptr := start_next s.
Definition empty (s : state) : bool := bool_decide (start_next s = Some (_end s)).

(** *** [__bucket_insert] *)

(** The scan [while (g->next != __end && g->next->hash == h)]: [Some None]
    when a node of the run holds the key, [Some (Some g)] with the last
    node of the run otherwise. *)
Fixpoint insert_loop (n : nat) (s : state) (h : Z) (key : Key) (g : ptr)
  : option (option ptr) :=
  match n with
  | O => None
  | S n' =>
      b ← heap s !! g;
      if decide (next b = Some (_end s)) then Some (Some g)
      else
        q ← next b; bq ← heap s !! q;
        if decide (hash bq = h) then
          if decide ((item b).1 = key) then Some None
          else insert_loop n' s h key q
        else Some (Some g)
  end.

Definition set_heap (s : state) (hp : gmap ptr bucket) : state :=
  State hp (array s) (_size s) (_count s) (_max_load_factor s) (start_next s) (_end s).

Definition __bucket_insert (s : state) (pair : Key * T) (h : Z)
  : option (state * option ptr) :=
  a ← array s; g0 ← slot a h;
  match g0 with
  | None =>
      let p := alloc (heap s) in
      Some (State (<[p := Bucket pair h (start_next s)]> (heap s))
                  (Some (<[Z.to_nat h := Some p]> a))
                  (_size s) (_count s) (_max_load_factor s) (Some p) (_end s),
            Some p)
  | Some g =>
      b0 ← heap s !! g;
      if decide ((item b0).1 = pair.1) then Some (s, None)
      else
        r ← insert_loop (fuel_of s) s h pair.1 g;
        match r with
        | None => Some (s, None)
        | Some g =>
            b ← heap s !! g;
            if decide ((item b).1 = pair.1) then Some (s, None)
            else
              let p := alloc (heap s) in
              Some (set_heap s (<[p := Bucket pair h (next b)]>
                                  (<[g := set_next b (Some p)]> (heap s))),
                    Some p)
        end
  end.

(** *** [__rehash] *)
Definition rehash_step (s : state) (p : ptr) : option (state * option ptr) :=
  b ← heap s !! p;
  let h := __constrain_hash (hash_key (item b).1) (_size s) in
  let tmp := next b in
  a ← array s; g ← slot a h;
  s1 ← match g with
       | None =>
           Some (State (<[p := set_next b (start_next s)]> (heap s))
                       (Some (<[Z.to_nat h := Some p]> a))
                       (_size s) (_count s) (_max_load_factor s) (Some p) (_end s))
       | Some q =>
           bq ← heap s !! q;
           let hp1 := <[p := set_next b (next bq)]> (heap s) in
           bq' ← hp1 !! q;
           Some (set_heap s (<[q := set_next bq' (Some p)]> hp1))
       end;
  b' ← heap s1 !! p;
  Some (set_heap s1 (<[p := set_hash b' h]> (heap s1)), tmp).

Fixpoint rehash_loop (n : nat) (s : state) (i : option ptr) : option state :=
  match n with
  | O => None
  | S n' =>
      if decide (i = Some (_end s)) then Some s
      else p ← i; '(s', tmp) ← rehash_step s p; rehash_loop n' s' tmp
  end.

Definition __rehash (s : state) (new_size : Z) : option state :=
  let newarr := replicate (Z.to_nat new_size) None in
  rehash_loop (fuel_of s)
    (State (heap s) (Some newarr) new_size (_count s) (_max_load_factor s)
           (Some (_end s)) (_end s))
    (start_next s).

(** *** [rehash] *)

(** How a call that may throw ends: normally, or with the exception
    [std::out_of_range]; either way with the state it leaves behind. *)
Inductive outcome :=
  | Normal (s : state)
  | OutOfRange (s : state).

(** The guard [new_size * __max_load_factor < __count]. *)
Definition rehash_rejects (s : state) (new_size : Z) : bool :=
  flt (fmul (float_of_size new_size) (_max_load_factor s)) (float_of_size (_count s)).

Definition rehash (s : state) (new_size : Z) : option outcome :=
  if rehash_rejects s new_size then Some (OutOfRange s)
  else s' ← __rehash s new_size; Some (Normal s').

(** *** [insert], [emplace], [operator[]] *)

(** The guard [__size * __max_load_factor < __count + 1]. *)
Definition need_grow (s : state) : bool :=
  flt (fmul (float_of_size (_size s)) (_max_load_factor s))
      (float_of_size (wrap (_count s + 1))).

(** [std::max<size_t>(2 * __count + !__is_hash_power2(__count),
    size_t(ceil(float(__count + 1) / __max_load_factor)))]. *)
Definition grow_size (s : state) : option Z :=
  c ← size_of_float
        (fceil (fdiv (float_of_size (wrap (_count s + 1))) (_max_load_factor s)));
  Some (Z.max (wrap (2 * _count s + (if __is_hash_power2 (_count s) then 0 else 1))) c).

Definition set_count (s : state) (c : Z) : state :=
  State (heap s) (array s) (_size s) c (_max_load_factor s) (start_next s) (_end s).

Definition insert (s : state) (pair : Key * T) : option (state * (ptr * bool)) :=
  s1 ← (if need_grow s then n ← grow_size s; __rehash s n else Some s);
  let h := __constrain_hash (hash_key pair.1) (_size s1) in
  '(s2, res) ← __bucket_insert s1 pair h;
  match res with
  | Some p => Some (set_count s2 (wrap (_count s2 + 1)), (p, true))
  | None => Some (s2, (_end s2, false))
  end.

Definition emplace (s : state) (k : Key) (v : T) : option (state * (ptr * bool)) :=
  insert s (k, v).

(** [insert(std::initializer_list<item>)]. *)
Fixpoint insert_list (s : state) (l : list (Key * T)) : option state :=
  match l with
  | [] => Some s
  | kv :: l' => '(s', _) ← insert s kv; insert_list s' l'
  end.

(** [operator[]]: the handle of the element whose value is referred to;
    a missing key is inserted with the value [T()]. *)
Definition index (s : state) (key : Key) : option (state * ptr) :=
  it ← find s key;
  if decide (it = _end s) then
    '(s', (a, _)) ← emplace s key inhabitant; Some (s', a)
  else Some (s, it).

(** *** [erase] *)

(** The body run on the matched node [g], whose contents are [b]. *)
Definition erase_node (s : state) (a : list (option ptr)) (h : Z) (g : ptr) (b : bucket)
  : option (state * bool) :=
  a1 ← (if decide (slot a h = Some (Some g)) then
          if decide (next b = Some (_end s)) then Some (<[Z.to_nat h := None]> a)
          else
            q ← next b; bq ← heap s !! q;
            if decide (hash bq = h) then Some (<[Z.to_nat h := Some q]> a)
            else Some (<[Z.to_nat h := None]> a)
        else Some a);
  '(a2, e') ← (if decide (next b = Some (_end s)) then Some (a1, g)
               else
                 q ← next b; bq ← heap s !! q; sl ← slot a1 (hash bq);
                 if decide (sl = Some q)
                 then Some (<[Z.to_nat (hash bq) := Some g]> a1, _end s)
                 else Some (a1, _end s));
  q ← next b; bq ← heap s !! q;
  Some (State (delete q (<[g := bq]> (heap s))) (Some a2) (_size s)
              (wrap (_count s - 1)) (_max_load_factor s) (start_next s) e',
        true).

Fixpoint erase_loop (n : nat) (s : state) (a : list (option ptr)) (h : Z) (key : Key)
    (g : option ptr) : option (state * bool) :=
  match n with
  | O => None
  | S n' =>
      if decide (g = Some (_end s)) then Some (s, false)
      else
        p ← g; b ← heap s !! p;
        if decide (hash b = h) then
          if decide ((item b).1 = key) then erase_node s a h p b
          else erase_loop n' s a h key (next b)
        else Some (s, false)
  end.

Definition erase (s : state) (key : Key) : option (state * bool) :=
  match array s with
  | None => Some (s, false)
  | Some a =>
      let h := __constrain_hash (hash_key key) (_size s) in
      g ← slot a h;
      match g with
      | None => Some (s, false)
      | Some _ => erase_loop (fuel_of s) s a h key g
      end
  end.

(** *** [clear] *)
Fixpoint clear_loop (n : nat) (e : ptr) (hp : gmap ptr bucket) (g : option ptr)
  : option (gmap ptr bucket) :=
  match n with
  | O => None
  | S n' =>
      if decide (g = Some e) then Some hp
      else p ← g; b ← hp !! p; clear_loop n' e (delete p hp) (next b)
  end.

Definition clear (s : state) : option state :=
  hp ← clear_loop (fuel_of s) (_end s) (heap s) (start_next s);
  Some (State hp None 0 0 (_max_load_factor s) (Some (_end s)) (_end s)).

(** *** [max_load_factor(float)] *)
Definition set_max_load_factor (s : state) (f : float) : state :=
  State (heap s) (array s) (_size s) (_count s) (SFabs f) (start_next s) (_end s).

(** *** Copy and move *)

(** The copy constructor.  The copy owns a node store of its own. *)
Fixpoint copy_loop (n : nat) (src dst : state) (g : option ptr) : option state :=
  match n with
  | O => None
  | S n' =>
      if decide (g = Some (_end src)) then Some dst
      else
        p ← g; b ← heap src !! p;
        '(dst', _) ← __bucket_insert dst (item b) (hash b);
        copy_loop n' src dst' (next b)
  end.

Definition copy_construct (src : state) : option state :=
  let e := alloc ∅ in
  let arr := if 0 <? _size src
             then Some (replicate (Z.to_nat (_size src)) None) else None in
  copy_loop (fuel_of src) src
    (State {[ e := default_bucket ]} arr (_size src) (_count src)
           (_max_load_factor src) (Some e) e)
    (start_next src).

(** The move constructor: the new container, and what is left of the
    source. *)
Definition moved_from (src : state) : state :=
  let e := alloc (heap src) in
  State {[ e := default_bucket ]} None 0 0 float_one (Some e) e.

Definition move_construct (src : state) : state * state := (src, moved_from src).

(** Copy and move assignment from a different object: the target takes
    the members of a temporary built by the matching constructor. *)
Definition copy_assign (self other : state) : option state := copy_construct other.
Definition move_assign (self other : state) : state * state := move_construct other.

(** *** Iteration and reading a value *)
Fixpoint elements_loop (n : nat) (s : state) (g : option ptr) : option (list (Key * T)) :=
  match n with
  | O => None
  | S n' =>
      if decide (g = Some (_end s)) then Some []
      else p ← g; b ← heap s !! p; l ← elements_loop n' s (next b); Some (item b :: l)
  end.

(** The pairs met by iterating from [begin()] to [end()]. *)
Definition elements (s : state) : option (list (Key * T)) :=
  elements_loop (fuel_of s) s (begin s).

(** [find] followed by reading the value: [Some None] on the end marker. *)
Definition lookup_value (s : state) (key : Key) : option (option T) :=
  p ← find s key;
  if decide (p = _end s) then Some None
  else b ← heap s !! p; Some (Some (item b).2).

(** *** The rest of the public interface *)

(** [load_factor()]: [__count == 0 ? 0 : __size / __count], a division of
    two [size_t] converted to [float]. *)
Definition load_factor (s : state) : float :=
  if _count s =? 0 then float_of_size 0 else float_of_size (_size s / _count s).

(** [operator=(std::initializer_list<item>)]: [clear()], then one [insert]
    for each pair of the list. *)
Definition assign_list (s : state) (l : list (Key * T)) : option state :=
  s' ← clear s; insert_list s' l.

(** The destructor: [clear()], then the past-last sentinel is destroyed and
    freed.  The result is what is left of the node store. *)
Definition destroy (s : state) : option (gmap ptr bucket) :=
  s' ← clear s; _ ← heap s' !! _end s'; Some (delete (_end s') (heap s')).

(** ** The abstract view of a state *)

(** An element of the shared list: where it lives and what it holds. *)
Record elem := Elem {
  e_ptr : ptr;
  e_key : Key;
  e_val : T;
  e_hash : Z
}.

Definition node_of (x : elem) (nx : option ptr) : bucket :=
  Bucket (e_key x, e_val x) (e_hash x) nx.

Definition kv_of (x : elem) : Key * T := (e_key x, e_val x).

(** The same with the address of the node. *)
Definition pkv_of (x : elem) : ptr * (Key * T) := (e_ptr x, kv_of x).

(** [lseg hp p L q]: following [next] from [p] meets exactly the nodes of
    [L], in order, and arrives at [q]. *)
Fixpoint lseg (hp : gmap ptr bucket) (p : option ptr) (L : list elem) (q : option ptr)
  : Prop :=
  match L with
  | [] => p = q
  | x :: L' =>
      p = Some (e_ptr x) ∧
      ∃ nx, hp !! e_ptr x = Some (node_of x nx) ∧ lseg hp nx L' q
  end.

(** The first node of the list with cached hash [h]. *)
Fixpoint bucket_head (h : Z) (L : list elem) : option ptr :=
  match L with
  | [] => None
  | x :: L' => if decide (e_hash x = h) then Some (e_ptr x) else bucket_head h L'
  end.

(** Equal hashes are adjacent: the runs are contiguous. *)
Fixpoint grouped (hs : list Z) : Prop :=
  match hs with
  | [] => True
  | h :: t => (h ∈ t → head t = Some h) ∧ grouped t
  end.

(** The first element holding [k]. *)
Fixpoint find_key (k : Key) (L : list elem) : option elem :=
  match L with
  | [] => None
  | x :: L' => if decide (e_key x = k) then Some x else find_key k L'
  end.

(** The bucket index [a] of [sz] slots describes the list [L]. *)
Definition array_ok (a : option (list (option ptr))) (sz : Z) (L : list elem) : Prop :=
  match a with
  | None => sz = 0 ∧ L = []
  | Some a =>
      Z.of_nat (length a) = sz ∧
      ∀ i : nat, (i < length a)%nat → a !! i = Some (bucket_head (Z.of_nat i) L)
  end.

Definition hash_ok (sz : Z) (x : elem) : Prop :=
  e_hash x = __constrain_hash (hash_key (e_key x)) sz ∧ 0 ≤ e_hash x < sz.

(** The representation invariant, but for the element count. *)
Record rep_core (s : state) (L : list elem) : Prop := RepCore {
  rep_chain : lseg (heap s) (start_next s) L (Some (_end s));
  rep_end : is_Some (heap s !! _end s);
  rep_nodup : NoDup (map e_ptr L ++ [_end s]);
  rep_heap_size : size (heap s) = S (length L);
  rep_size : 0 ≤ _size s < size_max;
  rep_array : array_ok (array s) (_size s) L;
  rep_hash : Forall (hash_ok (_size s)) L;
  rep_grouped : grouped (map e_hash L);
  rep_keys : NoDup (map e_key L)
}.

(** What holds between two rounds of the loop of [__rehash]: the nodes
    [Lnew] are threaded into the new index, the nodes [Lrem], from [o] on,
    still wait. *)
Record rehash_inv (s : state) (o : option ptr) (Lrem Lnew : list elem) : Prop :=
  RehashInv {
  ri_new : lseg (heap s) (start_next s) Lnew (Some (_end s));
  ri_rem : lseg (heap s) o Lrem (Some (_end s));
  ri_end : is_Some (heap s !! _end s);
  ri_nodup : NoDup (map e_ptr (Lnew ++ Lrem) ++ [_end s]);
  ri_heap_size : size (heap s) = S (length (Lnew ++ Lrem));
  ri_size : 0 ≤ _size s < size_max;
  ri_array : ∃ a, array s = Some a ∧ array_ok (Some a) (_size s) Lnew;
  ri_hash : Forall (hash_ok (_size s)) Lnew;
  ri_grouped : grouped (map e_hash Lnew);
  ri_keys : NoDup (map e_key (Lnew ++ Lrem))
}.

(** The node store fits a 64-bit address space. *)
Definition fits (s : state) : Prop := Z.of_nat (size (heap s)) < size_max.

Record rep (s : state) (L : list elem) : Prop := Rep {
  rep_rep_core : rep_core s L;
  rep_count : _count s = Z.of_nat (length L);
  rep_fits : fits s
}.

Definition wf (s : state) : Prop := ∃ L, rep s L.

(** ** Reachable states

    The states a container can be in: built by the default constructor and
    changed by the public member functions.  [emplace] is [insert];
    the list forms of [insert] and assignment are repeated [insert]s after
    an optional [clear]; copy assignment leaves what the copy constructor
    builds, and move assignment what the move constructor does.  An
    insertion only returns when the allocator had an address to give. *)
Inductive reachable : state → Prop :=
  | reach_default : reachable default_map
  | reach_insert s kv s' r :
      reachable s → insert s kv = Some (s', r) → fits s' → reachable s'
  | reach_index s k s' p :
      reachable s → index s k = Some (s', p) → fits s' → reachable s'
  | reach_erase s k s' b :
      reachable s → erase s k = Some (s', b) → reachable s'
  | reach_rehash s n s' :
      reachable s → 0 ≤ n < size_max → rehash s n = Some (Normal s') → reachable s'
  | reach_clear s s' :
      reachable s → clear s = Some s' → reachable s'
  | reach_max_load_factor s f :
      reachable s → reachable (set_max_load_factor s f)
  | reach_copy s s' :
      reachable s → copy_construct s = Some s' → reachable s'
  | reach_moved_from s :
      reachable s → reachable (moved_from s).

End Map.

(** ** Words of the specification *)

(** "[n] is a power of two". *)
Definition power_of_two (n : Z) : bool := n =? 2 ^ Z.log2 n.

(** The value a list of pairs gives a key. *)
Fixpoint assoc {Key T : Type} `{!EqDecision Key} (k : Key) (l : list (Key * T)) : option T :=
  match l with
  | [] => None
  | (k', v) :: l' => if decide (k' = k) then Some v else assoc k l'
  end.




(** ** A map from integers to integers, hashed by the identity *)
Module Example.
Definition Hash (k : Z) : Z := k.
Definition m0 : @state Z Z := default_map.
(** After [insert({1, 10})]: one bucket, one node. *)
Definition s1 : @state Z Z :=
  State (<[2%positive := Bucket (1, 10) 0 (Some 1%positive)]>
           {[ 1%positive := default_bucket ]})
        (Some [Some 2%positive]) 1 1 float_one (Some 2%positive) 1%positive.
(** After [insert({2, 20})] on top: three buckets, two nodes. *)
Definition s2 : @state Z Z :=
  State (<[3%positive := Bucket (2, 20) 2 (Some 2%positive)]>
           (<[2%positive := Bucket (1, 10) 1 (Some 1%positive)]>
              {[ 1%positive := default_bucket ]}))
        (Some [None; Some 2%positive; Some 3%positive]) 3 2 float_one
        (Some 3%positive) 1%positive.
(** The float with bit pattern [0x3cf83e0f], about 0.0303030293. *)
Definition lf : float := S754_finite false 16268815 (-29).
(** A fresh container after [max_load_factor(lf)]. *)
Definition m0_lf : @state Z Z := set_max_load_factor m0 lf.
End Example.

(** * Verification *)

(** ** Hash constraining *)

Lemma wrap_small z : 0 ≤ z < size_max → wrap z = z.
Proof. intros. unfold wrap. by apply Z.mod_small. Qed.

Lemma wrap_range z : 0 ≤ wrap z < size_max.
Proof. unfold wrap. apply Z.mod_pos_bound. reflexivity. Qed.

Lemma land_pred_pow2 k : 0 ≤ k → Z.land (2 ^ k) (2 ^ k - 1) = 0.
Proof.
  intros Hk. replace (2 ^ k - 1) with (Z.ones k) by (rewrite Z.ones_equiv; lia).
  rewrite Z.land_ones by done. apply Z.mod_same. lia.
Qed.

Lemma land_pred_not_pow2 n : 1 ≤ n → n ≠ 2 ^ Z.log2 n → Z.land n (n - 1) ≠ 0.
Proof.
  intros Hn Hne Hz.
  destruct (Z.log2_spec n) as [Hlo Hhi]; [lia|].
  assert (Hk : 0 ≤ Z.log2 n) by apply Z.log2_nonneg.
  assert (Hl : Z.log2 (n - 1) = Z.log2 n).
  { apply Z.log2_unique; [done|]. rewrite <- Z.add_1_r in *. lia. }
  assert (Hb : Z.testbit (Z.land n (n - 1)) (Z.log2 n) = true).
  { rewrite Z.land_spec, Z.bit_log2 by lia. rewrite <- Hl.
    rewrite Z.bit_log2; [done | lia]. }
  rewrite Hz, Z.bits_0 in Hb. done.
Qed.

Lemma constrain_hash_mod h n :
  0 ≤ h → 0 < n < size_max → __constrain_hash h n = h mod n.
Proof.
  intros Hh Hn. unfold __constrain_hash. rewrite (wrap_small (n - 1)) by lia.
  destruct (Z.eqb_spec (Z.land n (n - 1)) 0) as [Hz|Hz].
  - destruct (decide (n = 2 ^ Z.log2 n)) as [Hp|Hp].
    + assert (∃ k, 0 ≤ k ∧ n = 2 ^ k) as (k & Hk & ->)
        by eauto using Z.log2_nonneg.
      replace (2 ^ k - 1) with (Z.ones k) by (rewrite Z.ones_equiv; lia).
      by rewrite Z.land_ones.
    + exfalso. by apply (land_pred_not_pow2 n); [lia | |].
  - destruct (Z.ltb_spec h n); [|done]. symmetry. apply Z.mod_small. lia.
Qed.

Lemma constrain_hash_range h n :
  0 ≤ h → 0 < n < size_max → 0 ≤ __constrain_hash h n < n.
Proof. intros. rewrite constrain_hash_mod by done. apply Z.mod_pos_bound. lia. Qed.

(** C9.  For a raw hash [h] and a bucket count [n >= 1], both of them
    [size_t] values, [__constrain_hash h n] is [h & (n - 1)] when [n] is a
    power of two greater than 2, and otherwise [h] itself when [h < n] and
    [h mod n] when not. *)
Theorem constrain_hash_spec (h n : Z) :
  0 ≤ h < size_max → 1 ≤ n < size_max →
  __constrain_hash h n =
    if power_of_two n && (2 <? n) then Z.land h (n - 1)
    else if h <? n then h else h mod n.
Proof.
  intros Hh Hn. unfold power_of_two.
  destruct (Z.eqb_spec n (2 ^ Z.log2 n)) as [Hp|Hp]; simpl.
  - assert (Hland : __constrain_hash h n = Z.land h (n - 1)).
    { unfold __constrain_hash. rewrite (wrap_small (n - 1)) by lia.
      assert (∃ k, 0 ≤ k ∧ n = 2 ^ k) as (k & Hk & ->)
        by eauto using Z.log2_nonneg.
      by rewrite land_pred_pow2. }
    destruct (Z.ltb_spec 2 n); [done|].
    rewrite constrain_hash_mod by lia.
    destruct (Z.ltb_spec h n); [|done]. apply Z.mod_small. lia.
  - unfold __constrain_hash. rewrite (wrap_small (n - 1)) by lia.
    destruct (Z.eqb_spec (Z.land n (n - 1)) 0) as [Hz|Hz]; [|done].
    exfalso. by apply (land_pred_not_pow2 n); [lia | |].
Qed.

Lemma constrain_hash_spec_witness :
  __constrain_hash 13 8 = 5 ∧ __constrain_hash 13 6 = 1 ∧ __constrain_hash 3 6 = 3.
Proof.
  split; [|split].
  - rewrite (constrain_hash_spec 13 8); [reflexivity | unfold size_max; lia ..].
  - rewrite (constrain_hash_spec 13 6); [reflexivity | unfold size_max; lia ..].
  - rewrite (constrain_hash_spec 3 6); [reflexivity | unfold size_max; lia ..].
Defined.

(** ** Facts about single-precision floats *)


Lemma shr_1_m r : 0 <= shr_m r -> shr_m (shr_1 r) = shr_m r / 2.
Proof.
  destruct r as [m rr ss]. simpl. intros Hm. rewrite <- Z.div2_div.
  destruct m as [|[p|p|]|p]; try reflexivity; lia.
Qed.

Lemma iter_shr_1_m n : forall r, 0 <= shr_m r ->
  shr_m (SpecFloat.iter_pos shr_1 n r) = shr_m r / 2 ^ Z.pos n.
Proof.
  assert (Hnn : forall r, 0 <= shr_m r -> 0 <= shr_m (shr_1 r)).
  { intros r Hr. rewrite shr_1_m by done. apply Z.div_pos; lia. }
  induction n as [n IH|n IH|]; intros r Hr; simpl.
  - assert (H1 := Hnn r Hr).
    assert (H2 : 0 <= shr_m (SpecFloat.iter_pos shr_1 n (shr_1 r))).
    { rewrite IH by done. apply Z.div_pos; [done|]. apply Z.pow_pos_nonneg; lia. }
    rewrite IH by done. rewrite IH by done. rewrite shr_1_m by done.
    rewrite !Z.div_div by (try apply Z.pow_pos_nonneg; lia).
    f_equal. rewrite Pos2Z.inj_xI. rewrite <- !Z.pow_add_r by lia.
    rewrite <- (Z.pow_1_r 2) at 1. rewrite <- Z.pow_add_r by lia. f_equal. lia.
  - assert (H2 : 0 <= shr_m (SpecFloat.iter_pos shr_1 n r)).
    { rewrite IH by done. apply Z.div_pos; [done|]. apply Z.pow_pos_nonneg; lia. }
    rewrite IH by done. rewrite IH by done.
    rewrite !Z.div_div by (try apply Z.pow_pos_nonneg; lia).
    f_equal. rewrite Pos2Z.inj_xO. rewrite <- !Z.pow_add_r by lia. f_equal. lia.
  - rewrite shr_1_m by done. done.
Qed.

Lemma digits2_pos_lower p : 2 ^ (Z.pos (digits2_pos p) - 1) <= Z.pos p.
Proof.
  induction p as [p IH|p IH|]; simpl; try done.
  - rewrite Pos2Z.inj_succ. replace (Z.succ (Z.pos (digits2_pos p)) - 1)
      with (1 + (Z.pos (digits2_pos p) - 1)) by lia.
    rewrite Z.pow_add_r by lia. lia.
  - rewrite Pos2Z.inj_succ. replace (Z.succ (Z.pos (digits2_pos p)) - 1)
      with (1 + (Z.pos (digits2_pos p) - 1)) by lia.
    rewrite Z.pow_add_r by lia. lia.
Qed.

(** Shifting a positive mantissa by fewer bits than it has digits keeps it
    positive. *)
Lemma shr_fexp_pos m e l :
  0 < m -> 3 - 128 - 24 <= e ->
  let '(r, e') := shr_fexp 24 128 m e l in 0 < shr_m r /\ 3 - 128 - 24 <= e'.
Proof.
  intros Hm He. unfold shr_fexp, shr.
  destruct m as [|p|p]; try lia. simpl Zdigits2.
  assert (Hn : fexp 24 128 (Z.pos (digits2_pos p) + e) - e <= Z.pos (digits2_pos p) - 1).
  { unfold fexp, emin. lia. }
  assert (Hrec : shr_m (shr_record_of_loc (Z.pos p) l) = Z.pos p).
  { by destruct l as [|[]]. }
  destruct (fexp 24 128 (Z.pos (digits2_pos p) + e) - e) as [|q|q];
    try (rewrite Hrec; lia).
  rewrite iter_shr_1_m by (rewrite Hrec; lia). rewrite Hrec. split; [|lia].
  apply Z.div_str_pos. split; [apply Z.pow_pos_nonneg; lia|].
  pose proof (digits2_pos_lower p).
  assert (2 ^ Z.pos q <= 2 ^ (Z.pos (digits2_pos p) - 1)); [|lia].
  apply Z.pow_le_mono_r; lia.
Qed.

Lemma round_nearest_even_pos m l : 0 < m -> 0 < round_nearest_even m l.
Proof. intros. destruct l as [|[]]; simpl; try done; try lia. destruct (Z.even m); lia. Qed.

Lemma binary_round_aux_pos m e l :
  0 < m -> 3 - 128 - 24 <= e -> positive_float (binary_round_aux 24 128 false m e l).
Proof.
  intros Hm He. unfold binary_round_aux.
  pose proof (shr_fexp_pos m e l Hm He) as H1.
  destruct (shr_fexp 24 128 m e l) as [r1 e1]. destruct H1 as [Hr1 He1].
  pose proof (shr_fexp_pos (round_nearest_even (shr_m r1) (loc_of_shr_record r1)) e1 loc_Exact) as H2.
  destruct (shr_fexp 24 128 _ e1 loc_Exact) as [r2 e2].
  destruct H2 as [Hr2 He2]; [by apply round_nearest_even_pos | done |].
  destruct (shr_m r2); try lia. by destruct (_ <=? _).
Qed.

Lemma float_of_size_pos n : 0 < n -> positive_float (float_of_size n).
Proof.
  intros Hn. unfold float_of_size, fprec, femax.
  destruct n as [|p|p]; try lia. simpl. unfold binary_round.
  unfold shl_align.
  set (d := fexp 24 128 (Z.pos (digits2_pos p) + 0) - 0).
  assert (Hd : 3 - 128 - 24 <= fexp 24 128 (Z.pos (digits2_pos p) + 0)).
  { unfold fexp, emin. lia. }
  destruct d; apply binary_round_aux_pos; lia.
Qed.



Section Correctness.
Context {Key T : Type} `{!EqDecision Key} `{!Inhabited Key} `{!Inhabited T}.
Variable Hash : Key → Z.

Implicit Types (s : @state Key T) (L R : list (@elem Key T)) (x y : @elem Key T).
Implicit Types (hp : gmap ptr (@bucket Key T)) (b : @bucket Key T).
Implicit Types (k : Key) (v : T) (h : Z) (p q g : ptr) (a : list (option ptr)).

Lemma alloc_fresh hp : hp !! alloc hp = None.
Proof. unfold alloc. apply (not_elem_of_dom (D := gset positive)), is_fresh. Qed.

(** ** List segments in the node store *)

Lemma lseg_app hp o L1 L2 o' :
  lseg hp o (L1 ++ L2) o' ↔ ∃ m, lseg hp o L1 m ∧ lseg hp m L2 o'.
Proof.
  revert o. induction L1 as [|x L1 IH]; intros o; simpl.
  - split; [eauto | by intros (m & -> & ?)].
  - split.
    + intros (-> & nx & Hx & Hl). apply IH in Hl as (m & ? & ?). eauto 10.
    + intros (m & (-> & nx & Hx & Hl) & H2). split; [done|].
      exists nx. split; [done|]. apply IH. eauto.
Qed.

Lemma lseg_insert_frame hp o L o' p b :
  p ∉ map e_ptr L → lseg hp o L o' → lseg (<[p := b]> hp) o L o'.
Proof.
  revert o. induction L as [|x L IH]; intros o Hp; simpl; [done|].
  intros (-> & nx & Hx & Hl). simpl in Hp. apply not_elem_of_cons in Hp as [? ?].
  split; [done|]. exists nx. rewrite lookup_insert_ne by done. eauto.
Qed.

Lemma lseg_delete_frame hp o L o' p :
  p ∉ map e_ptr L → lseg hp o L o' → lseg (delete p hp) o L o'.
Proof.
  revert o. induction L as [|x L IH]; intros o Hp; simpl; [done|].
  intros (-> & nx & Hx & Hl). simpl in Hp. apply not_elem_of_cons in Hp as [? ?].
  split; [done|]. exists nx. rewrite lookup_delete_ne by done. eauto.
Qed.

Lemma lseg_lookup hp o L o' x :
  lseg hp o L o' → x ∈ L → ∃ nx, hp !! e_ptr x = Some (node_of x nx).
Proof.
  revert o. induction L as [|y L IH]; intros o Hl Hx; [by apply elem_of_nil in Hx|].
  destruct Hl as (-> & nx & Hy & Hl). apply elem_of_cons in Hx as [->|Hx]; eauto.
Qed.

(** ** Runs and bucket heads *)

Lemma bucket_head_None h L :
  bucket_head h L = None ↔ Forall (λ x, e_hash x ≠ h) L.
Proof.
  induction L as [|x L IH]; simpl; [by split|].
  destruct (decide (e_hash x = h)) as [He|He].
  - split; [done|]. intros HF. by apply Forall_cons in HF as [? _].
  - rewrite IH. split; [by constructor | by intros [_ ?]%Forall_cons].
Qed.

Lemma bucket_head_app h L1 L2 :
  bucket_head h (L1 ++ L2) =
    match bucket_head h L1 with Some p => Some p | None => bucket_head h L2 end.
Proof. induction L1 as [|x L1 IH]; simpl; [done|]. by destruct (decide _). Qed.

Lemma bucket_head_app_r h L1 L2 :
  Forall (λ x, e_hash x ≠ h) L1 → bucket_head h (L1 ++ L2) = bucket_head h L2.
Proof. intros HF%bucket_head_None. by rewrite bucket_head_app, HF. Qed.

Lemma bucket_head_Some h L p :
  bucket_head h L = Some p →
  ∃ L1 x L2, L = L1 ++ x :: L2 ∧ e_ptr x = p ∧ e_hash x = h ∧
             Forall (λ y, e_hash y ≠ h) L1.
Proof.
  induction L as [|x L IH]; simpl; [done|].
  destruct (decide (e_hash x = h)) as [He|He].
  - intros [= <-]. by exists [], x, L.
  - intros (L1 & y & L2 & -> & ? & ? & ?)%IH.
    exists (x :: L1), y, L2. split_and!; try done. by constructor.
Qed.

Lemma grouped_app_r (l1 l2 : list Z) : grouped (l1 ++ l2) → grouped l2.
Proof. induction l1 as [|h l1 IH]; simpl; [done|]. intros [_ ?]. auto. Qed.

Lemma grouped_fresh (h : Z) (l : list Z) : h ∉ l → grouped l → grouped (h :: l).
Proof. by split. Qed.

Lemma grouped_delete (l1 l2 : list Z) (h : Z) :
  grouped (l1 ++ h :: l2) → grouped (l1 ++ l2).
Proof.
  induction l1 as [|h1 l1 IH]; simpl.
  - by intros [_ ?].
  - intros [Hh Hg]. split; [|auto].
    intros Hin. destruct l1 as [|h2 l1]; simpl in *.
    + destruct Hg as [Hg _]. assert (h1 = h) as ->.
      { assert (Some h = Some h1) as [= ->]; [|done]. apply Hh. set_solver. }
      apply Hg, Hin.
    + apply Hh. set_solver.
Qed.

Lemma grouped_dup (l1 l2 : list Z) (h : Z) :
  grouped (l1 ++ h :: l2) → grouped (l1 ++ h :: h :: l2).
Proof.
  induction l1 as [|h1 l1 IH]; simpl.
  - intros [Hh Hg]. split_and!; done.
  - intros [Hh Hg]. split; [|auto].
    intros Hin. destruct l1 as [|h2 l1]; simpl in *.
    + apply Hh. set_solver.
    + apply Hh. set_solver.
Qed.

Lemma grouped_run (h : Z) (l : list Z) :
  grouped (h :: l) → ∃ l1 l2, l = l1 ++ l2 ∧ Forall (λ h', h' = h) l1 ∧ h ∉ l2.
Proof.
  induction l as [|h1 l IH]; simpl.
  - intros _. exists [], []. split_and!; [done | done | set_solver].
  - intros [Hh [Hh1 Hg]]. destruct (decide (h1 = h)) as [->|Hne].
    + destruct IH as (l1 & l2 & -> & ? & ?); [done|].
      exists (h :: l1), l2. split_and!; [done | by constructor | done].
    + exists [], (h1 :: l). split_and!; [done | done |].
      intros Hin. specialize (Hh Hin). by injection Hh.
Qed.

(** A list whose runs are contiguous, cut around the run of [h]. *)
Lemma run_split h L p :
  grouped (map e_hash L) → bucket_head h L = Some p →
  ∃ L1 x R L3, L = L1 ++ (x :: R) ++ L3 ∧ e_ptr x = p ∧
    Forall (λ y, e_hash y ≠ h) L1 ∧ Forall (λ y, e_hash y = h) (x :: R) ∧
    Forall (λ y, e_hash y ≠ h) L3.
Proof.
  intros Hg (L1 & x & L2 & -> & Hp & Hx & HL1)%bucket_head_Some.
  rewrite map_app in Hg. apply grouped_app_r in Hg. simpl in Hg. rewrite Hx in Hg.
  apply grouped_run in Hg as (l1 & l2 & Hl & Hl1 & Hl2).
  exists L1, x, (take (length l1) L2), (drop (length l1) L2).
  assert (Hmt : map e_hash (take (length l1) L2) = l1).
  { rewrite <- firstn_map, Hl. by rewrite take_app_length. }
  assert (Hmd : map e_hash (drop (length l1) L2) = l2).
  { rewrite <- skipn_map, Hl. by rewrite drop_app_length. }
  split_and!.
  - simpl. by rewrite take_drop.
  - done.
  - done.
  - constructor; [done|]. rewrite <- Hmt in Hl1. by apply Forall_map in Hl1.
  - apply Forall_forall. intros y Hy <-. apply Hl2. rewrite <- Hmd.
    by apply list_elem_of_fmap_2.
Qed.

Lemma find_key_app k L1 L2 :
  find_key k (L1 ++ L2) =
    match find_key k L1 with Some x => Some x | None => find_key k L2 end.
Proof. induction L1 as [|x L1 IH]; simpl; [done|]. by destruct (decide _). Qed.

Lemma find_key_None k L : find_key k L = None ↔ k ∉ map e_key L.
Proof.
  induction L as [|x L IH]; simpl; [split; [set_solver | done]|].
  destruct (decide (e_key x = k)); [set_solver|]. rewrite IH. set_solver.
Qed.

Lemma find_key_Some k L x : find_key k L = Some x → x ∈ L ∧ e_key x = k.
Proof.
  induction L as [|y L IH]; simpl; [done|].
  destruct (decide (e_key y = k)); [intros [= ->]; set_solver|].
  intros [? ?]%IH. set_solver.
Qed.

Lemma find_key_NoDup k L x :
  NoDup (map e_key L) → x ∈ L → e_key x = k → find_key k L = Some x.
Proof.
  induction L as [|y L IH]; simpl; [set_solver|].
  intros [Hy HL]%NoDup_cons [->|Hx]%elem_of_cons Hk.
  - by rewrite decide_True.
  - rewrite decide_False; [auto|]. intros He. apply Hy.
    rewrite He, <- Hk. by apply list_elem_of_fmap_2.
Qed.

(** Elements whose cached hash is not the constrained hash of [k] do not
    hold [k]. *)
Lemma find_key_other_hash sz k L :
  Forall (hash_ok Hash sz) L →
  Forall (λ y, e_hash y ≠ __constrain_hash (hash_key Hash k) sz) L →
  find_key k L = None.
Proof.
  intros Hok Hne. apply find_key_None. intros (y & Hk & Hy)%list_elem_of_fmap.
  rewrite Forall_forall in Hok, Hne. destruct (Hok y Hy) as [Hh _].
  apply (Hne y Hy). by rewrite Hh, <- Hk.
Qed.

(** ** Consequences of the invariant *)

Lemma rep_ptr_ne_end s L : rep_core Hash s L → Forall (λ x, e_ptr x ≠ _end s) L.
Proof.
  intros [_ _ Hnd _ _ _ _ _ _]. apply NoDup_app in Hnd as (_ & Hd & _).
  apply Forall_forall. intros x Hx He. apply (Hd (e_ptr x)).
  - by apply list_elem_of_fmap_2.
  - rewrite He. set_solver.
Qed.

Lemma rep_ptr_nodup s L : rep_core Hash s L → NoDup (map e_ptr L).
Proof. intros [_ _ Hnd _ _ _ _ _ _]. by apply NoDup_app in Hnd as (? & _ & _). Qed.

Lemma slot_ok a sz L h :
  array_ok (Some a) sz L → 0 ≤ h < sz → slot a h = Some (bucket_head h L).
Proof.
  intros [Hlen Ha] Hh. unfold slot. destruct (Z.ltb_spec h 0); [lia|].
  rewrite Ha by lia. by rewrite Z2Nat.id by lia.
Qed.

Lemma rep_size_pos s L x : rep_core Hash s L → x ∈ L → 0 < _size s.
Proof.
  intros Hr Hx. pose proof (rep_hash _ _ _ Hr) as Hh.
  rewrite Forall_forall in Hh. destruct (Hh x Hx) as [_ ?]. lia.
Qed.

Lemma hash_key_range k : 0 ≤ hash_key Hash k < size_max.
Proof. apply wrap_range. Qed.

Lemma rep_constrain_range s L k :
  rep_core Hash s L → 0 < _size s →
  0 ≤ __constrain_hash (hash_key Hash k) (_size s) < _size s.
Proof.
  intros Hr Hs. apply constrain_hash_range; [apply hash_key_range|].
  pose proof (rep_size _ _ _ Hr). lia.
Qed.

(** The loops of the member functions get more fuel than the list has
    nodes. *)
Lemma rep_fuel s L : rep_core Hash s L → (S (length L) < fuel_of s)%nat.
Proof. intros Hr. unfold fuel_of. rewrite (rep_heap_size _ _ _ Hr). lia. Qed.

(** Replaces the fuel of the state by any [n] that is large enough. *)
Ltac generalize_fuel Hr n Hn :=
  let H := fresh in
  pose proof (rep_fuel _ _ Hr) as H; revert H;
  match goal with |- context [fuel_of ?s] => generalize (fuel_of s) end;
  intros n Hn.

(** ** Iteration *)

Lemma elements_loop_spec s L : ∀ n o,
  lseg (heap s) o L (Some (_end s)) → Forall (λ x, e_ptr x ≠ _end s) L →
  (length L < n)%nat → elements_loop n s o = Some (map kv_of L).
Proof.
  induction L as [|x L IH]; intros n o Hl Hne Hn; destruct n; simpl in *; try lia.
  - subst o. by rewrite decide_True.
  - destruct Hl as (-> & nx & Hx & Hl). apply Forall_cons in Hne as [Hxe Hne].
    rewrite decide_False by congruence. simpl. rewrite Hx. simpl.
    rewrite (IH n nx) by (done || lia). done.
Qed.

Lemma elements_spec s L : rep_core Hash s L → elements s = Some (map kv_of L).
Proof.
  intros Hr. unfold elements, begin, fuel_of.
  apply elements_loop_spec; [apply Hr | by eapply rep_ptr_ne_end |].
  rewrite (rep_heap_size _ _ _ Hr). lia.
Qed.

(** ** [find] *)

Lemma find_loop_run s h k R : ∀ n o rest,
  lseg (heap s) o (R ++ rest) (Some (_end s)) →
  Forall (λ x, e_ptr x ≠ _end s) (R ++ rest) →
  Forall (λ y, e_hash y = h) R →
  match rest with [] => True | y :: _ => e_hash y ≠ h end →
  (length R < n)%nat →
  find_loop n s h k o =
    Some (match find_key k R with Some x => e_ptr x | None => _end s end).
Proof.
  induction R as [|x R IH]; intros n o rest Hl Hne HR Hrest Hn;
    destruct n; simpl in *; try lia.
  - destruct rest as [|y rest]; simpl in *.
    + subst o. by rewrite decide_True.
    + destruct Hl as (-> & nx & Hy & Hl). apply Forall_cons in Hne as [Hye Hne].
      rewrite decide_False by congruence. simpl. rewrite Hy. simpl.
      by rewrite decide_False by done.
  - destruct Hl as (-> & nx & Hx & Hl). apply Forall_cons in Hne as [Hxe Hne].
    apply Forall_cons in HR as [Hxh HR].
    rewrite decide_False by congruence. simpl. rewrite Hx. simpl.
    rewrite decide_True by done. destruct (decide (e_key x = k)); [done|].
    apply (IH _ _ rest); (done || lia).
Qed.

Lemma find_spec s L k :
  rep_core Hash s L → array s = None ∨ 0 < _size s →
  find Hash s k =
    Some (match find_key k L with Some x => e_ptr x | None => _end s end).
Proof.
  intros Hr Hs. unfold find, __find. pose proof (rep_array _ _ _ Hr) as Ha.
  generalize_fuel Hr n Hn.
  destruct (array s) as [a|] eqn:Harr.
  - destruct Hs as [|Hs]; [done|]. simpl.
    set (h := __constrain_hash (hash_key Hash k) (_size s)).
    assert (Hh : 0 ≤ h < _size s) by by eapply rep_constrain_range.
    rewrite (slot_ok a (_size s) L h) by done. simpl.
    destruct (bucket_head h L) as [p|] eqn:Hb.
    + destruct (run_split h L p) as (L1 & x & R & L3 & -> & Hp & H1 & H2 & H3);
        [apply Hr | done |].
      pose proof (rep_chain _ _ _ Hr) as Hc.
      apply lseg_app in Hc as (m & Hc1 & Hc2).
      assert (m = Some p) as ->. { destruct Hc2 as (-> & _). by rewrite Hp. }
      pose proof (rep_hash _ _ _ Hr) as Hok.
      apply Forall_app in Hok as [Hok1 Hok2]. apply Forall_app in Hok2 as [Hok2 Hok3].
      pose proof (rep_ptr_ne_end _ _ Hr) as Hne. apply Forall_app in Hne as [_ Hne].
      rewrite (find_loop_run s h k (x :: R) _ _ L3); try done.
      * rewrite !find_key_app.
        rewrite (find_key_other_hash (_size s) k L1) by done.
        destruct (find_key k (x :: R)); [done|].
        by rewrite (find_key_other_hash (_size s) k L3).
      * destruct L3 as [|y L3]; [done|]. by apply Forall_cons in H3 as [? _].
      * rewrite !length_app in Hn. simpl in *. lia.
    + apply bucket_head_None in Hb.
      by rewrite (find_key_other_hash (_size s) k L) by (done || apply Hr).
  - destruct Ha as [_ ->]. done.
Qed.

Lemma find_key_assoc k L : e_val <$> find_key k L = assoc k (map kv_of L).
Proof.
  induction L as [|x L IH]; simpl; [done|]. by destruct (decide (e_key x = k)).
Qed.

Lemma lookup_value_spec s L k :
  rep_core Hash s L → array s = None ∨ 0 < _size s →
  lookup_value Hash s k = Some (assoc k (map kv_of L)).
Proof.
  intros Hr Hs. unfold lookup_value. rewrite (find_spec s L k) by done. simpl.
  rewrite <- find_key_assoc. destruct (find_key k L) as [x|] eqn:Hf; simpl.
  - apply find_key_Some in Hf as [Hx _].
    pose proof (rep_ptr_ne_end _ _ Hr) as Hne. rewrite Forall_forall in Hne.
    rewrite decide_False by auto.
    destruct (lseg_lookup _ _ _ _ x (rep_chain _ _ _ Hr) Hx) as (nx & ->). done.
  - by rewrite decide_True.
Qed.

(** ** Changing the node store under a list segment *)

Lemma lseg_ext hp hp' o L o' :
  (∀ x, x ∈ L → hp' !! e_ptr x = hp !! e_ptr x) →
  lseg hp o L o' → lseg hp' o L o'.
Proof.
  revert o. induction L as [|x L IH]; intros o Hagree; simpl; [done|].
  intros (-> & nx & Hx & Hl). split; [done|]. exists nx.
  rewrite Hagree by set_solver. split; [done|]. apply IH; [|done].
  intros y Hy. apply Hagree. set_solver.
Qed.

(** Linking the node [z] in behind the node [y]. *)
Lemma lseg_insert_after hp hp' o A y z B o' ny :
  lseg hp o (A ++ y :: B) o' →
  NoDup (map e_ptr (A ++ y :: B)) → e_ptr z ∉ map e_ptr (A ++ y :: B) →
  hp !! e_ptr y = Some (node_of y ny) →
  hp' !! e_ptr y = Some (node_of y (Some (e_ptr z))) →
  hp' !! e_ptr z = Some (node_of z ny) →
  (∀ r, r ≠ e_ptr y → r ≠ e_ptr z → hp' !! r = hp !! r) →
  lseg hp' o (A ++ y :: z :: B) o'.
Proof.
  intros Hl Hnd Hz Hy Hy' Hz' Hagree.
  rewrite map_app in Hnd, Hz. simpl in Hnd, Hz.
  apply NoDup_app in Hnd as (HA & HAB & [HyB HB]%NoDup_cons).
  apply lseg_app in Hl as (m & HlA & (-> & ny' & Hy2 & HlB)).
  assert (ny' = ny) as ->.
  { rewrite Hy in Hy2. unfold node_of in Hy2. by injection Hy2. }
  apply lseg_app. exists (Some (e_ptr y)). split.
  - apply (lseg_ext hp); [|done]. intros x Hx. apply Hagree.
    + intros He. apply (HAB (e_ptr x)); [by apply list_elem_of_fmap_2|].
      rewrite He. set_solver.
    + intros He. apply Hz. rewrite <- He. apply elem_of_app. left.
      by apply list_elem_of_fmap_2.
  - split; [done|]. exists (Some (e_ptr z)). split; [done|].
    split; [done|]. exists ny. split; [done|].
    apply (lseg_ext hp); [|done]. intros x Hx. apply Hagree.
    + intros He. apply HyB. rewrite <- He. by apply list_elem_of_fmap_2.
    + intros He. apply Hz. rewrite <- He. apply elem_of_app. right.
      apply elem_of_cons. right. by apply list_elem_of_fmap_2.
Qed.

Lemma bucket_head_insert_after i A y z B :
  e_hash z = e_hash y →
  bucket_head i (A ++ y :: z :: B) = bucket_head i (A ++ y :: B).
Proof.
  intros Hz. rewrite !bucket_head_app. destruct (bucket_head i A); [done|].
  simpl. rewrite Hz. by destruct (decide (e_hash y = i)).
Qed.

Lemma insert_after_perm (A B : list (@elem Key T)) y z :
  A ++ y :: z :: B ≡ₚ z :: A ++ y :: B.
Proof.
  rewrite (Permutation_middle A (y :: B) z).
  apply Permutation_app_head, perm_swap.
Qed.

(** ** [__bucket_insert] *)

Lemma insert_loop_spec s h k R : ∀ n x rest,
  lseg (heap s) (Some (e_ptr x)) ((x :: R) ++ rest) (Some (_end s)) →
  Forall (λ y, e_ptr y ≠ _end s) ((x :: R) ++ rest) →
  Forall (λ y, e_hash y = h) (x :: R) →
  match rest with [] => True | y :: _ => e_hash y ≠ h end →
  (length R < n)%nat →
  ∃ r, insert_loop n s h k (e_ptr x) = Some r ∧
    ((r = None ∧ k ∈ map e_key (x :: R)) ∨
     (∃ R0 y, x :: R = R0 ++ [y] ∧ r = Some (e_ptr y) ∧ k ∉ map e_key R0)).
Proof.
  induction R as [|x2 R IH]; intros n x rest Hl Hne HR Hrest Hn;
    destruct n; simpl in *; try lia;
    destruct Hl as (_ & nx & Hx & Hl); rewrite Hx; simpl.
  - destruct rest as [|y rest]; simpl in *.
    + subst nx. rewrite decide_True by done. eexists. split; [done|].
      right. exists [], x. split_and!; [done | done | set_solver].
    + destruct Hl as (-> & ny & Hy & Hl).
      apply Forall_cons in Hne as [_ [Hye _]%Forall_cons].
      rewrite decide_False by congruence. simpl. rewrite Hy. simpl.
      rewrite decide_False by done. eexists. split; [done|].
      right. exists [], x. split_and!; [done | done | set_solver].
  - destruct Hl as (-> & nx2 & Hx2 & Hl).
    apply Forall_cons in Hne as [Hxe Hne]. pose proof Hne as Hne2.
    apply Forall_cons in Hne2 as [Hx2e _].
    apply Forall_cons in HR as [Hxh HR]. pose proof HR as HR2.
    apply Forall_cons in HR2 as [Hx2h _].
    rewrite decide_False by congruence. simpl. rewrite Hx2. simpl.
    rewrite decide_True by done.
    destruct (decide (e_key x = k)) as [Hk|Hk].
    + eexists. split; [done|]. left. split; [done|]. set_solver.
    + destruct (IH n x2 rest) as (r & Hr & Hcase); try done; try lia.
      { simpl. eauto. }
      exists r. split; [done|]. destruct Hcase as [[-> Hin]|(R0 & y & HR0 & -> & Hnin)].
      * left. split; [done|]. set_solver.
      * right. exists (x :: R0), y. split_and!; [by rewrite HR0 | done | set_solver].
Qed.

Lemma rep_array_Some s L :
  rep_core Hash s L → 0 < _size s → ∃ a, array s = Some a ∧ array_ok (Some a) (_size s) L.
Proof.
  intros Hr Hs. pose proof (rep_array _ _ _ Hr) as Ha.
  destruct (array s) as [a|]; [eauto|]. destruct Ha. lia.
Qed.

Lemma rep_fresh_ptr s L :
  rep_core Hash s L → alloc (heap s) ∉ map e_ptr L ++ [_end s].
Proof.
  intros Hr [(x & Hp & Hx)%list_elem_of_fmap|He%list_elem_of_singleton]%elem_of_app.
  - destruct (lseg_lookup _ _ _ _ x (rep_chain _ _ _ Hr) Hx) as (nx & Hl).
    rewrite <- Hp, alloc_fresh in Hl. done.
  - destruct (rep_end _ _ _ Hr) as [b Hb]. rewrite <- He, alloc_fresh in Hb. done.
Qed.

Lemma bucket_insert_spec_order s L k v h :
  rep_core Hash s L →
  h = __constrain_hash (hash_key Hash k) (_size s) → 0 ≤ h < _size s →
  (k ∈ map e_key L ∧ __bucket_insert s (k, v) h = Some (s, None)) ∨
  ((k ∉ map e_key L) ∧ ∃ s' L',
      __bucket_insert s (k, v) h = Some (s', Some (alloc (heap s))) ∧
      rep_core Hash s' L' ∧
      (∃ A B, L = A ++ B ∧ L' = A ++ Elem (alloc (heap s)) k v h :: B) ∧
      _size s' = _size s ∧ _count s' = _count s ∧ _end s' = _end s ∧
      _max_load_factor s' = _max_load_factor s ∧
      size (heap s') = S (size (heap s))).
Proof.
  intros Hr Hh Hrange.
  destruct (rep_array_Some s L) as (a & Harr & Ha); [done | lia|].
  pose proof (rep_fresh_ptr _ _ Hr) as Hfresh.
  pose proof (alloc_fresh (heap s)) as Hnone.
  unfold __bucket_insert.
  generalize_fuel Hr n Hn.
  set (p := alloc (heap s)) in *.
  rewrite Harr. simpl. rewrite (slot_ok a (_size s) L h) by done. simpl.
  destruct (bucket_head h L) as [g|] eqn:Hb.
  - destruct (run_split h L g) as (L1 & x & R & L3 & -> & Hp & H1 & H2 & H3);
      [apply Hr | done |].
    pose proof (rep_chain _ _ _ Hr) as Hc.
    apply lseg_app in Hc as (m & Hc1 & Hc2).
    assert (m = Some g) as ->. { destruct Hc2 as (-> & _). by rewrite Hp. }
    pose proof (rep_hash _ _ _ Hr) as Hok.
    apply Forall_app in Hok as [Hok1 Hok2]. apply Forall_app in Hok2 as [Hok2 Hok3].
    pose proof (rep_ptr_ne_end _ _ Hr) as Hne. apply Forall_app in Hne as [Hne1 Hne].
    assert (Hk13 : k ∈ map e_key (L1 ++ (x :: R) ++ L3) ↔ k ∈ map e_key (x :: R)).
    { pose proof (find_key_other_hash (_size s) k L1 Hok1) as F1.
      pose proof (find_key_other_hash (_size s) k L3 Hok3) as F3.
      rewrite <- Hh in F1, F3. specialize (F1 H1). specialize (F3 H3).
      apply find_key_None in F1, F3. rewrite !map_app, !elem_of_app. tauto. }
    destruct Hc2 as (_ & nx & Hx & Hc2'). rewrite <- Hp, Hx. simpl.
    destruct (decide (e_key x = k)) as [Hxk|Hxk].
    { left. split; [|done]. apply Hk13. set_solver. }
    destruct (insert_loop_spec s h k R n x L3) as (r & -> & Hcase); try done.
    { simpl. eauto. }
    { destruct L3 as [|y L3]; [done|]. by apply Forall_cons in H3 as [? _]. }
    { rewrite !length_app in Hn. simpl in Hn. lia. }
    simpl. destruct Hcase as [[-> Hin]|(R0 & y & HR0 & -> & Hnin)].
    { left. split; [|done]. by apply Hk13. }
    assert (Hy : y ∈ L1 ++ (x :: R) ++ L3).
    { rewrite HR0. set_solver. }
    destruct (lseg_lookup _ _ _ _ y (rep_chain _ _ _ Hr) Hy) as (ny & Hyl).
    rewrite Hyl. simpl.
    destruct (decide (e_key y = k)) as [Hyk|Hyk].
    { left. split; [|done]. apply Hk13. rewrite HR0. set_solver. }
    assert (Hknot : k ∉ map e_key (L1 ++ (x :: R) ++ L3)).
    { rewrite Hk13, HR0. set_solver. }
    right. split; [done|].
    set (z := Elem p k v h).
    assert (HL : L1 ++ (x :: R) ++ L3 = (L1 ++ R0) ++ y :: L3).
    { rewrite HR0. by rewrite <- !app_assoc. }
    assert (Hyh : e_hash y = h).
    { rewrite Forall_forall in H2. apply H2. rewrite HR0. set_solver. }
    assert (Hpy : p ≠ e_ptr y).
    { intros Heq. apply Hfresh, elem_of_app. left. rewrite Heq.
      by apply list_elem_of_fmap_2. }
    change (L1 ++ x :: R ++ L3) with (L1 ++ (x :: R) ++ L3).
    rewrite HL in *. clear HL.
    pose proof (rep_nodup _ _ _ Hr) as Hnd.
    eexists _, ((L1 ++ R0) ++ y :: z :: L3). split; [done|].
    split; [|split_and!; try done].
    + constructor; simpl.
      * apply (lseg_insert_after (heap s) _ _ (L1 ++ R0) y z L3 _ ny); try done.
        -- apply Hr.
        -- by apply NoDup_app in Hnd as (? & _).
        -- intros Hin. apply Hfresh, elem_of_app. by left.
        -- rewrite lookup_insert_ne by done. by rewrite lookup_insert_eq.
        -- by rewrite lookup_insert_eq.
        -- intros r ? ?. by rewrite !lookup_insert_ne.
      * rewrite !lookup_insert_ne; [apply Hr | |].
        -- intros Heq. apply (proj1 (Forall_forall _ _) (rep_ptr_ne_end _ _ Hr) y Hy).
           done.
        -- intros Heq. apply Hfresh, elem_of_app. right. rewrite Heq. set_solver.
      * rewrite (insert_after_perm (L1 ++ R0) L3 y z). simpl.
        apply NoDup_cons. split; [done|]. done.
      * rewrite map_size_insert_None.
        -- rewrite map_size_insert_Some by eauto.
           rewrite (rep_heap_size _ _ _ Hr), !length_app. simpl. lia.
        -- by rewrite lookup_insert_ne.
      * apply Hr.
      * rewrite Harr. destruct Ha as [Hlen Ha]. split; [done|]. intros i Hi.
        rewrite bucket_head_insert_after by done. auto.
      * rewrite (insert_after_perm (L1 ++ R0) L3 y z). constructor; [|apply Hr].
        split; simpl; [done | lia].
      * rewrite map_app. simpl. rewrite <- Hyh at 1. apply grouped_dup.
        pose proof (rep_grouped _ _ _ Hr) as Hg. by rewrite map_app in Hg.
      * rewrite (insert_after_perm (L1 ++ R0) L3 y z). simpl.
        apply NoDup_cons. split; [done | apply Hr].
    + exists ((L1 ++ R0) ++ [y]), L3. by rewrite <- !app_assoc.
    + simpl. rewrite map_size_insert_None.
      * by rewrite map_size_insert_Some by eauto.
      * by rewrite lookup_insert_ne.
  - right. pose proof Hb as Hb'. apply bucket_head_None in Hb.
    assert (Hknot : k ∉ map e_key L).
    { apply find_key_None. apply (find_key_other_hash (_size s)); [apply Hr|].
      by rewrite <- Hh. }
    split; [done|]. set (z := Elem p k v h).
    eexists _, (z :: L). split; [done|]. split; [|split_and!; try done].
    2: { by exists [], L. }
    + constructor; simpl.
      * split; [done|]. exists (start_next s). rewrite lookup_insert_eq.
        split; [done|]. apply lseg_insert_frame; [|apply Hr].
        intros Hin. apply Hfresh, elem_of_app. by left.
      * rewrite lookup_insert_ne; [apply Hr|].
        intros Heq. apply Hfresh, elem_of_app. right. rewrite Heq. set_solver.
      * apply NoDup_cons. split; [done | apply Hr].
      * rewrite map_size_insert_None by done. by rewrite (rep_heap_size _ _ _ Hr).
      * apply Hr.
      * destruct Ha as [Hlen Ha]. rewrite length_insert. split; [done|].
        intros i Hi. destruct (decide (i = Z.to_nat h)) as [->|Hih].
        -- rewrite list_lookup_insert_eq by done. simpl.
           rewrite decide_True by lia. done.
        -- rewrite list_lookup_insert_ne by done. simpl.
           rewrite decide_False by lia. auto.
      * constructor; [|apply Hr]. split; simpl; [done | lia].
      * apply grouped_fresh; [|apply Hr].
        intros (y & Hyh & Hy)%list_elem_of_fmap. rewrite Forall_forall in Hb.
        by apply (Hb y Hy).
      * apply NoDup_cons. split; [done | apply Hr].
    + simpl. by rewrite map_size_insert_None.
Qed.

Lemma bucket_insert_spec s L k v h :
  rep_core Hash s L →
  h = __constrain_hash (hash_key Hash k) (_size s) → 0 ≤ h < _size s →
  (k ∈ map e_key L ∧ __bucket_insert s (k, v) h = Some (s, None)) ∨
  ((k ∉ map e_key L) ∧ ∃ s' L',
      __bucket_insert s (k, v) h = Some (s', Some (alloc (heap s))) ∧
      rep_core Hash s' L' ∧ L' ≡ₚ Elem (alloc (heap s)) k v h :: L ∧
      _size s' = _size s ∧ _count s' = _count s ∧ _end s' = _end s ∧
      _max_load_factor s' = _max_load_factor s ∧
      size (heap s') = S (size (heap s))).
Proof.
  intros Hr Hh Hrange.
  destruct (bucket_insert_spec_order s L k v h Hr Hh Hrange)
    as [?|(Hnin & s' & L' & Hb & Hr' & (A & B & -> & ->) & Hrest)]; [by left|].
  right. split; [done|]. exists s', (A ++ Elem (alloc (heap s)) k v h :: B).
  split; [done|]. split; [done|]. split; [|done].
  symmetry. apply Permutation_middle.
Qed.

(** ** [__rehash] *)

Lemma rehash_step_spec s x Lrem Lnew :
  rehash_inv Hash s (Some (e_ptr x)) (x :: Lrem) Lnew → 0 < _size s →
  ∃ s' o' Lnew',
    rehash_step Hash s (e_ptr x) = Some (s', o') ∧
    rehash_inv Hash s' o' Lrem Lnew' ∧
    map pkv_of Lnew' ≡ₚ pkv_of x :: map pkv_of Lnew ∧
    _size s' = _size s ∧ _count s' = _count s ∧ _end s' = _end s ∧
    _max_load_factor s' = _max_load_factor s ∧ size (heap s') = size (heap s).
Proof.
  intros [Hnew Hrem Hend Hnd Hsz Hsize (a & Harr & Ha) Hok Hg Hkeys] Hpos.
  destruct Hrem as (_ & nx & Hx & Hrem).
  set (p := e_ptr x) in *.
  set (h := __constrain_hash (hash_key Hash (e_key x)) (_size s)).
  set (z := Elem p (e_key x) (e_val x) h).
  assert (Hh : 0 ≤ h < _size s).
  { apply constrain_hash_range; [apply hash_key_range | lia]. }
  assert (Hzok : hash_ok Hash (_size s) z) by (split; simpl; [done | lia]).
  (* pointers are pairwise distinct *)
  assert (Hnd' := Hnd). rewrite map_app in Hnd'. simpl in Hnd'.
  rewrite <- app_assoc in Hnd'. simpl in Hnd'.
  apply NoDup_app in Hnd' as (HndN & HdisjN & [HpR HndR]%NoDup_cons).
  assert (HpN : p ∉ map e_ptr Lnew).
  { intros Hin. apply (HdisjN p Hin). set_solver. }
  assert (HpRem : p ∉ map e_ptr Lrem) by set_solver.
  assert (Hpe : p ≠ _end s) by set_solver.
  assert (HNR : ∀ y, y ∈ Lnew → e_ptr y ∉ map e_ptr Lrem).
  { intros y Hy Hin. apply (HdisjN (e_ptr y)); [by apply list_elem_of_fmap_2|].
    set_solver. }
  assert (HNe : ∀ y, y ∈ Lnew → e_ptr y ≠ _end s).
  { intros y Hy Heq. apply (HdisjN (e_ptr y)); [by apply list_elem_of_fmap_2|].
    rewrite Heq. set_solver. }
  assert (HndPerm : ∀ Lnew', Lnew' ≡ₚ z :: Lnew →
            NoDup (map e_ptr (Lnew' ++ Lrem) ++ [_end s])).
  { intros Lnew' HP. rewrite HP. simpl.
    eapply NoDup_Permutation_proper; [|exact Hnd].
    rewrite !map_app. simpl. rewrite <- !app_assoc. simpl.
    apply Permutation_middle. }
  assert (HkeysPerm : ∀ Lnew', Lnew' ≡ₚ z :: Lnew →
            NoDup (map e_key (Lnew' ++ Lrem))).
  { intros Lnew' HP. rewrite HP. simpl.
    eapply NoDup_Permutation_proper; [|exact Hkeys].
    rewrite !map_app. simpl. apply Permutation_middle. }
  unfold rehash_step. fold p. rewrite Hx. simpl. fold h. rewrite Harr. simpl.
  rewrite (slot_ok a (_size s) Lnew h) by done. simpl.
  destruct (bucket_head h Lnew) as [q|] eqn:Hb; simpl.
  - (* linked in behind the head of its bucket *)
    apply bucket_head_Some in Hb as (A & y & B & -> & Hq & Hyh & HA).
    assert (Hy : y ∈ A ++ y :: B) by set_solver.
    destruct (lseg_lookup _ _ _ _ y Hnew Hy) as (ny & Hyl).
    assert (Hqp : q ≠ p).
    { intros Heq. apply HpN. rewrite <- Heq, <- Hq. by apply list_elem_of_fmap_2. }
    rewrite <- Hq in *. rewrite Hyl. simpl.
    rewrite lookup_insert_ne by done. rewrite Hyl. simpl.
    rewrite lookup_insert_ne by done. rewrite lookup_insert_eq. simpl.
    eexists _, nx, (A ++ y :: z :: B). split; [done|].
    set (hp' := <[p := _]> (<[e_ptr y := _]> _)).
    assert (Hp' : hp' !! p = Some (node_of z ny)) by apply lookup_insert_eq.
    assert (Hy' : hp' !! e_ptr y = Some (node_of y (Some p))).
    { unfold hp'. rewrite lookup_insert_ne by done. by rewrite lookup_insert_eq. }
    assert (Hother : ∀ r, r ≠ e_ptr y → r ≠ p → hp' !! r = heap s !! r).
    { intros r ? ?. unfold hp'. by rewrite !lookup_insert_ne. }
    split; [|split_and!; try done].
    + constructor; simpl.
      * by apply (lseg_insert_after (heap s) _ _ A y z B _ ny).
      * apply (lseg_ext (heap s)); [|done]. intros y' Hy'in. apply Hother.
        -- intros Heq. apply (HNR y Hy). rewrite <- Heq. by apply list_elem_of_fmap_2.
        -- intros Heq. apply HpRem. rewrite <- Heq. by apply list_elem_of_fmap_2.
      * rewrite Hother; [done | by apply not_eq_sym, HNe | by apply not_eq_sym].
      * apply HndPerm, insert_after_perm.
      * unfold hp'. rewrite !map_size_insert_Some.
        -- rewrite Hsz, !length_app. simpl. lia.
        -- exists (node_of x nx). done.
        -- rewrite lookup_insert_ne by done. eauto.
        -- rewrite lookup_insert_ne by done. rewrite lookup_insert_eq. eauto.
      * done.
      * exists a. split; [done|]. destruct Ha as [Hlen Ha]. split; [done|].
        intros i Hi. rewrite bucket_head_insert_after by done. auto.
      * rewrite (insert_after_perm A B y z). by constructor.
      * rewrite map_app. simpl. rewrite <- Hyh at 1. apply grouped_dup.
        by rewrite map_app in Hg.
      * apply HkeysPerm, insert_after_perm.
    + by rewrite (insert_after_perm A B y z).
    + simpl. unfold hp'. rewrite !map_size_insert_Some; try done.
      * rewrite lookup_insert_ne by done. eauto.
      * rewrite lookup_insert_ne by done. rewrite lookup_insert_eq. eauto.
  - (* the first node of its bucket: pushed on the front of the list *)
    rewrite lookup_insert_eq. simpl.
    apply bucket_head_None in Hb.
    eexists _, nx, (z :: Lnew). split; [done|].
    set (hp' := <[p := _]> (<[p := _]> _)).
    assert (Hp' : hp' !! p = Some (node_of z (start_next s))) by apply lookup_insert_eq.
    assert (Hother : ∀ r, r ≠ p → hp' !! r = heap s !! r).
    { intros r ?. unfold hp'. by rewrite !lookup_insert_ne. }
    split; [|split_and!; try done].
    + constructor; simpl.
      * split; [done|]. exists (start_next s). split; [done|].
        apply (lseg_ext (heap s)); [|done]. intros y Hy. apply Hother.
        intros Heq. apply HpN. rewrite <- Heq. by apply list_elem_of_fmap_2.
      * apply (lseg_ext (heap s)); [|done]. intros y Hy. apply Hother.
        intros Heq. apply HpRem. rewrite <- Heq. by apply list_elem_of_fmap_2.
      * rewrite Hother; [done | by apply not_eq_sym].
      * by apply (HndPerm (z :: Lnew)).
      * unfold hp'. rewrite !map_size_insert_Some.
        -- rewrite Hsz, !length_app. simpl. lia.
        -- exists (node_of x nx). done.
        -- rewrite lookup_insert_eq. eauto.
      * done.
      * eexists. split; [done|]. destruct Ha as [Hlen Ha].
        rewrite length_insert. split; [done|].
        intros i Hi. destruct (decide (i = Z.to_nat h)) as [->|Hih].
        -- rewrite list_lookup_insert_eq by done. simpl.
           rewrite decide_True by lia. done.
        -- rewrite list_lookup_insert_ne by done. simpl.
           rewrite decide_False by lia. auto.
      * by constructor.
      * apply grouped_fresh; [|done].
        intros (y & Hyh & Hy)%list_elem_of_fmap. rewrite Forall_forall in Hb.
        by apply (Hb y Hy).
      * by apply (HkeysPerm (z :: Lnew)).
    + simpl. unfold hp'. rewrite !map_size_insert_Some; try done.
      rewrite lookup_insert_eq. eauto.
Qed.

Lemma rehash_loop_spec Lrem : ∀ n s o Lnew,
  rehash_inv Hash s o Lrem Lnew → (Lrem ≠ [] → 0 < _size s) →
  (length Lrem < n)%nat →
  ∃ s' Lnew',
    rehash_loop Hash n s o = Some s' ∧
    rehash_inv Hash s' (Some (_end s')) [] Lnew' ∧
    map pkv_of Lnew' ≡ₚ map pkv_of Lrem ++ map pkv_of Lnew ∧
    _size s' = _size s ∧ _count s' = _count s ∧ _end s' = _end s ∧
    _max_load_factor s' = _max_load_factor s ∧ size (heap s') = size (heap s).
Proof.
  induction Lrem as [|x Lrem IH]; intros n s o Lnew Hinv Hpos Hn;
    destruct n; simpl in *; try lia.
  - pose proof (ri_rem _ _ _ _ _ Hinv) as Ho. simpl in Ho. subst o.
    rewrite decide_True by done. exists s, Lnew. split_and!; done.
  - pose proof (ri_rem _ _ _ _ _ Hinv) as (-> & _).
    assert (Hxe : e_ptr x ≠ _end s).
    { pose proof (ri_nodup _ _ _ _ _ Hinv) as Hnd.
      rewrite map_app in Hnd. simpl in Hnd.
      apply NoDup_app in Hnd as (_ & Hd & _). intros Heq.
      apply (Hd (e_ptr x)); [set_solver|]. rewrite Heq. set_solver. }
    rewrite decide_False by congruence. simpl.
    destruct (rehash_step_spec s x Lrem Lnew) as
      (s1 & o1 & Lnew1 & -> & Hinv1 & HP1 & Hs1 & Hc1 & He1 & Hm1 & Hh1);
      [done | by apply Hpos |].
    simpl.
    destruct (IH n s1 o1 Lnew1) as
      (s2 & Lnew2 & -> & Hinv2 & HP2 & Hs2 & Hc2 & He2 & Hm2 & Hh2);
      [done | intros _; rewrite Hs1; by apply Hpos | lia |].
    exists s2, Lnew2. split_and!; try congruence.
    rewrite HP2, HP1. by rewrite <- Permutation_middle.
Qed.

Lemma rehash_spec_ptr s L n :
  rep_core Hash s L → 0 ≤ n < size_max → (L ≠ [] → 0 < n) →
  ∃ s' L',
    __rehash Hash s n = Some s' ∧ rep_core Hash s' L' ∧
    map pkv_of L' ≡ₚ map pkv_of L ∧
    _size s' = n ∧ _count s' = _count s ∧ _end s' = _end s ∧
    _max_load_factor s' = _max_load_factor s ∧ size (heap s') = size (heap s) ∧
    is_Some (array s').
Proof.
  intros Hr Hn Hpos. unfold __rehash.
  set (s0 := State _ _ _ _ _ _ _).
  destruct (rehash_loop_spec L (fuel_of s) s0 (start_next s) []) as
    (s' & L' & Hloop & Hinv & HP & Hs & Hc & He & Hm & Hh).
  - constructor; simpl; try apply Hr; try done.
    eexists. split; [done|]. split.
    + rewrite length_replicate. lia.
    + intros i Hi. rewrite length_replicate in Hi. by rewrite lookup_replicate_2.
  - done.
  - unfold fuel_of. rewrite (rep_heap_size _ _ _ Hr). lia.
  - exists s', L'. rewrite Hloop. split; [done|].
    rewrite app_nil_r in HP.
    destruct Hinv as [Hnew _ Hend Hnd Hsz Hsize (a & Harr & Ha) Hok Hg Hkeys].
    rewrite app_nil_r in *.
    split. { constructor; try done. by rewrite Harr. }
    split_and!; done.
Qed.

Lemma kvs_of_pkvs L : map kv_of L = map snd (map pkv_of L).
Proof. induction L as [|x L IH]; simpl; [done | by rewrite IH]. Qed.

Lemma pkv_perm_kv L L' : map pkv_of L' ≡ₚ map pkv_of L → map kv_of L' ≡ₚ map kv_of L.
Proof. intros HP. rewrite !kvs_of_pkvs. by apply fmap_Permutation. Qed.

Lemma rehash_spec s L n :
  rep_core Hash s L → 0 ≤ n < size_max → (L ≠ [] → 0 < n) →
  ∃ s' L',
    __rehash Hash s n = Some s' ∧ rep_core Hash s' L' ∧
    map kv_of L' ≡ₚ map kv_of L ∧
    _size s' = n ∧ _count s' = _count s ∧ _end s' = _end s ∧
    _max_load_factor s' = _max_load_factor s ∧ size (heap s') = size (heap s) ∧
    is_Some (array s').
Proof.
  intros Hr Hn Hpos.
  destruct (rehash_spec_ptr s L n Hr Hn Hpos) as (s' & L' & Hre & Hr' & HP & Hrest).
  exists s', L'. split_and!; [done | done | by apply pkv_perm_kv | apply Hrest ..].
Qed.

(** ** [erase] *)

Lemma bucket_head_in h L r : bucket_head h L = Some r → r ∈ map e_ptr L.
Proof.
  intros (L1 & x & L2 & -> & <- & _)%bucket_head_Some.
  rewrite map_app. set_solver.
Qed.

Lemma lseg_mid hp o A y B o' :
  lseg hp o (A ++ y :: B) o' →
  ∃ ny, hp !! e_ptr y = Some (node_of y ny) ∧
        lseg hp o A (Some (e_ptr y)) ∧ lseg hp ny B o'.
Proof. intros (m & HA & (-> & ny & Hy & HB))%lseg_app. eauto. Qed.

Lemma slot_insert_eq a h (r : option ptr) :
  0 ≤ h < Z.of_nat (length a) → slot (<[Z.to_nat h := r]> a) h = Some r.
Proof.
  intros Hh. unfold slot. destruct (Z.ltb_spec h 0); [lia|].
  apply list_lookup_insert_eq. lia.
Qed.

Lemma slot_insert_ne a h h' (r : option ptr) :
  0 ≤ h → 0 ≤ h' → h ≠ h' → slot (<[Z.to_nat h := r]> a) h' = slot a h'.
Proof.
  intros Hh Hh' Hne. unfold slot. destruct (Z.ltb_spec h' 0); [done|].
  apply list_lookup_insert_ne. lia.
Qed.

(** Erasing the last node of the list: it becomes the past-last sentinel. *)
Lemma erase_node_last s A y a :
  rep_core Hash s (A ++ [y]) → array s = Some a →
  ∃ s',
    erase_node s a (e_hash y) (e_ptr y) (node_of y (Some (_end s))) = Some (s', true) ∧
    rep_core Hash s' A ∧ _size s' = _size s ∧ _count s' = wrap (_count s - 1) ∧
    _max_load_factor s' = _max_load_factor s ∧ is_Some (array s') ∧
    S (size (heap s')) = size (heap s).
Proof.
  intros Hr Harr. set (h := e_hash y). set (g := e_ptr y).
  pose proof (rep_array _ _ _ Hr) as Ha. rewrite Harr in Ha.
  pose proof (rep_hash _ _ _ Hr) as Hok.
  apply Forall_app in Hok as [HokA [[_ Hh] _]%Forall_cons]. fold h in Hh.
  pose proof (rep_nodup _ _ _ Hr) as Hnd. rewrite map_app in Hnd. simpl in Hnd.
  rewrite <- app_assoc in Hnd. simpl in Hnd.
  assert (Hnd' := Hnd). apply NoDup_app in Hnd' as (HndA & HdA & [Hge _]%NoDup_cons).
  assert (Hge' : g ≠ _end s) by set_solver.
  assert (HgA : g ∉ map e_ptr A). { intros Hin. apply (HdA g Hin). set_solver. }
  assert (HeA : _end s ∉ map e_ptr A). { intros Hin. apply (HdA _ Hin). set_solver. }
  destruct (rep_end _ _ _ Hr) as [be Hbe].
  destruct (lseg_mid _ _ _ _ _ _ (rep_chain _ _ _ Hr)) as (ny & Hy & HlA & HlB).
  simpl in HlB. subst ny. fold g in Hy, HlA.
  unfold erase_node. rewrite (slot_ok a (_size s) (A ++ [y]) h) by done.
  change (next (node_of y (Some (_end s)))) with (Some (_end s)).
  rewrite !(decide_True (P := Some (_end s) = Some (_end s))) by done.
  simpl. rewrite Hbe. simpl.
  rewrite bucket_head_app. simpl. fold h g. rewrite (decide_True (P := h = h)) by done.
  assert (Hchain : ∀ hp', hp' = delete (_end s) (<[g := be]> (heap s)) →
    lseg hp' (start_next s) A (Some g) ∧ is_Some (hp' !! g) ∧
    size hp' = S (length A)).
  { intros hp' ->. split_and!.
    - apply lseg_delete_frame; [done|]. by apply lseg_insert_frame.
    - rewrite lookup_delete_ne by done. rewrite lookup_insert_eq. eauto.
    - assert (Hsz := rep_heap_size _ _ _ Hr). rewrite length_app in Hsz. simpl in Hsz.
      assert (Hd : size (delete (_end s) (<[g:=be]> (heap s))) =
                   pred (size (<[g:=be]> (heap s)))).
      { apply map_size_delete_Some. rewrite lookup_insert_ne by done. eauto. }
      rewrite Hd, map_size_insert_Some by eauto. lia. }
  assert (Hsz := rep_heap_size _ _ _ Hr).
  assert (Hrest : NoDup (map e_ptr A ++ [g]) ∧ Forall (hash_ok Hash (_size s)) A ∧
                  grouped (map e_hash A) ∧ NoDup (map e_key A)).
  { split_and!.
    - apply NoDup_app. split_and!; [done | | apply NoDup_singleton].
      intros r Hr1 Hr2%list_elem_of_singleton. subst r. done.
    - done.
    - pose proof (rep_grouped _ _ _ Hr) as Hg. rewrite map_app in Hg. simpl in Hg.
      replace (map e_hash A) with (map e_hash A ++ []) by apply app_nil_r.
      by apply (grouped_delete _ _ h).
    - pose proof (rep_keys _ _ _ Hr) as Hk. rewrite map_app in Hk.
      by apply NoDup_app in Hk as (? & _). }
  destruct Hrest as (HndA' & HokA' & HgA' & HkA').
  destruct Ha as [Hlen Ha].
  destruct (bucket_head h A) as [r|] eqn:HbA.
  - (* another node heads the bucket *)
    assert (r ≠ g). { intros ->. by apply HgA, (bucket_head_in h). }
    rewrite decide_False by congruence. simpl.
    rewrite (decide_True (P := Some (_end s) = Some (_end s))) by done. simpl.
    destruct (Hchain _ eq_refl) as (Hc1 & Hc2 & Hc3).
    eexists. split; [done|]. split; [|split_and!; simpl; try done].
    + constructor; simpl; try done; try apply Hr.
      split; [done|]. intros i Hi. rewrite Ha by done.
      rewrite bucket_head_app. destruct (bucket_head (Z.of_nat i) A) eqn:Hbi; [done|].
      simpl. fold h. destruct (decide (h = Z.of_nat i)) as [Hhi|]; [|done].
      rewrite <- Hhi in Hbi. congruence.
    + rewrite Hc3, Hsz, length_app. simpl. lia.
  - (* the node heads its bucket, which becomes empty *)
    rewrite decide_True by done. simpl.
    rewrite (decide_True (P := Some (_end s) = Some (_end s))) by done. simpl.
    destruct (Hchain _ eq_refl) as (Hc1 & Hc2 & Hc3).
    eexists. split; [done|]. split; [|split_and!; simpl; try done].
    + constructor; simpl; try done; try apply Hr.
      rewrite length_insert. split; [done|]. intros i Hi.
      destruct (decide (i = Z.to_nat h)) as [->|Hih].
      * rewrite list_lookup_insert_eq by done. rewrite Z2Nat.id by lia. by rewrite HbA.
      * rewrite list_lookup_insert_ne by done. rewrite Ha by done.
        rewrite bucket_head_app. destruct (bucket_head (Z.of_nat i) A); [done|].
        simpl. fold h. rewrite decide_False by lia. done.
    + rewrite Hc3, Hsz, length_app. simpl. lia.
Qed.

Lemma grouped_next_ne (l1 l2 : list Z) (h h2 : Z) :
  grouped (l1 ++ h :: h2 :: l2) → h2 ≠ h → h ∉ l2.
Proof.
  intros Hg%grouped_app_r Hne Hin. destruct Hg as [Hh _].
  assert (Some h2 = Some h) as [= ?]; [|done]. apply Hh. set_solver.
Qed.

(** The bucket index after the fix-up of [erase], when the matched node
    [y] is followed by the node [y2]. *)
Lemma erase_array_mid a sz A y y2 B h h2 g g2 a1 a2 :
  e_hash y = h → e_hash y2 = h2 → e_ptr y = g → e_ptr y2 = g2 →
  a1 = (if decide (slot a h = Some (Some g)) then
          if decide (h2 = h) then <[Z.to_nat h := Some g2]> a
          else <[Z.to_nat h := None]> a
        else a) →
  a2 = (if decide (slot a1 h2 = Some (Some g2))
        then <[Z.to_nat h2 := Some g]> a1 else a1) →
  array_ok (Some a) sz (A ++ y :: y2 :: B) →
  NoDup (map e_ptr (A ++ y :: y2 :: B)) →
  grouped (map e_hash (A ++ y :: y2 :: B)) →
  0 ≤ h < sz → 0 ≤ h2 < sz →
  array_ok (Some a2) sz (A ++ Elem g (e_key y2) (e_val y2) h2 :: B).
Proof.
  intros Eh Eh2 Eg Eg2 Ea1 Ea2 [Hlen Ha] Hnd Hg Hh Hh2.
  assert (Hslot : ∀ j, 0 ≤ j < sz →
            slot a j = Some (bucket_head j (A ++ y :: y2 :: B))).
  { intros j Hj. by apply (slot_ok a sz). }
  rewrite map_app in Hnd. simpl in Hnd.
  apply NoDup_app in Hnd as (_ & HdA & [Hg1 [Hg2 _]%NoDup_cons]%NoDup_cons).
  rewrite ?Eg, ?Eg2 in HdA, Hg1, Hg2.
  assert (Hgg : g ≠ g2) by set_solver.
  assert (HAg : ∀ j r, bucket_head j A = Some r → r ≠ g ∧ r ≠ g2).
  { intros j r Hr%bucket_head_in. split; intros ->; apply (HdA _ Hr); set_solver. }
  assert (HB : h2 ≠ h → bucket_head h B = None).
  { intros Hne. apply bucket_head_None, Forall_forall. intros x Hx Hxh.
    rewrite map_app in Hg. simpl in Hg. rewrite Eh, Eh2 in Hg.
    apply (grouped_next_ne _ _ _ _ Hg Hne). apply list_elem_of_fmap.
    exists x. by split. }
  assert (Hgoal : ∀ a', length a' = length a →
     (∀ j, 0 ≤ j < sz → slot a' j =
        Some (bucket_head j (A ++ Elem g (e_key y2) (e_val y2) h2 :: B))) →
     array_ok (Some a') sz (A ++ Elem g (e_key y2) (e_val y2) h2 :: B)).
  { intros a' Hl Hs. split; [by rewrite Hl|]. intros i Hi.
    specialize (Hs (Z.of_nat i)). unfold slot in Hs.
    destruct (Z.ltb_spec (Z.of_nat i) 0); [lia|]. rewrite Nat2Z.id in Hs.
    apply Hs. lia. }
  assert (Hs1 := Hslot h Hh). assert (Hs2 := Hslot h2 Hh2).
  rewrite bucket_head_app in Hs1, Hs2. simpl in Hs1, Hs2.
  rewrite ?Eh, ?Eh2, ?Eg, ?Eg2 in Hs1, Hs2.
  rewrite decide_True in Hs1 by done.
  assert (Hcommon : ∀ j, 0 ≤ j < sz → j ≠ h → j ≠ h2 →
     slot a j = Some (bucket_head j (A ++ Elem g (e_key y2) (e_val y2) h2 :: B))).
  { intros j Hj ? ?. rewrite Hslot by done. rewrite !bucket_head_app. simpl.
    rewrite ?Eh, ?Eh2. by rewrite !decide_False by done. }
  destruct (bucket_head h A) as [r|] eqn:HbA.
  - (* [y] is not the head of its bucket *)
    destruct (HAg _ _ HbA) as [Hrg Hrg2].
    assert (a1 = a) as Ha1. { rewrite Ea1, Hs1. by rewrite decide_False by congruence. }
    rewrite Ea2, Ha1. clear Ea1 Ea2 Ha1.
    destruct (bucket_head h2 A) as [r2|] eqn:HbA2.
    + destruct (HAg _ _ HbA2) as [_ Hr2].
      rewrite Hs2, decide_False by congruence.
      apply Hgoal; [done|]. intros j Hj. rewrite Hslot by done.
      rewrite !bucket_head_app. destruct (bucket_head j A) eqn:HbjA; [done|].
      simpl. rewrite ?Eh, ?Eh2, ?Eg, ?Eg2. by rewrite !decide_False by congruence.
    + destruct (decide (h = h2)) as [Heq|Hne];
        rewrite ?decide_True, ?decide_False in Hs2 by congruence.
      * rewrite Hs2, decide_False by congruence.
        apply Hgoal; [done|]. intros j Hj. rewrite Hslot by done.
        rewrite !bucket_head_app. destruct (bucket_head j A) eqn:HbjA; [done|].
        simpl. rewrite ?Eh, ?Eh2, ?Eg, ?Eg2. by rewrite !decide_False by congruence.
      * rewrite Hs2, decide_True by done.
        apply Hgoal; [by rewrite length_insert|]. intros j Hj.
        destruct (decide (j = h2)) as [->|Hj2].
        -- rewrite slot_insert_eq by lia. rewrite bucket_head_app, HbA2. simpl.
           by rewrite decide_True.
        -- rewrite slot_insert_ne by lia. rewrite Hslot by done.
           rewrite !bucket_head_app. destruct (bucket_head j A) eqn:HbjA; [done|].
           simpl. rewrite ?Eh, ?Eh2, ?Eg, ?Eg2. by rewrite !decide_False by congruence.
  - (* [y] is the head of its bucket *)
    destruct (decide (h2 = h)) as [Heq|Hne].
    + rewrite Heq in *. clear Heq.
      assert (a1 = <[Z.to_nat h := Some g2]> a) as Ha1.
      { rewrite Ea1, Hs1. by rewrite !decide_True. }
      rewrite Ea2, Ha1. clear Ea1 Ea2 Ha1.
      rewrite slot_insert_eq by lia. rewrite decide_True by done.
      apply Hgoal; [by rewrite !length_insert|]. intros j Hj.
      destruct (decide (j = h)) as [->|Hjh].
      * rewrite slot_insert_eq by (rewrite length_insert; lia).
        rewrite bucket_head_app, HbA. simpl. rewrite ?Eh, ?Eh2, ?Eg, ?Eg2. by rewrite decide_True.
      * rewrite !slot_insert_ne by lia. apply Hcommon; congruence.
    + assert (a1 = <[Z.to_nat h := None]> a) as Ha1.
      { rewrite Ea1, Hs1. by rewrite decide_True by done. }
      rewrite Ea2, Ha1. clear Ea1 Ea2 Ha1.
      rewrite slot_insert_ne by lia. rewrite Hs2.
      assert (HhL' : bucket_head h (A ++ Elem g (e_key y2) (e_val y2) h2 :: B) = None).
      { rewrite bucket_head_app, HbA. simpl. rewrite decide_False by done. auto. }
      destruct (bucket_head h2 A) as [r2|] eqn:HbA2;
        rewrite ?(decide_False (P := h = h2)), ?(decide_True (P := h2 = h2))
          in Hs2 |- * by congruence.
      * destruct (HAg _ _ HbA2) as [_ Hr2]. rewrite decide_False by congruence.
        apply Hgoal; [by rewrite !length_insert|]. intros j Hj.
        destruct (decide (j = h)) as [->|Hjh].
        -- rewrite slot_insert_eq by lia. by rewrite HhL'.
        -- rewrite slot_insert_ne by lia. destruct (decide (j = h2)) as [->|Hj2].
           ++ rewrite Hs2. by rewrite bucket_head_app, HbA2.
           ++ by apply Hcommon.
      * rewrite decide_True by done.
        apply Hgoal; [by rewrite !length_insert|]. intros j Hj.
        destruct (decide (j = h2)) as [->|Hj2].
        -- rewrite slot_insert_eq by (rewrite length_insert; lia).
           rewrite bucket_head_app, HbA2. simpl. by rewrite decide_True.
        -- rewrite slot_insert_ne by lia. destruct (decide (j = h)) as [->|Hjh].
           ++ rewrite slot_insert_eq by lia. by rewrite HhL'.
           ++ rewrite slot_insert_ne by lia. by apply Hcommon.
Qed.

(** Erasing a node that has a successor: it takes the successor's
    contents, and the successor is freed. *)
Lemma erase_node_mid s A y y2 B a :
  rep_core Hash s (A ++ y :: y2 :: B) → array s = Some a →
  ∃ s',
    erase_node s a (e_hash y) (e_ptr y) (node_of y (Some (e_ptr y2))) = Some (s', true) ∧
    rep_core Hash s' (A ++ Elem (e_ptr y) (e_key y2) (e_val y2) (e_hash y2) :: B) ∧
    _size s' = _size s ∧ _count s' = wrap (_count s - 1) ∧
    _max_load_factor s' = _max_load_factor s ∧ is_Some (array s') ∧
    S (size (heap s')) = size (heap s).
Proof.
  intros Hr Harr.
  set (h := e_hash y). set (g := e_ptr y). set (h2 := e_hash y2). set (g2 := e_ptr y2).
  set (y' := Elem g (e_key y2) (e_val y2) h2).
  pose proof (rep_array _ _ _ Hr) as Ha. rewrite Harr in Ha.
  pose proof (rep_hash _ _ _ Hr) as Hok.
  assert (Hok' := Hok).
  apply Forall_app in Hok' as [HokA [[_ Hh] [[Hy2ok Hh2] HokB]%Forall_cons]%Forall_cons].
  fold h in Hh. fold h2 in Hh2.
  pose proof (rep_nodup _ _ _ Hr) as Hnd.
  assert (HndL : NoDup (map e_ptr (A ++ y :: y2 :: B))).
  { by apply NoDup_app in Hnd as (? & _). }
  pose proof (rep_ptr_ne_end _ _ Hr) as Hne.
  assert (Hne' := Hne).
  apply Forall_app in Hne' as [HneA [Hge [Hg2e HneB]%Forall_cons]%Forall_cons].
  fold g in Hge. fold g2 in Hg2e.
  assert (HndL' := HndL). rewrite map_app in HndL'. simpl in HndL'.
  apply NoDup_app in HndL' as (HndA & HdA & [Hg1 [Hg2 HndB]%NoDup_cons]%NoDup_cons).
  fold g g2 in HdA, Hg1, Hg2.
  assert (Hgg : g ≠ g2) by set_solver.
  assert (HgA : g ∉ map e_ptr A). { intros Hin. apply (HdA g Hin). set_solver. }
  assert (Hg2A : g2 ∉ map e_ptr A). { intros Hin. apply (HdA g2 Hin). set_solver. }
  assert (HgB : g ∉ map e_ptr B) by set_solver.
  destruct (lseg_mid _ _ _ _ _ _ (rep_chain _ _ _ Hr)) as (ny & Hy & HlA & HlB).
  destruct HlB as (-> & ny2 & Hy2 & HlB). fold g in Hy, HlA. fold g2 in Hy, Hy2.
  destruct Ha as [Hlen Ha'].
  assert (Ha : array_ok (Some a) (_size s) (A ++ y :: y2 :: B)) by done.
  set (a1 := if decide (slot a h = Some (Some g)) then
               if decide (h2 = h) then <[Z.to_nat h := Some g2]> a
               else <[Z.to_nat h := None]> a
             else a).
  set (a2 := if decide (slot a1 h2 = Some (Some g2))
             then <[Z.to_nat h2 := Some g]> a1 else a1).
  assert (Hlen1 : length a1 = length a).
  { unfold a1. repeat case_decide; by rewrite ?length_insert. }
  assert (Hcode : erase_node s a h g (node_of y (Some g2)) =
    Some (State (delete g2 (<[g := node_of y2 ny2]> (heap s))) (Some a2) (_size s)
                (wrap (_count s - 1)) (_max_load_factor s) (start_next s) (_end s),
          true)).
  { unfold erase_node.
    change (next (node_of y (Some g2))) with (Some g2).
    rewrite !(decide_False (P := Some g2 = Some (_end s))) by congruence.
    simpl. rewrite Hy2. simpl. fold h2.
    assert (Hs1 : ∃ r, slot a1 h2 = Some r).
    { unfold slot. destruct (Z.ltb_spec h2 0); [lia|].
      apply lookup_lt_is_Some. lia. }
    destruct Hs1 as [r Hs1].
    assert (Ha1 : (if decide (slot a h = Some (Some g)) then
              if decide (h2 = h) then Some (<[Z.to_nat h := Some g2]> a)
              else Some (<[Z.to_nat h := None]> a)
            else Some a) = Some a1).
    { unfold a1. by repeat case_decide. }
    rewrite Ha1. simpl. rewrite Hs1. simpl.
    unfold a2. rewrite Hs1.
    repeat case_decide; simpl; try done; congruence. }
  fold h g g2. rewrite Hcode. eexists. split; [done|].
  split; [|split_and!; simpl; try done].
  - constructor; simpl; try apply Hr.
    + apply lseg_app. exists (Some g). split.
      * apply lseg_delete_frame; [done|]. by apply lseg_insert_frame.
      * split; [done|]. exists ny2. split.
        -- rewrite lookup_delete_ne by done. by rewrite lookup_insert_eq.
        -- apply lseg_delete_frame; [done|]. by apply lseg_insert_frame.
    + rewrite lookup_delete_ne by done. rewrite lookup_insert_ne by done. apply Hr.
    + assert (Hsub : map e_ptr (A ++ y' :: B) ++ [_end s]
                       `sublist_of` map e_ptr (A ++ y :: y2 :: B) ++ [_end s]).
      { rewrite !map_app. simpl. apply sublist_app; [|done].
        apply sublist_app; [done|]. apply sublist_skip. by apply sublist_cons. }
      apply (sublist_NoDup _ _ Hnd Hsub).
    + assert (Hsz := rep_heap_size _ _ _ Hr). rewrite length_app in *. simpl in *.
      assert (Hd : size (delete g2 (<[g:=node_of y2 ny2]> (heap s))) =
                   pred (size (<[g:=node_of y2 ny2]> (heap s)))).
      { apply map_size_delete_Some. rewrite lookup_insert_ne by done. eauto. }
      rewrite Hd, map_size_insert_Some by eauto. lia.
    + apply (erase_array_mid a (_size s) A y y2 B h h2 g g2 a1 a2); try done.
      apply Hr.
    + apply Forall_app. split; [done|]. constructor; [|done]. split; simpl; [|done].
      apply Hy2ok.
    + pose proof (rep_grouped _ _ _ Hr) as Hg. rewrite map_app in *. simpl in *.
      by apply (grouped_delete _ _ h).
    + pose proof (rep_keys _ _ _ Hr) as Hk.
      assert (Hsub : map e_key (A ++ y' :: B) `sublist_of` map e_key (A ++ y :: y2 :: B)).
      { rewrite !map_app. simpl. apply sublist_app; [done|]. by apply sublist_cons. }
      apply (sublist_NoDup _ _ Hk Hsub).
  - assert (Hd : size (delete g2 (<[g:=node_of y2 ny2]> (heap s))) =
                 pred (size (<[g:=node_of y2 ny2]> (heap s)))).
    { apply map_size_delete_Some. rewrite lookup_insert_ne by done. eauto. }
    rewrite Hd, map_size_insert_Some by eauto.
    rewrite (rep_heap_size _ _ _ Hr). done.
Qed.

Lemma erase_loop_run s a h k R : ∀ n o rest,
  lseg (heap s) o (R ++ rest) (Some (_end s)) →
  Forall (λ x, e_ptr x ≠ _end s) (R ++ rest) →
  Forall (λ y, e_hash y = h) R →
  match rest with [] => True | y :: _ => e_hash y ≠ h end →
  (length R < n)%nat →
  erase_loop n s a h k o =
    match find_key k R with
    | Some y => b ← heap s !! e_ptr y; erase_node s a h (e_ptr y) b
    | None => Some (s, false)
    end.
Proof.
  induction R as [|x R IH]; intros n o rest Hl Hne HR Hrest Hn;
    destruct n; simpl in *; try lia.
  - destruct rest as [|y rest]; simpl in *.
    + subst o. by rewrite decide_True.
    + destruct Hl as (-> & nx & Hy & Hl). apply Forall_cons in Hne as [Hye Hne].
      rewrite decide_False by congruence. simpl. rewrite Hy. simpl.
      by rewrite decide_False by done.
  - destruct Hl as (-> & nx & Hx & Hl). apply Forall_cons in Hne as [Hxe Hne].
    apply Forall_cons in HR as [Hxh HR].
    rewrite decide_False by congruence. simpl. rewrite Hx. simpl.
    rewrite decide_True by done.
    destruct (decide (e_key x = k)); [by rewrite Hx|].
    apply (IH _ _ rest); (done || lia).
Qed.

Lemma rep_count_wrap s L x :
  rep Hash s L → x ∈ L → wrap (_count s - 1) = Z.of_nat (length L) - 1.
Proof.
  intros [Hc Hcount Hfits] Hx. unfold fits in Hfits.
  rewrite (rep_heap_size _ _ _ Hc) in Hfits. rewrite Hcount.
  apply wrap_small. destruct L; [by apply elem_of_nil in Hx|]. simpl in *. lia.
Qed.

Lemma erase_spec s L k :
  rep Hash s L → array s = None ∨ 0 < _size s →
  ((k ∉ map e_key L) ∧ erase Hash s k = Some (s, false)) ∨
  (∃ s' L' v,
      erase Hash s k = Some (s', true) ∧ rep Hash s' L' ∧
      map kv_of L ≡ₚ (k, v) :: map kv_of L' ∧
      _size s' = _size s ∧ _max_load_factor s' = _max_load_factor s ∧
      _count s' = _count s - 1 ∧ is_Some (array s')).
Proof.
  intros Hrep Hs. pose proof (rep_rep_core _ _ _ Hrep) as Hr.
  unfold erase. pose proof (rep_array _ _ _ Hr) as Ha.
  generalize_fuel Hr n Hn.
  destruct (array s) as [a|] eqn:Harr; cycle 1.
  { destruct Ha as [_ ->]. left. split; [set_solver | done]. }
  destruct Hs as [|Hs]; [done|].
  set (h := __constrain_hash (hash_key Hash k) (_size s)).
  assert (Hh : 0 ≤ h < _size s) by by eapply rep_constrain_range.
  rewrite (slot_ok a (_size s) L h) by done. simpl.
  destruct (bucket_head h L) as [g|] eqn:Hb; cycle 1.
  { left. split; [|done]. apply bucket_head_None in Hb. apply find_key_None.
    apply (find_key_other_hash (_size s)); [apply Hr | done]. }
  destruct (run_split h L g) as (L1 & x & R & L3 & -> & Hp & H1 & H2 & H3);
    [apply Hr | done |].
  pose proof (rep_chain _ _ _ Hr) as Hc.
  apply lseg_app in Hc as (m & Hc1 & Hc2).
  assert (m = Some g) as ->. { destruct Hc2 as (-> & _). by rewrite Hp. }
  pose proof (rep_hash _ _ _ Hr) as Hok.
  apply Forall_app in Hok as [Hok1 Hok2]. apply Forall_app in Hok2 as [Hok2 Hok3].
  pose proof (rep_ptr_ne_end _ _ Hr) as Hne. apply Forall_app in Hne as [_ Hne].
  assert (Hfk : find_key k (L1 ++ (x :: R) ++ L3) = find_key k (x :: R)).
  { rewrite !find_key_app.
    rewrite (find_key_other_hash (_size s) k L1) by done.
    destruct (find_key k (x :: R)); [done|].
    by rewrite (find_key_other_hash (_size s) k L3). }
  rewrite (erase_loop_run s a h k (x :: R) n (Some g) L3); try done; cycle 1.
  { destruct L3 as [|y L3]; [done|]. by apply Forall_cons in H3 as [? _]. }
  { rewrite !length_app in Hn. simpl in *. lia. }
  destruct (find_key k (x :: R)) as [y|] eqn:Hfy; cycle 1.
  { left. split; [|done]. by apply find_key_None. }
  right. apply find_key_Some in Hfy as [Hy Hyk].
  assert (Hyh : e_hash y = h). { rewrite Forall_forall in H2. by apply H2. }
  apply list_elem_of_split in Hy as (Ra & Rb & HR).
  assert (HL : L1 ++ (x :: R) ++ L3 = (L1 ++ Ra) ++ y :: (Rb ++ L3)).
  { rewrite HR. by rewrite <- !app_assoc. }
  rewrite HL in *. clear HL Hfk.
  set (A := L1 ++ Ra) in *. set (B := Rb ++ L3) in *.
  assert (Hyin : y ∈ A ++ y :: B) by set_solver.
  destruct (lseg_mid _ _ _ _ _ _ (rep_chain _ _ _ Hr)) as (ny & Hyl & HlA & HlB).
  rewrite Hyl. simpl. rewrite <- Hyh.
  assert (Hcw := rep_count_wrap s _ y Hrep Hyin).
  assert (Hfits := rep_fits _ _ _ Hrep). unfold fits in Hfits.
  destruct B as [|y2 B'] eqn:HB.
  - simpl in HlB. subst ny.
    destruct (erase_node_last s A y a) as (s' & -> & Hr' & Hs' & Hc' & Hm' & Ha' & Hh');
      [done | done |].
    exists s', A, (e_val y). split; [done|].
    rewrite Hc', Hcw, (rep_count _ _ _ Hrep), length_app. simpl.
    split_and!; try done.
    + constructor; [done | | unfold fits; lia].
      rewrite Hc', Hcw, length_app. simpl. lia.
    + rewrite map_app. simpl. rewrite <- Hyk.
      by rewrite <- Permutation_cons_append.
  - destruct HlB as (-> & _).
    destruct (erase_node_mid s A y y2 B' a) as (s' & -> & Hr' & Hs' & Hc' & Hm' & Ha' & Hh');
      [done | done |].
    eexists s', _, (e_val y). split; [done|].
    rewrite Hc', Hcw, (rep_count _ _ _ Hrep), length_app. simpl.
    split_and!; try done.
    + constructor; [done | | unfold fits; lia].
      rewrite Hc', Hcw, !length_app. simpl. lia.
    + rewrite !map_app. simpl. rewrite <- Hyk.
      by rewrite <- Permutation_middle.
Qed.

Lemma erase_defined s L k r :
  rep_core Hash s L → erase Hash s k = Some r → array s = None ∨ 0 < _size s.
Proof.
  intros Hr He. pose proof (rep_array _ _ _ Hr) as Ha. unfold erase in He.
  destruct (array s) as [a|]; [right | by left].
  destruct Ha as [Hlen _]. destruct a; simpl in *; [|lia].
  unfold slot in He. by destruct (_ <? 0).
Qed.

(** ** [insert] *)

Lemma keys_of_kvs L : map e_key L = map fst (map kv_of L).
Proof. induction L as [|x L IH]; simpl; [done | by rewrite IH]. Qed.

Lemma keys_perm L L' : map kv_of L' ≡ₚ map kv_of L → map e_key L' ≡ₚ map e_key L.
Proof. intros HP. rewrite !keys_of_kvs. by apply fmap_Permutation. Qed.

Lemma kvs_length L L' : map kv_of L' ≡ₚ map kv_of L → length L' = length L.
Proof. intros HP%Permutation_length. by rewrite !length_map in HP. Qed.

Lemma size_of_float_range (f : float) n : size_of_float f = Some n → 0 ≤ n < size_max.
Proof.
  unfold size_of_float. destruct f as [| | |sg m e]; try done.
  - intros [= <-]. done.
  - set (t := if 0 <=? e then _ else _).
    assert (0 ≤ t).
    { unfold t. destruct (0 <=? e) eqn:He.
      - apply Z.leb_le in He. apply Z.mul_nonneg_nonneg; [lia|]. by apply Z.pow_nonneg.
      - apply Z.div_pos; [lia|]. apply Z.pow_pos_nonneg; [lia|]. apply Z.leb_gt in He. lia. }
    destruct sg.
    + destruct (t =? 0); [|done]. intros [= <-]. done.
    + destruct (Z.ltb_spec t size_max); [|done]. intros [= <-]. done.
Qed.

Lemma grow_size_range s n : grow_size s = Some n → 0 ≤ n < size_max.
Proof.
  unfold grow_size. destruct (size_of_float _) as [c|] eqn:Hc; [|done].
  simpl. intros [= <-]. apply size_of_float_range in Hc.
  pose proof (wrap_range (2 * _count s + (if __is_hash_power2 (_count s) then 0 else 1))).
  lia.
Qed.

Lemma rehash_defined s L n s' :
  rep_core Hash s L → __rehash Hash s n = Some s' → L = [] ∨ 0 < n.
Proof.
  intros Hr Hre. destruct L as [|x L]; [by left|]. right.
  destruct (Z.ltb_spec 0 n) as [|Hn]; [done|]. exfalso.
  pose proof (rep_chain _ _ _ Hr) as (Hst & nx & Hx & _).
  pose proof (rep_ptr_ne_end _ _ Hr) as [Hxe _]%Forall_cons.
  unfold __rehash, fuel_of in Hre. simpl in Hre. rewrite Hst in Hre.
  rewrite decide_False in Hre by congruence. simpl in Hre.
  unfold rehash_step in Hre. simpl in Hre. rewrite Hx in Hre. simpl in Hre.
  replace (Z.to_nat n) with 0%nat in Hre by lia. simpl in Hre.
  unfold slot in Hre. by destruct (_ <? 0).
Qed.

Lemma insert_grow_spec s L s1 :
  rep_core Hash s L →
  (if need_grow s then n ← grow_size s; __rehash Hash s n else Some s) = Some s1 →
  ∃ L1, rep_core Hash s1 L1 ∧ map kv_of L1 ≡ₚ map kv_of L ∧
    _count s1 = _count s ∧ _end s1 = _end s ∧
    _max_load_factor s1 = _max_load_factor s ∧ size (heap s1) = size (heap s) ∧
    (need_grow s = false → s1 = s).
Proof.
  intros Hr Hg. destruct (need_grow s).
  - destruct (grow_size s) as [n|] eqn:Hn; [|done]. simpl in Hg.
    destruct (rehash_spec s L n) as (s' & L' & Hre & Hr' & HP & Hs & Hc & He & Hm & Hh & _);
      [done | by eapply grow_size_range | |].
    { intros HL. by destruct (rehash_defined s L n s1 Hr Hg). }
    rewrite Hre in Hg. injection Hg as <-. exists L'. split_and!; done.
  - injection Hg as <-. exists L. split_and!; done.
Qed.

Lemma bucket_insert_defined s L kv h r :
  rep_core Hash s L → __bucket_insert s kv h = Some r → 0 <= h → 0 ≤ h < _size s.
Proof.
  intros Hr Hb Hh. pose proof (rep_array _ _ _ Hr) as Ha. unfold __bucket_insert in Hb.
  destruct (array s) as [a|]; [|done]. simpl in Hb. destruct Ha as [Hlen _].
  unfold slot in Hb. destruct (Z.ltb_spec h 0); [done|].
  destruct (a !! Z.to_nat h) eqn:Hl; [|done].
  apply lookup_lt_Some in Hl. lia.
Qed.

Lemma constrain_hash_nonneg h n : 0 ≤ h → 0 ≤ n → 0 ≤ __constrain_hash h n.
Proof.
  intros Hh Hn. unfold __constrain_hash.
  destruct (Z.eqb_spec (Z.land n (wrap (n - 1))) 0) as [|Hz].
  - apply Z.land_nonneg. by left.
  - destruct (Z.ltb_spec h n); [done|]. apply Z.mod_pos_bound.
    assert (n ≠ 0); [|lia]. intros ->. by rewrite Z.land_0_l in Hz.
Qed.

Lemma insert_spec s L k v s' it (b : bool) :
  rep Hash s L → insert Hash s (k, v) = Some (s', (it, b)) →
  ∃ L', rep_core Hash s' L' ∧ 0 < _size s' ∧
    _max_load_factor s' = _max_load_factor s ∧
    if b then
      (k ∉ map e_key L) ∧ map kv_of L' ≡ₚ (k, v) :: map kv_of L ∧
      _count s' = _count s + 1 ∧ size (heap s') = S (size (heap s)) ∧
      ∃ h, Elem it k v h ∈ L'
    else
      k ∈ map e_key L ∧ map kv_of L' ≡ₚ map kv_of L ∧
      _count s' = _count s ∧ size (heap s') = size (heap s) ∧ it = _end s' ∧
      (need_grow s = false → s' = s).
Proof.
  intros [Hr Hcount Hfits] Hins. unfold insert in Hins.
  destruct (if need_grow s then _ else _) as [s1|] eqn:Hg; [|done]. simpl in Hins.
  destruct (insert_grow_spec s L s1 Hr Hg) as (L1 & Hr1 & HP1 & Hc1 & He1 & Hm1 & Hh1 & Hsame).
  set (h := __constrain_hash (hash_key Hash k) (_size s1)) in *.
  destruct (__bucket_insert s1 (k, v) h) as [[s2 res]|] eqn:Hb; [|done]. simpl in Hins.
  assert (Hh : 0 ≤ h < _size s1).
  { eapply bucket_insert_defined; [done | done |].
    apply constrain_hash_nonneg; [apply hash_key_range | apply Hr1]. }
  pose proof (keys_perm _ _ HP1) as HK1.
  destruct (bucket_insert_spec s1 L1 k v h Hr1 eq_refl Hh)
    as [[Hin Hb']|(Hnin & s2' & L2 & Hb' & Hr2 & HP2 & Hs2 & Hc2 & He2 & Hm2 & Hh2)];
    rewrite Hb' in Hb; injection Hb as <- <-; injection Hins as <- <- <-.
  - exists L1. split; [done|]. split; [lia|]. split; [done|].
    split; [by rewrite <- HK1|]. split_and!; done.
  - exists L2. simpl. split; [by destruct Hr2|]. split; [lia|].
    split; [congruence|]. split; [by rewrite <- HK1|]. split_and!.
    + rewrite <- HP1. apply (fmap_Permutation kv_of) in HP2. done.
    + rewrite Hc2, Hc1. apply wrap_small. unfold fits in Hfits.
      rewrite (rep_heap_size _ _ _ Hr) in Hfits. lia.
    + congruence.
    + exists h. rewrite HP2. set_solver.
Qed.

Lemma insert_grow_spec_ptr s L s1 :
  rep_core Hash s L →
  (if need_grow s then n ← grow_size s; __rehash Hash s n else Some s) = Some s1 →
  ∃ L1, rep_core Hash s1 L1 ∧ map pkv_of L1 ≡ₚ map pkv_of L ∧
    _count s1 = _count s ∧ _end s1 = _end s ∧
    _max_load_factor s1 = _max_load_factor s ∧ size (heap s1) = size (heap s) ∧
    (need_grow s = false → s1 = s) ∧
    (need_grow s = true → grow_size s = Some (_size s1)).
Proof.
  intros Hr Hg. destruct (need_grow s).
  - destruct (grow_size s) as [n|] eqn:Hn; [|done]. simpl in Hg.
    destruct (rehash_spec_ptr s L n)
      as (s' & L' & Hre & Hr' & HP & Hs & Hc & He & Hm & Hh & _);
      [done | by eapply grow_size_range | |].
    { intros HL. by destruct (rehash_defined s L n s1 Hr Hg). }
    rewrite Hre in Hg. injection Hg as <-. exists L'. split_and!; try done.
    intros _. by rewrite Hs.
  - injection Hg as <-. exists L. split_and!; done.
Qed.

(** What [insert] does to the list of elements, node by node. *)
Lemma insert_core s L k v s' it (fl : bool) :
  rep_core Hash s L → insert Hash s (k, v) = Some (s', (it, fl)) →
  ∃ L', rep_core Hash s' L' ∧ 0 < _size s' ∧
    _max_load_factor s' = _max_load_factor s ∧ _end s' = _end s ∧
    (need_grow s = false → _size s' = _size s) ∧
    (need_grow s = true → grow_size s = Some (_size s')) ∧
    (size (heap s) ≤ size (heap s'))%nat ∧
    if fl then
      (k ∉ map e_key L) ∧ map pkv_of L' ≡ₚ (it, (k, v)) :: map pkv_of L ∧
      _count s' = wrap (_count s + 1)
    else
      k ∈ map e_key L ∧ map pkv_of L' ≡ₚ map pkv_of L ∧
      _count s' = _count s ∧ it = _end s'.
Proof.
  intros Hr Hins. unfold insert in Hins.
  destruct (if need_grow s then _ else _) as [s1|] eqn:Hg; [|done]. simpl in Hins.
  destruct (insert_grow_spec_ptr s L s1 Hr Hg)
    as (L1 & Hr1 & HP1 & Hc1 & He1 & Hm1 & Hh1 & Hsame & Hgrow).
  set (h := __constrain_hash (hash_key Hash k) (_size s1)) in *.
  destruct (__bucket_insert s1 (k, v) h) as [[s2 res]|] eqn:Hb; [|done]. simpl in Hins.
  assert (Hh : 0 ≤ h < _size s1).
  { eapply bucket_insert_defined; [done | done |].
    apply constrain_hash_nonneg; [apply hash_key_range | apply Hr1]. }
  pose proof (keys_perm _ _ (pkv_perm_kv _ _ HP1)) as HK1.
  destruct (bucket_insert_spec s1 L1 k v h Hr1 eq_refl Hh)
    as [[Hin Hb']|(Hnin & s2' & L2 & Hb' & Hr2 & HP2 & Hs2 & Hc2 & He2 & Hm2 & Hh2)];
    rewrite Hb' in Hb; injection Hb as <- <-; injection Hins as <- <- <-.
  - exists L1. split; [done|]. split; [lia|]. split; [done|]. split; [done|].
    split; [by intros ->%Hsame|]. split; [done|]. split; [lia|].
    split; [by rewrite <- HK1|]. done.
  - exists L2. simpl. split; [by destruct Hr2|]. split; [lia|].
    split; [congruence|]. split; [congruence|].
    split; [intros ->%Hsame; congruence|].
    split; [intros Hng; rewrite Hs2; by apply Hgrow|]. split; [lia|].
    split; [by rewrite <- HK1|]. split.
    + rewrite <- HP1. apply (fmap_Permutation pkv_of) in HP2. done.
    + congruence.
Qed.

(** ** [clear], the constructors, copy and move *)

Lemma clear_loop_spec e L : ∀ n hp o,
  lseg hp o L (Some e) → NoDup (map e_ptr L ++ [e]) → (length L < n)%nat →
  ∃ hp', clear_loop n e hp o = Some hp' ∧ hp' !! e = hp !! e ∧
         (size hp' + length L = size hp)%nat.
Proof.
  induction L as [|x L IH]; intros n hp o Hl Hnd Hn; destruct n; simpl in *; try lia.
  - subst o. rewrite decide_True by done. exists hp. split_and!; [done | done | lia].
  - destruct Hl as (-> & nx & Hx & Hl). apply NoDup_cons in Hnd as [Hxn Hnd].
    assert (e_ptr x ≠ e) by set_solver.
    rewrite decide_False by congruence. simpl. rewrite Hx. simpl.
    destruct (IH n (delete (e_ptr x) hp) nx) as (hp' & -> & He & Hsz); [| done | lia |].
    { apply lseg_delete_frame; [set_solver | done]. }
    exists hp'. split; [done|]. split.
    + rewrite He. by rewrite lookup_delete_ne.
    + assert (Hd : size (delete (e_ptr x) hp) = pred (size hp)).
      { apply map_size_delete_Some. eauto. }
      assert (size hp ≠ 0)%nat.
      { intros Hz%map_size_empty_inv. rewrite Hz in Hx. by rewrite lookup_empty in Hx. }
      lia.
Qed.

Lemma empty_rep hp e mlf :
  is_Some (hp !! e) → size hp = 1%nat → rep Hash (State hp None 0 0 mlf (Some e) e) [].
Proof.
  intros He Hsz. constructor; [constructor|..]; simpl; try done.
  - apply NoDup_singleton.
  - constructor.
  - unfold fits. simpl. rewrite Hsz. done.
Qed.

Lemma clear_spec s L :
  rep_core Hash s L →
  ∃ s', clear s = Some s' ∧ rep Hash s' [] ∧ _size s' = 0 ∧ _count s' = 0 ∧
        array s' = None ∧ _max_load_factor s' = _max_load_factor s.
Proof.
  intros Hr. unfold clear.
  destruct (clear_loop_spec (_end s) L (fuel_of s) (heap s) (start_next s))
    as (hp' & -> & He & Hsz); [apply Hr | apply Hr | |].
  { unfold fuel_of. rewrite (rep_heap_size _ _ _ Hr). lia. }
  simpl. eexists. split; [done|]. split_and!; try done.
  apply empty_rep.
  - rewrite He. apply Hr.
  - rewrite (rep_heap_size _ _ _ Hr) in Hsz. lia.
Qed.

Lemma default_map_rep : rep Hash (default_map : @state Key T) [].
Proof.
  apply empty_rep.
  - rewrite lookup_singleton_eq. eauto.
  - apply map_size_singleton.
Qed.

Lemma moved_from_rep s : rep Hash (moved_from s) [].
Proof.
  apply empty_rep.
  - rewrite lookup_singleton_eq. eauto.
  - apply map_size_singleton.
Qed.

Lemma copy_loop_spec src Lrem : ∀ n dst o Ldst,
  lseg (heap src) o Lrem (Some (_end src)) →
  Forall (λ x, e_ptr x ≠ _end src) Lrem →
  Forall (hash_ok Hash (_size src)) Lrem →
  rep_core Hash dst Ldst → _size dst = _size src →
  NoDup (map e_key Lrem ++ map e_key Ldst) →
  (length Lrem < n)%nat →
  ∃ dst' L',
    copy_loop n src dst o = Some dst' ∧ rep_core Hash dst' L' ∧
    map kv_of L' ≡ₚ map kv_of Lrem ++ map kv_of Ldst ∧
    _size dst' = _size dst ∧ _count dst' = _count dst ∧
    _max_load_factor dst' = _max_load_factor dst.
Proof.
  induction Lrem as [|x Lrem IH]; intros n dst o Ldst Hl Hne Hok Hr Hsz Hnd Hn;
    destruct n; simpl in *; try lia.
  - subst o. rewrite decide_True by done. exists dst, Ldst. split_and!; done.
  - destruct Hl as (-> & nx & Hx & Hl). apply Forall_cons in Hne as [Hxe Hne].
    apply Forall_cons in Hok as [[Hxh Hxr] Hok]. apply NoDup_cons in Hnd as [Hxk Hnd].
    rewrite decide_False by congruence. simpl. rewrite Hx. simpl.
    destruct (bucket_insert_spec dst Ldst (e_key x) (e_val x) (e_hash x))
      as [[Hin _]|(_ & dst1 & L1 & -> & Hr1 & HP1 & Hs1 & Hc1 & He1 & Hm1 & Hh1)];
      [done | by rewrite Hsz | by rewrite Hsz | set_solver |].
    simpl.
    destruct (IH n dst1 nx L1) as (dst2 & L2 & -> & Hr2 & HP2 & Hs2 & Hc2 & Hm2);
      try done; try lia; try congruence.
    { rewrite HP1. simpl. eapply NoDup_Permutation_proper; [|apply NoDup_cons; eauto].
      by rewrite <- Permutation_middle. }
    exists dst2, L2. split_and!; try congruence.
    rewrite HP2, HP1. simpl. by rewrite <- Permutation_middle.
Qed.

Lemma copy_construct_spec s L :
  rep Hash s L →
  ∃ s' L', copy_construct s = Some s' ∧ rep Hash s' L' ∧
    map kv_of L' ≡ₚ map kv_of L ∧ _size s' = _size s ∧
    _max_load_factor s' = _max_load_factor s.
Proof.
  intros [Hr Hcount Hfits]. unfold copy_construct.
  set (dst := State _ _ _ _ _ _ _).
  destruct (copy_loop_spec s L (fuel_of s) dst (start_next s) [])
    as (s' & L' & -> & Hr' & HP & Hs & Hc & Hm).
  - apply Hr.
  - by eapply rep_ptr_ne_end.
  - apply Hr.
  - pose proof (rep_size _ _ _ Hr) as Hsz.
    constructor; simpl; try done.
    + apply NoDup_singleton.
    + destruct (Z.ltb_spec 0 (_size s)); simpl.
      * split; [rewrite length_replicate; lia|]. intros i Hi.
        rewrite length_replicate in Hi. by rewrite lookup_replicate_2.
      * split; [lia | done].
    + constructor.
  - done.
  - rewrite app_nil_r. apply Hr.
  - unfold fuel_of. rewrite (rep_heap_size _ _ _ Hr). lia.
  - rewrite app_nil_r in HP. exists s', L'. split; [done|]. split_and!; try done.
    pose proof (kvs_length _ _ HP) as Hlen.
    constructor; [done | |].
    + rewrite Hc. simpl. by rewrite Hcount, Hlen.
    + unfold fits in *. rewrite (rep_heap_size _ _ _ Hr'), Hlen.
      by rewrite <- (rep_heap_size _ _ _ Hr).
Qed.

(** ** Association lists without duplicate keys *)

Lemma assoc_None k (l : list (Key * T)) : assoc k l = None ↔ k ∉ map fst l.
Proof.
  induction l as [|[k' v'] l IH]; simpl; [split; [set_solver | done]|].
  destruct (decide (k' = k)); [set_solver|]. rewrite IH. set_solver.
Qed.

Lemma assoc_Some k v (l : list (Key * T)) :
  NoDup (map fst l) → assoc k l = Some v ↔ (k, v) ∈ l.
Proof.
  induction l as [|[k' v'] l IH]; simpl; intros Hnd; [split; [done | set_solver]|].
  apply NoDup_cons in Hnd as [Hk' Hnd]. destruct (decide (k' = k)) as [->|Hne].
  - split; [intros [= ->]; set_solver|].
    intros [[= ->]|Hin]%elem_of_cons; [done|]. exfalso. apply Hk'.
    by apply (list_elem_of_fmap_2 fst _ (k, v)).
  - rewrite IH by done. set_solver.
Qed.

Lemma assoc_perm k (l l' : list (Key * T)) :
  NoDup (map fst l) → l ≡ₚ l' → assoc k l = assoc k l'.
Proof.
  intros Hnd HP. assert (Hnd' : NoDup (map fst l')) by by rewrite <- HP.
  destruct (assoc k l) as [v|] eqn:Ha.
  - apply assoc_Some in Ha; [|done]. symmetry. apply assoc_Some; [done|].
    by rewrite <- HP.
  - apply assoc_None in Ha. symmetry. apply assoc_None. by rewrite <- HP.
Qed.

Lemma rep_kvs_nodup s L : rep_core Hash s L → NoDup (map fst (map kv_of L)).
Proof. intros Hr. rewrite <- keys_of_kvs. apply Hr. Qed.

(** ** Every reachable state satisfies the invariant *)

Lemma insert_rep s L k v s' it (b : bool) :
  rep Hash s L → insert Hash s (k, v) = Some (s', (it, b)) → fits s' →
  ∃ L', rep Hash s' L'.
Proof.
  intros Hrep Hins Hfits.
  destruct (insert_spec s L k v s' it b Hrep Hins) as (L' & Hr' & _ & _ & Hb).
  exists L'. constructor; [done | | done].
  destruct b.
  - destruct Hb as (_ & HP & -> & _). rewrite (rep_count _ _ _ Hrep).
    apply Permutation_length in HP. simpl in HP. rewrite !length_map in HP. lia.
  - destruct Hb as (_ & HP & -> & _). rewrite (rep_count _ _ _ Hrep).
    by rewrite (kvs_length _ _ HP).
Qed.

Lemma set_max_load_factor_rep s L (f : float) :
  rep Hash s L → rep Hash (set_max_load_factor s f) L.
Proof. intros [[] ? ?]. constructor; [constructor|..]; done. Qed.

Lemma rehash_rep s L n s' :
  rep Hash s L → 0 ≤ n < size_max → __rehash Hash s n = Some s' →
  ∃ L', rep Hash s' L' ∧ map kv_of L' ≡ₚ map kv_of L ∧ _size s' = n ∧
        _count s' = _count s ∧ _max_load_factor s' = _max_load_factor s ∧
        is_Some (array s').
Proof.
  intros [Hr Hcount Hfits] Hn Hre.
  destruct (rehash_spec s L n) as (s1 & L' & Hre' & Hr' & HP & Hs & Hc & He & Hm & Hh & Ha);
    [done | done | |].
  { intros HL. by destruct (rehash_defined s L n s' Hr Hre). }
  rewrite Hre' in Hre. injection Hre as <-.
  exists L'. split_and!; try done. constructor; [done | |].
  - by rewrite Hc, Hcount, (kvs_length _ _ HP).
  - unfold fits in *. by rewrite Hh.
Qed.

Theorem reachable_wf s : reachable Hash s → wf Hash s.
Proof.
  induction 1 as [|s [k v] s' [it b] _ [L IH] Hins Hfits
                  |s k s' p _ [L IH] Hidx Hfits
                  |s k s' b _ [L IH] Her
                  |s n s' _ [L IH] Hn Hre
                  |s s' _ [L IH] Hcl
                  |s f _ [L IH]
                  |s s' _ [L IH] Hcp
                  |s _ _].
  - exists []. apply default_map_rep.
  - by eapply insert_rep.
  - unfold index in Hidx. destruct (find Hash s k) as [it|]; [|done]. simpl in Hidx.
    destruct (decide (it = _end s)).
    + unfold emplace in Hidx.
      destruct (insert Hash s (k, inhabitant)) as [[s1 [a b]]|] eqn:Hins; [|done].
      simpl in Hidx. injection Hidx as <- <-. by eapply insert_rep.
    + injection Hidx as <- <-. by exists L.
  - destruct (erase_spec s L k IH) as [[_ He]|(s1 & L' & v & He & Hr' & _)].
    + by eapply erase_defined; [apply IH|].
    + rewrite He in Her. injection Her as <- <-. by exists L.
    + rewrite He in Her. injection Her as <- <-. by exists L'.
  - unfold rehash in Hre. destruct (rehash_rejects s n); [done|].
    destruct (__rehash Hash s n) as [s1|] eqn:Hre'; [|done].
    simpl in Hre. injection Hre as <-.
    destruct (rehash_rep s L n s1 IH Hn Hre') as (L' & ? & _). by exists L'.
  - destruct (clear_spec s L (rep_rep_core _ _ _ IH)) as (s1 & Hcl' & Hr' & _).
    rewrite Hcl' in Hcl. injection Hcl as <-. by exists [].
  - exists L. by apply set_max_load_factor_rep.
  - destruct (copy_construct_spec s L IH) as (s1 & L' & Hcp' & Hr' & _).
    rewrite Hcp' in Hcp. injection Hcp as <-. by exists L'.
  - exists []. apply moved_from_rep.
Qed.

Lemma find_defined s L k p :
  rep_core Hash s L → find Hash s k = Some p → array s = None ∨ 0 < _size s.
Proof.
  intros Hr Hf. pose proof (rep_array _ _ _ Hr) as Ha. unfold find, __find in Hf.
  destruct (array s) as [a|]; [right | by left].
  destruct Ha as [Hlen _]. destruct a; simpl in *; [|lia].
  unfold slot in Hf. by destruct (_ <? 0).
Qed.

(** * The specified properties *)

(** C1.  Round trip: right after a successful insert of [(k, v)], [find k]
    returns the handle the insert returned, which is not the end marker and
    holds the pair [(k, v)]; right after [erase k] returned true, [find k]
    returns the end marker. *)
Theorem insert_find_erase_round_trip s k :
  reachable Hash s →
  (∀ v s' it, insert Hash s (k, v) = Some (s', (it, true)) →
     find Hash s' k = Some it ∧ it ≠ _end s' ∧
     ∃ b, heap s' !! it = Some b ∧ item b = (k, v)) ∧
  (∀ s', erase Hash s k = Some (s', true) → find Hash s' k = Some (_end s')).
Proof.
  intros Hreach. destruct (reachable_wf s Hreach) as [L Hrep]. split.
  - intros v s' it Hins.
    destruct (insert_spec s L k v s' it true Hrep Hins)
      as (L' & Hr' & Hpos & _ & _ & _ & _ & _ & h & Hel).
    rewrite (find_spec s' L' k) by (done || by right).
    rewrite (find_key_NoDup k L' (Elem it k v h)) by (apply Hr' || done).
    simpl. split; [done|]. split.
    + pose proof (rep_ptr_ne_end _ _ Hr') as Hne. rewrite Forall_forall in Hne.
      apply (Hne _ Hel).
    + destruct (lseg_lookup _ _ _ _ _ (rep_chain _ _ _ Hr') Hel) as (nx & Hl).
      eexists. split; [exact Hl | done].
  - intros s' Her.
    pose proof (erase_defined s L k _ (rep_rep_core _ _ _ Hrep) Her) as [Hnone|Hpos].
    { unfold erase in Her. by rewrite Hnone in Her. }
    destruct (erase_spec s L k Hrep (or_intror Hpos))
      as [[_ He]|(s1 & L' & v & He & Hrep' & HP & Hs & _)];
      rewrite He in Her; [done|]. injection Her as <-.
    pose proof (rep_rep_core _ _ _ Hrep') as Hr'.
    rewrite (find_spec s1 L' k) by (done || right; lia).
    assert (Hk : k ∉ map e_key L').
    { pose proof (rep_kvs_nodup _ _ (rep_rep_core _ _ _ Hrep)) as Hnd.
      rewrite HP in Hnd. simpl in Hnd. apply NoDup_cons in Hnd as [Hk _].
      by rewrite keys_of_kvs. }
    apply find_key_None in Hk. by rewrite Hk.
Qed.


(** C3.  Erase frame property: whatever [erase k] returns, the value found
    for any other key [k'] is defined and the same before and after the
    call. *)
Theorem erase_frame s k k' s' (fl : bool) :
  reachable Hash s → k ≠ k' → erase Hash s k = Some (s', fl) →
  ∃ r, lookup_value Hash s k' = Some r ∧ lookup_value Hash s' k' = Some r.
Proof.
  intros Hreach Hne Her. destruct (reachable_wf s Hreach) as [L Hrep].
  pose proof (rep_rep_core _ _ _ Hrep) as Hr.
  pose proof (erase_defined s L k _ Hr Her) as Hcond.
  exists (assoc k' (map kv_of L)). split; [by apply lookup_value_spec|].
  destruct (erase_spec s L k Hrep Hcond)
    as [[_ He]|(s1 & L' & v & He & Hrep' & HP & Hs & _ & _ & Ha)];
    rewrite He in Her; injection Her as <- <-.
  - by apply lookup_value_spec.
  - assert (Hpos : 0 < _size s).
    { destruct Hcond as [Hnone|]; [|done]. unfold erase in He. by rewrite Hnone in He. }
    rewrite (lookup_value_spec s1 L' k') by (apply Hrep' || right; lia).
    f_equal. rewrite (assoc_perm k' _ _ (rep_kvs_nodup _ _ Hr) HP). simpl.
    by rewrite decide_False.
Qed.

(** The call is defined whenever the bucket index is null or not empty. *)
Lemma erase_total s k :
  reachable Hash s → array s = None ∨ 0 < _size s →
  ∃ s' (fl : bool), erase Hash s k = Some (s', fl).
Proof.
  intros Hreach Hcond. destruct (reachable_wf s Hreach) as [L Hrep].
  destruct (erase_spec s L k Hrep Hcond) as [[_ He]|(s1 & L' & v & He & _)]; eauto.
Qed.

(** [erase] never changes the bucket count: the load factor may fall
    without the table shrinking. *)
Lemma erase_keeps_bucket_count s k s' (fl : bool) :
  reachable Hash s → erase Hash s k = Some (s', fl) → _size s' = _size s.
Proof.
  intros Hreach Her. destruct (reachable_wf s Hreach) as [L Hrep].
  pose proof (erase_defined s L k _ (rep_rep_core _ _ _ Hrep) Her) as Hcond.
  destruct (erase_spec s L k Hrep Hcond) as [[_ He]|(s1 & L' & v & He & _ & _ & Hs & _)];
    rewrite He in Her; by injection Her as <- <-.
Qed.

(** C6.  Key uniqueness: in every reachable state the pairs met by
    iterating over the container have pairwise different keys. *)
Theorem keys_unique s :
  reachable Hash s → ∃ l, elements s = Some l ∧ NoDup (map fst l).
Proof.
  intros Hreach. destruct (reachable_wf s Hreach) as [L Hrep].
  pose proof (rep_rep_core _ _ _ Hrep) as Hr.
  exists (map kv_of L). split; [by apply elements_spec | by eapply rep_kvs_nodup].
Qed.

(** C8.  Count accounting: a successful insert adds exactly 1 to the
    element count, a successful erase takes exactly 1 off, and the count is
    0 exactly when [empty()], which compares [__start.next] with [__end],
    says true. *)
Theorem count_accounting s :
  reachable Hash s →
  (∀ kv s' it, insert Hash s kv = Some (s', (it, true)) → _count s' = _count s + 1) ∧
  (∀ k s', erase Hash s k = Some (s', true) → _count s' = _count s - 1) ∧
  (_count s = 0 ↔ empty s = true).
Proof.
  intros Hreach. destruct (reachable_wf s Hreach) as [L Hrep].
  pose proof (rep_rep_core _ _ _ Hrep) as Hr. split_and!.
  - intros [k v] s' it Hins.
    by destruct (insert_spec s L k v s' it true Hrep Hins) as (L' & _ & _ & _ & _ & _ & ? & _).
  - intros k s' Her.
    pose proof (erase_defined s L k _ Hr Her) as Hcond.
    destruct (erase_spec s L k Hrep Hcond)
      as [[_ He]|(s1 & L' & v & He & _ & _ & _ & _ & Hc & _)];
      rewrite He in Her; [done|]. by injection Her as <-.
  - rewrite (rep_count _ _ _ Hrep). unfold empty. rewrite bool_decide_eq_true.
    pose proof (rep_chain _ _ _ Hr) as Hc.
    pose proof (rep_ptr_ne_end _ _ Hr) as Hne.
    destruct L as [|x L]; simpl in *; [done|].
    destruct Hc as (-> & _). apply Forall_cons in Hne as [Hxe _].
    split; [lia | congruence].
Qed.

(** C10, amended.  A bucket count of 0 goes with an empty container, not
    with one that never received an insertion: in every reachable state
    with [size() == 0] the element count is 0 and [empty()] holds; every
    insert that returns leaves a bucket count above 0; [clear] and a move
    away from the container bring the bucket count back to 0. *)
Theorem bucket_count_zero_only_when_empty s :
  reachable Hash s →
  (_size s = 0 → _count s = 0 ∧ empty s = true) ∧
  (∀ kv s' r, insert Hash s kv = Some (s', r) → 0 < _size s') ∧
  (∀ s', clear s = Some s' → _size s' = 0) ∧
  _size (moved_from s) = 0.
Proof.
  intros Hreach. destruct (reachable_wf s Hreach) as [L Hrep].
  pose proof (rep_rep_core _ _ _ Hrep) as Hr. split_and!.
  - intros Hz. assert (L = []) as ->.
    { destruct L as [|x L]; [done|].
      pose proof (rep_size_pos s _ x Hr). set_solver by lia. }
    split; [by rewrite (rep_count _ _ _ Hrep)|].
    unfold empty. rewrite bool_decide_eq_true. apply Hr.
  - intros [k v] s' [it fl] Hins.
    by destruct (insert_spec s L k v s' it fl Hrep Hins) as (L' & _ & ? & _).
  - intros s' Hcl. destruct (clear_spec s L Hr) as (s1 & Hcl' & _ & ? & _).
    rewrite Hcl' in Hcl. by injection Hcl as <-.
  - done.
Qed.




(** * Further properties of the code *)

(** ** Hash constraining *)

(** X1.  For at least one bucket [__constrain_hash] is the remainder of the
    division by the bucket count, so it always is an index into the bucket
    array. *)
Theorem constrain_hash_bucket_index (h n : Z) :
  0 ≤ h → 0 < n < size_max →
  __constrain_hash h n = h mod n ∧ 0 ≤ __constrain_hash h n < n.
Proof.
  intros Hh Hn. split; [by apply constrain_hash_mod | by apply constrain_hash_range].
Qed.

(** X2.  [__is_hash_power2] holds exactly of the powers of two above 2. *)
Theorem is_hash_power2_spec (n : Z) :
  0 ≤ n < size_max → __is_hash_power2 n = (2 <? n) && power_of_two n.
Proof.
  intros Hn. unfold __is_hash_power2, power_of_two.
  destruct (Z.ltb_spec 2 n) as [H2|H2]; [simpl | done].
  rewrite (wrap_small (n - 1)) by lia.
  destruct (Z.eqb_spec n (2 ^ Z.log2 n)) as [Hp|Hp].
  - assert (∃ j : Z, 0 ≤ j ∧ n = 2 ^ j) as (j & Hj & ->) by eauto using Z.log2_nonneg.
    rewrite land_pred_pow2 by done. done.
  - apply Z.eqb_neq. apply land_pred_not_pow2; [lia | done].
Qed.

(** ** Iteration and lookup *)

Lemma assoc_app k (l1 l2 : list (Key * T)) :
  assoc k (l1 ++ l2) = match assoc k l1 with Some v => Some v | None => assoc k l2 end.
Proof.
  induction l1 as [|[k' v'] l1 IH]; simpl; [done|]. by destruct (decide (k' = k)).
Qed.

(** X3.  Iterating from [begin()] to [end()] meets exactly [count()] elements,
    and the node store holds one node for each of them and one for the past-last
    sentinel: no node leaks. *)
Theorem iteration_meets_count_elements s :
  reachable Hash s →
  ∃ l, elements s = Some l ∧ Z.of_nat (length l) = _count s ∧
       Z.of_nat (size (heap s)) = _count s + 1 ∧ is_Some (heap s !! _end s).
Proof.
  intros Hreach. destruct (reachable_wf s Hreach) as [L Hrep].
  pose proof (rep_rep_core _ _ _ Hrep) as Hr.
  exists (map kv_of L). split; [by apply elements_spec|].
  rewrite length_map, (rep_count _ _ _ Hrep), (rep_heap_size _ _ _ Hr).
  split_and!; [done | lia | apply Hr].
Qed.

(** X4.  [find] and iteration agree: the handle [find k] returns is the end
    marker exactly when iteration meets no pair with key [k], and otherwise it
    is the node of a pair [(k, v)] that iteration meets. *)
Theorem find_agrees_with_iteration s k p :
  reachable Hash s → find Hash s k = Some p →
  ∃ l, elements s = Some l ∧
       (p = _end s ↔ k ∉ map fst l) ∧
       (p ≠ _end s → ∃ b v, heap s !! p = Some b ∧ item b = (k, v) ∧ (k, v) ∈ l).
Proof.
  intros Hreach Hfind. destruct (reachable_wf s Hreach) as [L Hrep].
  pose proof (rep_rep_core _ _ _ Hrep) as Hr.
  pose proof (find_defined s L k p Hr Hfind) as Hcond.
  rewrite (find_spec s L k Hr Hcond) in Hfind. injection Hfind as <-.
  exists (map kv_of L). split; [by apply elements_spec|].
  rewrite <- keys_of_kvs.
  destruct (find_key k L) as [x|] eqn:Hfk.
  - apply find_key_Some in Hfk as [Hx Hxk].
    pose proof (rep_ptr_ne_end _ _ Hr) as Hne. rewrite Forall_forall in Hne.
    assert (Hkin : k ∈ map e_key L). { rewrite <- Hxk. by apply list_elem_of_fmap_2. }
    split; [split; [intros He; by destruct (Hne x Hx) | done]|].
    intros _. destruct (lseg_lookup _ _ _ _ x (rep_chain _ _ _ Hr) Hx) as (nx & Hl).
    exists (node_of x nx), (e_val x). split; [done|]. split; [by rewrite <- Hxk|].
    rewrite <- Hxk. by apply (list_elem_of_fmap_2 kv_of).
  - apply find_key_None in Hfk. split; [done | by intros []].
Qed.

(** X5.  Iteration groups the elements by bucket: pairs whose keys go to the
    same bucket are met one after the other. *)
Theorem iteration_groups_buckets s :
  reachable Hash s →
  ∃ l, elements s = Some l ∧
       grouped (map (λ kv, __constrain_hash (hash_key Hash kv.1) (_size s)) l).
Proof.
  intros Hreach. destruct (reachable_wf s Hreach) as [L Hrep].
  pose proof (rep_rep_core _ _ _ Hrep) as Hr.
  exists (map kv_of L). split; [by apply elements_spec|].
  assert (Heq : map (λ kv, __constrain_hash (hash_key Hash kv.1) (_size s)) (map kv_of L)
                = map e_hash L).
  { pose proof (rep_hash _ _ _ Hr) as Hok. clear -Hok.
    induction Hok as [|x L [Hx _] _ IH]; simpl; [done|]. by rewrite IH, Hx. }
  rewrite Heq. apply Hr.
Qed.

(** ** Insertion *)


Lemma pkv_perm_kv_cons L L' p k v :
  map pkv_of L' ≡ₚ (p, (k, v)) :: map pkv_of L → map kv_of L' ≡ₚ (k, v) :: map kv_of L.
Proof.
  intros HP. rewrite !kvs_of_pkvs. apply (fmap_Permutation snd) in HP. by rewrite HP.
Qed.

(** Lists with the same nodes and pairs find a key in the same node. *)
Lemma find_key_pkv_perm k L L' :
  NoDup (map e_key L) → map pkv_of L' ≡ₚ map pkv_of L →
  pkv_of <$> find_key k L' = pkv_of <$> find_key k L.
Proof.
  intros Hnd HP.
  assert (Hnd' : NoDup (map e_key L')).
  { by rewrite (keys_perm _ _ (pkv_perm_kv _ _ HP)). }
  destruct (find_key k L) as [x|] eqn:Hx.
  - apply find_key_Some in Hx as [Hx Hk].
    assert (Hin : pkv_of x ∈ map pkv_of L') by (rewrite HP; by apply list_elem_of_fmap_2).
    apply list_elem_of_fmap in Hin as (x' & Heq & Hx').
    assert (e_key x' = k).
    { unfold pkv_of, kv_of in Heq. injection Heq as _ <- _. done. }
    rewrite (find_key_NoDup k L' x') by done. simpl. by rewrite Heq.
  - apply find_key_None in Hx.
    rewrite (keys_perm _ _ (pkv_perm_kv _ _ HP)) in Hnd'.
    assert (find_key k L' = None) as ->; [|done].
    apply find_key_None. by rewrite (keys_perm _ _ (pkv_perm_kv _ _ HP)).
Qed.

Lemma find_pkv_perm s s' L L' k :
  rep_core Hash s L → rep_core Hash s' L' → map pkv_of L' ≡ₚ map pkv_of L →
  _end s' = _end s → array s = None ∨ 0 < _size s → array s' = None ∨ 0 < _size s' →
  find Hash s' k = find Hash s k.
Proof.
  intros Hr Hr' HP He Hs Hs'.
  rewrite (find_spec s L k Hr Hs), (find_spec s' L' k Hr' Hs'), He.
  pose proof (find_key_pkv_perm k L L' (rep_keys _ _ _ Hr) HP) as Hf.
  destruct (find_key k L') as [x'|], (find_key k L) as [x|]; simpl in Hf; try done.
  unfold pkv_of in Hf. by injection Hf as -> _.
Qed.

(** X6.  What an insertion does to the mappings: the flag tells whether the key
    was new, and afterwards every key has the value it had, the new key the
    value inserted. This holds with and without a growth of the bucket array. *)
Theorem insert_updates_mappings s k v s' it (fl : bool) :
  reachable Hash s → insert Hash s (k, v) = Some (s', (it, fl)) →
  ∃ l, elements s = Some l ∧ (fl = true ↔ k ∉ map fst l) ∧
       ∀ k', lookup_value Hash s' k' = Some (assoc k' (l ++ [(k, v)])).
Proof.
  intros Hreach Hins. destruct (reachable_wf s Hreach) as [L Hrep].
  pose proof (rep_rep_core _ _ _ Hrep) as Hr.
  destruct (insert_core s L k v s' it fl Hr Hins)
    as (L' & Hr' & Hpos & _ & _ & _ & _ & _ & Hfl).
  exists (map kv_of L). split; [by apply elements_spec|].
  rewrite <- keys_of_kvs.
  assert (Hl : ∀ k', lookup_value Hash s' k' = Some (assoc k' (map kv_of L')))
    by (intros k'; apply lookup_value_spec; [done | by right]).
  pose proof (rep_kvs_nodup _ _ Hr') as Hnd'.
  destruct fl.
  - destruct Hfl as (Hnin & HP & _). split; [done|]. intros k'. rewrite Hl.
    apply pkv_perm_kv_cons in HP.
    rewrite (assoc_perm k' _ ((k, v) :: map kv_of L)) by done.
    rewrite assoc_app. simpl. destruct (decide (k = k')) as [<-|Hne].
    + assert (assoc k (map kv_of L) = None) as ->; [|done].
      apply assoc_None. by rewrite <- keys_of_kvs.
    + by destruct (assoc k' (map kv_of L)).
  - destruct Hfl as (Hin & HP & _). split; [split; [done | by intros []]|].
    intros k'. rewrite Hl. apply pkv_perm_kv in HP.
    rewrite (assoc_perm k' _ (map kv_of L)) by done.
    rewrite assoc_app. simpl.
    destruct (assoc k' (map kv_of L)) eqn:Ha; [done|].
    destruct (decide (k = k')) as [<-|Hne]; [|done].
    apply assoc_None in Ha. by rewrite <- keys_of_kvs in Ha.
Qed.

(** X7.  An insertion invalidates no handle, not even when it grows the bucket
    array: [end()] stays the same node, and every key that was found at a node
    is found at the same node afterwards. *)
Theorem insert_keeps_handles s k v s' it (fl : bool) k' p :
  reachable Hash s → insert Hash s (k, v) = Some (s', (it, fl)) →
  find Hash s k' = Some p → p ≠ _end s →
  find Hash s' k' = Some p ∧ _end s' = _end s ∧
  ∃ b b', heap s !! p = Some b ∧ heap s' !! p = Some b' ∧ item b' = item b.
Proof.
  intros Hreach Hins Hfind Hp. destruct (reachable_wf s Hreach) as [L Hrep].
  pose proof (rep_rep_core _ _ _ Hrep) as Hr.
  destruct (insert_core s L k v s' it fl Hr Hins)
    as (L' & Hr' & Hpos & _ & He & _ & _ & _ & Hfl).
  pose proof (find_defined s L k' p Hr Hfind) as Hcond.
  rewrite (find_spec s L k' Hr Hcond) in Hfind. injection Hfind as Hfind.
  destruct (find_key k' L) as [x|] eqn:Hx; [subst p | done].
  apply find_key_Some in Hx as [Hx Hk].
  assert (Hin : pkv_of x ∈ map pkv_of L').
  { destruct fl.
    - destruct Hfl as (_ & -> & _). apply list_elem_of_further.
      by apply list_elem_of_fmap_2.
    - destruct Hfl as (_ & -> & _). by apply list_elem_of_fmap_2. }
  apply list_elem_of_fmap in Hin as (x' & Heq & Hx').
  unfold pkv_of, kv_of in Heq. injection Heq as Hp' Hk' Hv'.
  split; [|split; [done|]].
  - rewrite (find_spec s' L' k' Hr') by by right.
    rewrite (find_key_NoDup k' L' x'); [by rewrite Hp' | apply Hr' | done | congruence].
  - destruct (lseg_lookup _ _ _ _ x (rep_chain _ _ _ Hr) Hx) as (nx & Hl).
    destruct (lseg_lookup _ _ _ _ x' (rep_chain _ _ _ Hr') Hx') as (nx' & Hl').
    rewrite <- Hp' in Hl'.
    exists (node_of x nx), (node_of x' nx'). split_and!; [done | done |].
    unfold node_of, kv_of. simpl. by rewrite Hk', Hv'.
Qed.

(** X8.  The bucket count after an insertion: unchanged when the load factor
    allows one more element, and otherwise the larger of twice the element count
    (plus one when that count is no power of two above 2) and the count needed
    for the maximum load factor. *)
Theorem insert_bucket_count s kv s' r :
  reachable Hash s → insert Hash s kv = Some (s', r) →
  (need_grow s = false → _size s' = _size s) ∧
  (need_grow s = true →
     grow_size s = Some (_size s') ∧
     (2 * _count s < size_max → 2 * _count s ≤ _size s')).
Proof.
  intros Hreach Hins. destruct (reachable_wf s Hreach) as [L Hrep].
  pose proof (rep_rep_core _ _ _ Hrep) as Hr. destruct kv as [k v], r as [it fl].
  destruct (insert_core s L k v s' it fl Hr Hins)
    as (L' & Hr' & Hpos & _ & He & Hsame & Hgrow & _).
  split; [done|]. intros Hng. specialize (Hgrow Hng). split; [done|].
  intros Hc. unfold grow_size in Hgrow.
  destruct (size_of_float _) as [c|]; [|done]. simpl in Hgrow. injection Hgrow as <-.
  pose proof (rep_count _ _ _ Hrep) as Hcnt.
  destruct (__is_hash_power2 (_count s)).
  - rewrite Z.add_0_r. rewrite wrap_small by lia. lia.
  - destruct (decide (2 * _count s + 1 < size_max)).
    + rewrite wrap_small by lia. lia.
    + unfold size_max in *. lia.
Qed.

(** ** Rehashing *)

(** X9.  A rehash moves no node: [end()] is the same node, every key is found
    at the node it was found at, and the node holds the same pair. *)
Theorem rehash_keeps_handles s n s' k p :
  reachable Hash s → 0 < n < size_max → rehash Hash s n = Some (Normal s') →
  find Hash s k = Some p →
  find Hash s' k = Some p ∧ _end s' = _end s ∧
  (p ≠ _end s →
     ∃ b b', heap s !! p = Some b ∧ heap s' !! p = Some b' ∧ item b' = item b).
Proof.
  intros Hreach Hn Hre Hfind. destruct (reachable_wf s Hreach) as [L Hrep].
  pose proof (rep_rep_core _ _ _ Hrep) as Hr.
  unfold rehash in Hre. destruct (rehash_rejects s n); [done|].
  destruct (__rehash Hash s n) as [s1|] eqn:Hre'; [|done].
  simpl in Hre. injection Hre as ->.
  destruct (rehash_spec_ptr s L n Hr)
    as (s1 & L' & Hre1 & Hr' & HP & Hs & Hc & He & _); [lia | lia |].
  rewrite Hre1 in Hre'. injection Hre' as ->.
  pose proof (find_defined s L k p Hr Hfind) as Hcond.
  assert (Hcond' : array s' = None ∨ 0 < _size s') by (right; lia).
  split; [|split; [done|]].
  - by rewrite (find_pkv_perm s s' L L' k).
  - intros Hp. rewrite (find_spec s L k Hr Hcond) in Hfind. injection Hfind as Hfind.
    destruct (find_key k L) as [x|] eqn:Hx; [subst p | done].
    apply find_key_Some in Hx as [Hx Hk].
    assert (Hin : pkv_of x ∈ map pkv_of L') by (rewrite HP; by apply list_elem_of_fmap_2).
    apply list_elem_of_fmap in Hin as (x' & Heq & Hx').
    unfold pkv_of, kv_of in Heq. injection Heq as Hp' Hk' Hv'.
    destruct (lseg_lookup _ _ _ _ x (rep_chain _ _ _ Hr) Hx) as (nx & Hl).
    destruct (lseg_lookup _ _ _ _ x' (rep_chain _ _ _ Hr') Hx') as (nx' & Hl').
    rewrite <- Hp' in Hl'.
    exists (node_of x nx), (node_of x' nx'). split_and!; [done | done |].
    unfold node_of, kv_of. simpl. by rewrite Hk', Hv'.
Qed.

(** ** Erasure *)

(** [erase] runs the body of its loop on the node that holds the key. *)
Lemma erase_run s L k a :
  rep_core Hash s L → array s = Some a → 0 < _size s →
  erase Hash s k =
    match find_key k L with
    | Some y => b ← heap s !! e_ptr y; erase_node s a (e_hash y) (e_ptr y) b
    | None => Some (s, false)
    end.
Proof.
  intros Hr Harr Hs. unfold erase. pose proof (rep_array _ _ _ Hr) as Ha.
  generalize_fuel Hr n Hn. rewrite Harr in *.
  set (h := __constrain_hash (hash_key Hash k) (_size s)).
  assert (Hh : 0 ≤ h < _size s) by by eapply rep_constrain_range.
  rewrite (slot_ok a (_size s) L h) by done. simpl.
  destruct (bucket_head h L) as [g|] eqn:Hb; cycle 1.
  { apply bucket_head_None in Hb.
    by rewrite (find_key_other_hash (_size s) k L) by (done || apply Hr). }
  destruct (run_split h L g) as (L1 & x & R & L3 & -> & Hp & H1 & H2 & H3);
    [apply Hr | done |].
  pose proof (rep_chain _ _ _ Hr) as Hc.
  apply lseg_app in Hc as (m & Hc1 & Hc2).
  assert (m = Some g) as ->. { destruct Hc2 as (-> & _). by rewrite Hp. }
  pose proof (rep_hash _ _ _ Hr) as Hok.
  apply Forall_app in Hok as [Hok1 Hok2]. apply Forall_app in Hok2 as [Hok2 Hok3].
  pose proof (rep_ptr_ne_end _ _ Hr) as Hne. apply Forall_app in Hne as [_ Hne].
  assert (Hfk : find_key k (L1 ++ (x :: R) ++ L3) = find_key k (x :: R)).
  { rewrite !find_key_app.
    rewrite (find_key_other_hash (_size s) k L1) by done.
    destruct (find_key k (x :: R)); [done|].
    by rewrite (find_key_other_hash (_size s) k L3). }
  rewrite (erase_loop_run s a h k (x :: R) n (Some g) L3); try done; cycle 1.
  { destruct L3 as [|y L3]; [done|]. by apply Forall_cons in H3 as [? _]. }
  { rewrite !length_app in Hn. simpl in *. lia. }
  rewrite Hfk. destruct (find_key k (x :: R)) as [y|] eqn:Hfy; [|done].
  apply find_key_Some in Hfy as [Hy _].
  rewrite Forall_forall in H2. by rewrite (H2 y Hy).
Qed.

(** The node store and the sentinel after the body of the loop. *)
Lemma erase_node_heap s a h g b s' (fl : bool) :
  erase_node s a h g b = Some (s', fl) →
  ∃ q bq, next b = Some q ∧ heap s !! q = Some bq ∧
    heap s' = delete q (<[g := bq]> (heap s)) ∧
    _end s' = (if decide (q = _end s) then g else _end s) ∧ fl = true.
Proof.
  unfold erase_node. intros H.
  destruct (next b) as [q|] eqn:Hq; simpl in H; cycle 1.
  { repeat case_decide; simplify_eq/=. }
  destruct (heap s !! q) as [bq|] eqn:Hbq; simpl in H; cycle 1.
  { repeat case_decide; simplify_eq/=; by destruct (slot _ _). }
  exists q, bq. split; [done|]. split; [done|].
  repeat case_decide; simplify_option_eq; repeat case_decide; by simplify_eq.
Qed.

(** The whole of an erasure of a stored key, on the list of elements: the
    node of the key takes the place of its successor, which is freed. *)
Lemma erase_found s A y B :
  rep_core Hash s (A ++ y :: B) → 0 < _size s →
  let q := match B with [] => _end s | y2 :: _ => e_ptr y2 end in
  let L' := match B with
            | [] => A
            | y2 :: B' => A ++ Elem (e_ptr y) (e_key y2) (e_val y2) (e_hash y2) :: B'
            end in
  ∃ s' bq,
    heap s !! e_ptr y = Some (node_of y (Some q)) ∧ heap s !! q = Some bq ∧
    erase Hash s (e_key y) = Some (s', true) ∧ rep_core Hash s' L' ∧
    _size s' = _size s ∧ heap s' = delete q (<[e_ptr y := bq]> (heap s)) ∧
    _end s' = (if decide (q = _end s) then e_ptr y else _end s).
Proof.
  intros Hr Hs q L'.
  destruct (rep_array_Some s _ Hr Hs) as (a & Harr & _).
  assert (Hyin : y ∈ A ++ y :: B) by set_solver.
  rewrite (erase_run s _ (e_key y) a Hr Harr Hs).
  rewrite (find_key_NoDup (e_key y) _ y) by (done || apply Hr).
  destruct (lseg_mid _ _ _ _ _ _ (rep_chain _ _ _ Hr)) as (ny & Hyl & HlA & HlB).
  rewrite Hyl. simpl.
  destruct B as [|y2 B'].
  - simpl in HlB. subst ny.
    destruct (erase_node_last s A y a Hr Harr) as (s' & He & Hr' & Hs' & _).
    destruct (erase_node_heap _ _ _ _ _ _ _ He) as (q' & bq & Hq & Hbq & Hh & Hend & _).
    change (next (node_of y (Some (_end s)))) with (Some (_end s)) in Hq.
    injection Hq as <-. exists s', bq. split_and!; done.
  - destruct HlB as (-> & _).
    destruct (erase_node_mid s A y y2 B' a Hr Harr) as (s' & He & Hr' & Hs' & _).
    destruct (erase_node_heap _ _ _ _ _ _ _ He) as (q' & bq & Hq & Hbq & Hh & Hend & _).
    change (next (node_of y (Some (e_ptr y2)))) with (Some (e_ptr y2)) in Hq.
    injection Hq as <-. exists s', bq. split_and!; done.
Qed.

(** The found node splits the list of elements. *)
Lemma find_splits s L k p :
  rep_core Hash s L → find Hash s k = Some p → p ≠ _end s →
  0 < _size s ∧ ∃ A y B, L = A ++ y :: B ∧ e_ptr y = p ∧ e_key y = k.
Proof.
  intros Hr Hfind Hp.
  pose proof (find_defined s L k p Hr Hfind) as Hcond.
  rewrite (find_spec s L k Hr Hcond) in Hfind. injection Hfind as Hfind.
  destruct (find_key k L) as [y|] eqn:Hy; [subst p | done].
  apply find_key_Some in Hy as [Hy Hk]. split.
  - by eapply rep_size_pos.
  - apply list_elem_of_split in Hy as (A & B & ->). by exists A, y, B.
Qed.

(** X10.  An erasure does not free the node that held the key: that node takes
    over the contents of its successor, and the successor is freed. When the
    successor is the past-last sentinel, the node of the key becomes the
    sentinel: [end()] changes. *)
Theorem erase_frees_successor s k p :
  reachable Hash s → find Hash s k = Some p → p ≠ _end s →
  ∃ s' b q bq,
    heap s !! p = Some b ∧ next b = Some q ∧ q ≠ p ∧ heap s !! q = Some bq ∧
    erase Hash s k = Some (s', true) ∧
    heap s' !! p = Some bq ∧ heap s' !! q = None ∧
    (∀ g, g ≠ p → g ≠ q → heap s' !! g = heap s !! g) ∧
    _end s' = (if decide (q = _end s) then p else _end s).
Proof.
  intros Hreach Hfind Hp. destruct (reachable_wf s Hreach) as [L Hrep].
  pose proof (rep_rep_core _ _ _ Hrep) as Hr.
  destruct (find_splits s L k p Hr Hfind Hp) as (Hs & A & y & B & -> & <- & <-).
  destruct (erase_found s A y B Hr Hs) as (s' & bq & Hy & Hq & He & _ & _ & Hh & Hend).
  set (q := match B with [] => _end s | y2 :: _ => e_ptr y2 end) in *.
  assert (Hqp : q ≠ e_ptr y).
  { pose proof (rep_nodup _ _ _ Hr) as Hnd. rewrite map_app in Hnd. simpl in Hnd.
    rewrite <- app_assoc in Hnd. apply NoDup_app in Hnd as (_ & _ & Hnd).
    simpl in Hnd. apply NoDup_cons in Hnd as [Hnin _].
    intros Heq. apply Hnin. rewrite <- Heq. unfold q. destruct B; set_solver. }
  exists s', (node_of y (Some q)), q, bq. split_and!; try done.
  - rewrite Hh. rewrite lookup_delete_ne by done. by rewrite lookup_insert_eq.
  - rewrite Hh. by rewrite lookup_delete_eq.
  - intros g Hg1 Hg2. rewrite Hh.
    rewrite lookup_delete_ne by done. by rewrite lookup_insert_ne.
Qed.

(** X11.  What an erasure does to the handles: the key that was found at the
    successor of the erased node is found at the node of the erased key
    afterwards, and so is the end marker when the successor was the sentinel;
    every other key stays at its node. *)
Theorem erase_moves_successor_handle s k p s' (fl : bool) k' p' :
  reachable Hash s → find Hash s k = Some p → p ≠ _end s →
  erase Hash s k = Some (s', fl) → k' ≠ k → find Hash s k' = Some p' →
  ∃ b q, heap s !! p = Some b ∧ next b = Some q ∧
         find Hash s' k' = Some (if decide (p' = q) then p else p').
Proof.
  intros Hreach Hfind Hp Her Hkk Hfind'. destruct (reachable_wf s Hreach) as [L Hrep].
  pose proof (rep_rep_core _ _ _ Hrep) as Hr.
  destruct (find_splits s L k p Hr Hfind Hp) as (Hs & A & y & B & -> & <- & <-).
  destruct (erase_found s A y B Hr Hs) as (s1 & bq & Hy & Hq & He & Hr' & Hs' & _ & Hend).
  rewrite He in Her. injection Her as <- <-.
  set (q := match B with [] => _end s | y2 :: _ => e_ptr y2 end) in *.
  exists (node_of y (Some q)), q. split; [done|]. split; [done|].
  rewrite (find_spec s _ k' Hr) in Hfind' by by right. injection Hfind' as Hfind'.
  rewrite (find_spec s1 _ k' Hr') by (right; lia).
  pose proof (rep_nodup _ _ _ Hr) as Hnd. rewrite map_app in Hnd. simpl in Hnd.
  pose proof (rep_ptr_ne_end _ _ Hr) as Hne.
  rewrite find_key_app in Hfind'. simpl in Hfind'.
  rewrite (decide_False (P := e_key y = k')) in Hfind' by done.
  destruct B as [|y2 B']; simpl in *.
  - rewrite decide_True in Hend by done. rewrite Hend.
    destruct (find_key k' A) as [x|] eqn:Hx.
    + subst p'. apply find_key_Some in Hx as [Hx _].
      rewrite decide_False; [done|]. rewrite Forall_forall in Hne. apply Hne. set_solver.
    + subst p'. by rewrite decide_True.
  - assert (Hq2 : e_ptr y2 ≠ _end s).
    { rewrite Forall_forall in Hne. apply Hne. set_solver. }
    rewrite decide_False in Hend by done. rewrite Hend.
    rewrite find_key_app. simpl.
    pose proof (rep_ptr_nodup _ _ Hr) as HndL.
    destruct (find_key k' A) as [x|] eqn:Hx.
    + subst p'. apply find_key_Some in Hx as [Hx _].
      rewrite decide_False; [done|]. intros Heq.
      rewrite map_app in HndL. apply NoDup_app in HndL as (_ & Hd & _).
      apply (Hd (e_ptr x)); [by apply list_elem_of_fmap_2|].
      rewrite Heq. set_solver.
    + destruct (decide (e_key y2 = k')) as [Hk2|Hk2].
      * subst p'. by rewrite decide_True.
      * destruct (find_key k' B') as [x|] eqn:Hx'.
        -- subst p'. apply find_key_Some in Hx' as [Hx' _].
           rewrite decide_False; [done|]. intros Heq.
           rewrite map_app in HndL. apply NoDup_app in HndL as (_ & _ & HndL).
           simpl in HndL. apply NoDup_cons in HndL as [_ HndL].
           apply NoDup_cons in HndL as [Hnin _]. apply Hnin. unfold q in Heq.
           rewrite <- Heq. by apply list_elem_of_fmap_2.
        -- subst p'. by rewrite decide_False by done.
Qed.

(** X12.  What an erasure does to the mappings: the flag tells whether the key
    was stored; when it was not, nothing changes at all; afterwards the key has
    no value and every other key has the value it had. *)
Theorem erase_updates_mappings s k s' (fl : bool) :
  reachable Hash s → erase Hash s k = Some (s', fl) →
  ∃ l l', elements s = Some l ∧ elements s' = Some l' ∧
    (fl = true ↔ k ∈ map fst l) ∧ (fl = false → s' = s) ∧
    length l = (length l' + (if fl then 1 else 0))%nat ∧
    ∀ k', assoc k' l' = if decide (k' = k) then None else assoc k' l.
Proof.
  intros Hreach Her. destruct (reachable_wf s Hreach) as [L Hrep].
  pose proof (rep_rep_core _ _ _ Hrep) as Hr.
  pose proof (erase_defined s L k _ Hr Her) as Hcond.
  pose proof (rep_kvs_nodup _ _ Hr) as Hnd.
  destruct (erase_spec s L k Hrep Hcond) as [[Hnin He]|(s1 & L' & v & He & Hr' & HP & _)];
    rewrite He in Her; injection Her as <- <-.
  - exists (map kv_of L), (map kv_of L). rewrite !(elements_spec s L Hr).
    rewrite <- keys_of_kvs. split_and!; try done.
    intros k'. destruct (decide (k' = k)) as [->|]; [|done].
      apply assoc_None. by rewrite <- keys_of_kvs.
  - exists (map kv_of L), (map kv_of L').
    rewrite (elements_spec s L Hr), (elements_spec s1 L' (rep_rep_core _ _ _ Hr')).
    rewrite <- keys_of_kvs. split_and!; try done.
    + split; [intros _ | done]. rewrite keys_of_kvs, HP. set_solver.
    + rewrite HP. simpl. lia.
    + intros k'. rewrite (assoc_perm k' _ _ Hnd HP). simpl.
      rewrite HP in Hnd. simpl in Hnd. apply NoDup_cons in Hnd as [Hnin _].
      destruct (decide (k' = k)) as [->|Hne].
      * by apply assoc_None.
      * by rewrite decide_False by done.
Qed.

(** ** Clearing and destruction *)

(** X13.  [clear] returns on every state of a container and frees every node but
    the past-last sentinel, which stays the same node; the container is empty
    afterwards and every lookup gives the end marker. *)
Theorem clear_empties s :
  reachable Hash s →
  ∃ s', clear s = Some s' ∧ elements s' = Some [] ∧ _count s' = 0 ∧
        empty s' = true ∧ (∀ k, find Hash s' k = Some (_end s')) ∧
        _end s' = _end s ∧ size (heap s') = 1%nat ∧
        _max_load_factor s' = _max_load_factor s.
Proof.
  intros Hreach. destruct (reachable_wf s Hreach) as [L Hrep].
  pose proof (rep_rep_core _ _ _ Hrep) as Hr.
  destruct (clear_spec s L Hr) as (s' & Hcl & Hrep' & Hs' & Hc' & Ha' & Hm').
  pose proof (rep_rep_core _ _ _ Hrep') as Hr'.
  exists s'. split; [done|]. split; [by rewrite (elements_spec s' [] Hr')|].
  split; [done|].
  assert (He : _end s' = _end s ∧ start_next s' = Some (_end s')).
  { unfold clear in Hcl. destruct (clear_loop _ _ _ _); [|done].
    simpl in Hcl. by injection Hcl as <-. }
  destruct He as [He Hst]. split_and!; try done.
  - unfold empty. by rewrite bool_decide_eq_true.
  - intros k. unfold find. by rewrite Ha'.
  - by rewrite (rep_heap_size _ _ _ Hr').
Qed.

(** X14.  The destructor returns on every state of a container and leaves no
    node allocated. *)
Theorem destroy_frees_all s : reachable Hash s → destroy s = Some ∅.
Proof.
  intros Hreach. destruct (reachable_wf s Hreach) as [L Hrep].
  pose proof (rep_rep_core _ _ _ Hrep) as Hr.
  destruct (clear_spec s L Hr) as (s' & Hcl & Hrep' & _).
  pose proof (rep_rep_core _ _ _ Hrep') as Hr'.
  unfold destroy. rewrite Hcl. simpl.
  destruct (rep_end _ _ _ Hr') as [be Hbe]. rewrite Hbe. simpl. f_equal.
  apply map_size_empty_inv.
  rewrite map_size_delete_Some by eauto. by rewrite (rep_heap_size _ _ _ Hr').
Qed.

(** ** The copy constructor *)

(** X15.  The copy constructor returns on every state of a container. The copy
    holds the pairs of the source, maps every key to the value the source maps
    it to, and has the bucket count, the element count and the maximum load
    factor of the source. *)
Theorem copy_construct_same_mappings s :
  reachable Hash s →
  ∃ s' l l', copy_construct s = Some s' ∧ elements s = Some l ∧
    elements s' = Some l' ∧ l' ≡ₚ l ∧
    (∀ k, lookup_value Hash s' k = Some (assoc k l)) ∧
    _size s' = _size s ∧ _count s' = _count s ∧
    _max_load_factor s' = _max_load_factor s.
Proof.
  intros Hreach. destruct (reachable_wf s Hreach) as [L Hrep].
  pose proof (rep_rep_core _ _ _ Hrep) as Hr.
  destruct (copy_construct_spec s L Hrep) as (s' & L' & Hcp & Hrep' & HP & Hs & Hm).
  pose proof (rep_rep_core _ _ _ Hrep') as Hr'.
  exists s', (map kv_of L), (map kv_of L'). split; [done|].
  split; [by apply elements_spec|]. split; [by apply elements_spec|].
  split; [done|]. split_and!; try done.
  - intros k. rewrite (lookup_value_spec s' L' k Hr').
    + f_equal. apply assoc_perm; [by eapply rep_kvs_nodup | done].
    + destruct (decide (0 < _size s)) as [Hpos|Hpos]; [right; lia | left].
      assert (L = []) as ->.
      { destruct L as [|x L]; [done|]. exfalso. apply Hpos.
        apply (rep_size_pos s (x :: L) x Hr). set_solver. }
      pose proof (rep_chain _ _ _ Hr) as Hc. simpl in Hc.
      unfold copy_construct, fuel_of in Hcp. simpl in Hcp.
      rewrite decide_True in Hcp by done. injection Hcp as <-. simpl.
      destruct (Z.ltb_spec 0 (_size s)); [lia | done].
  - rewrite (rep_count _ _ _ Hrep'), (rep_count _ _ _ Hrep).
    by rewrite (kvs_length _ _ HP).
Qed.

(** ** When an insertion returns *)


Lemma insert_defined_core s L k v :
  rep_core Hash s L →
  (if need_grow s then ∃ n, grow_size s = Some n ∧ 0 < n else 0 < _size s) →
  ∃ s' it (fl : bool), insert Hash s (k, v) = Some (s', (it, fl)).
Proof.
  intros Hr Hcond. unfold insert.
  assert (∃ s1 L1, (if need_grow s then n ← grow_size s; __rehash Hash s n else Some s)
                     = Some s1 ∧ rep_core Hash s1 L1 ∧ 0 < _size s1)
    as (s1 & L1 & -> & Hr1 & Hpos).
  { destruct (need_grow s).
    - destruct Hcond as (n & Hn & Hpos). rewrite Hn. simpl.
      destruct (rehash_spec_ptr s L n Hr) as (s1 & L1 & Hre & Hr1 & _ & Hs & _);
        [by eapply grow_size_range | done |].
      exists s1, L1. split; [done|]. split; [done | lia].
    - by exists s, L. }
  simpl.
  destruct (bucket_insert_spec s1 L1 k v (__constrain_hash (hash_key Hash k) (_size s1)))
    as [[_ ->]|(_ & s' & L' & -> & _)];
    [done | done | by eapply rep_constrain_range | simpl; eauto ..].
Qed.


(** X17.  The first insertion into a container that is empty, has no bucket and
    the default maximum load factor (a new one, a cleared one, a moved-from one)
    returns, allocates exactly one bucket and stores the pair. *)
Theorem first_insert_allocates_one_bucket s k v :
  reachable Hash s → _count s = 0 → _size s = 0 → _max_load_factor s = float_one →
  ∃ s' it, insert Hash s (k, v) = Some (s', (it, true)) ∧
           _size s' = 1 ∧ _count s' = 1 ∧ elements s' = Some [(k, v)].
Proof.
  intros Hreach Hc Hs Hm. destruct (reachable_wf s Hreach) as [L Hrep].
  pose proof (rep_rep_core _ _ _ Hrep) as Hr.
  assert (L = []) as ->.
  { pose proof (rep_count _ _ _ Hrep) as Hcnt. rewrite Hc in Hcnt.
    destruct L; [done | simpl in Hcnt; lia]. }
  assert (Hng : need_grow s = true).
  { unfold need_grow. rewrite Hc, Hs, Hm. vm_compute. reflexivity. }
  assert (Hgs : grow_size s = Some 1).
  { unfold grow_size. rewrite Hc, Hm. vm_compute. reflexivity. }
  destruct (insert_defined_core s [] k v Hr) as (s' & it & fl & Hins).
  { rewrite Hng. exists 1. split; [done | lia]. }
  destruct (insert_core s [] k v s' it fl Hr Hins)
    as (L' & Hr' & _ & _ & _ & _ & Hgrow & _ & Hfl).
  specialize (Hgrow Hng). rewrite Hgs in Hgrow. injection Hgrow as Hsz.
  destruct fl; cycle 1.
  { destruct Hfl as (Hin & _). simpl in Hin. set_solver. }
  destruct Hfl as (_ & HP & Hcnt). exists s', it. split; [done|].
  split; [done|]. split; [rewrite Hcnt, Hc; vm_compute; reflexivity|].
  rewrite (elements_spec s' L' Hr'). f_equal.
  apply pkv_perm_kv_cons in HP. simpl in HP. by apply Permutation_singleton_r in HP.
Qed.

(** ** [operator[]] and the list forms *)

(** The mappings after an insertion, on the list of elements. *)
Lemma insert_assoc_core s L k v s' it (fl : bool) :
  rep_core Hash s L → insert Hash s (k, v) = Some (s', (it, fl)) →
  ∃ L', rep_core Hash s' L' ∧ 0 < _size s' ∧
    (fl = true ↔ k ∉ map e_key L) ∧
    (fl = true → (it, (k, v)) ∈ map pkv_of L') ∧
    ∀ k', assoc k' (map kv_of L') = assoc k' (map kv_of L ++ [(k, v)]).
Proof.
  intros Hr Hins.
  destruct (insert_core s L k v s' it fl Hr Hins)
    as (L' & Hr' & Hpos & _ & _ & _ & _ & _ & Hfl).
  exists L'. split; [done|]. split; [done|].
  pose proof (rep_kvs_nodup _ _ Hr') as Hnd'.
  destruct fl.
  - destruct Hfl as (Hnin & HP & _). split; [done|].
    split; [intros _; rewrite HP; set_solver|]. intros k'.
    apply pkv_perm_kv_cons in HP.
    rewrite (assoc_perm k' _ ((k, v) :: map kv_of L)) by done.
    rewrite assoc_app. simpl. destruct (decide (k = k')) as [<-|Hne].
    + assert (assoc k (map kv_of L) = None) as ->; [|done].
      apply assoc_None. by rewrite <- keys_of_kvs.
    + by destruct (assoc k' (map kv_of L)).
  - destruct Hfl as (Hin & HP & _). split; [split; [done | by intros []]|].
    split; [done|]. intros k'. apply pkv_perm_kv in HP.
    rewrite (assoc_perm k' _ (map kv_of L)) by done.
    rewrite assoc_app. simpl.
    destruct (assoc k' (map kv_of L)) eqn:Ha; [done|].
    destruct (decide (k = k')) as [<-|Hne]; [|done].
    apply assoc_None in Ha. by rewrite <- keys_of_kvs in Ha.
Qed.

(** X18.  [m[k]] refers to a stored element with key [k], never to the end
    marker: the one that was stored, and then nothing changes, or a new one with
    the value [T()]. Every other key keeps its value. *)
Theorem index_spec s k s' p :
  reachable Hash s → index Hash s k = Some (s', p) →
  ∃ l b, elements s = Some l ∧ heap s' !! p = Some b ∧ p ≠ _end s' ∧
    item b = (k, default inhabitant (assoc k l)) ∧
    (k ∈ map fst l → s' = s) ∧
    ∀ k', lookup_value Hash s' k' = Some (assoc k' (l ++ [(k, inhabitant)])).
Proof.
  intros Hreach Hidx. destruct (reachable_wf s Hreach) as [L Hrep].
  pose proof (rep_rep_core _ _ _ Hrep) as Hr.
  exists (map kv_of L). unfold index in Hidx.
  destruct (find Hash s k) as [it|] eqn:Hfind; [|done]. simpl in Hidx.
  pose proof (find_defined s L k it Hr Hfind) as Hcond.
  rewrite (find_spec s L k Hr Hcond) in Hfind. injection Hfind as Hfind.
  rewrite <- keys_of_kvs.
  destruct (find_key k L) as [x|] eqn:Hx.
  - subst it. pose proof Hx as Hx2. apply find_key_Some in Hx2 as [Hxin Hk].
    pose proof (rep_ptr_ne_end _ _ Hr) as Hne. rewrite Forall_forall in Hne.
    rewrite decide_False in Hidx by by apply Hne.
    injection Hidx as <- <-.
    destruct (lseg_lookup _ _ _ _ x (rep_chain _ _ _ Hr) Hxin) as (nx & Hl).
    exists (node_of x nx). split; [by apply elements_spec|]. split; [done|].
    split; [by apply Hne|].
    pose proof (find_key_assoc k L) as Ha. rewrite Hx in Ha. simpl in Ha.
    split; [rewrite <- Ha; simpl; unfold kv_of; by rewrite Hk|]. split; [done|].
    intros k'. rewrite (lookup_value_spec s L k' Hr Hcond). f_equal.
    rewrite assoc_app. simpl.
    destruct (assoc k' (map kv_of L)) eqn:Ha'; [done|].
    destruct (decide (k = k')) as [<-|]; [|done]. by rewrite <- Ha in Ha'.
  - subst it. rewrite decide_True in Hidx by done. unfold emplace in Hidx.
    destruct (insert Hash s (k, inhabitant)) as [[s1 [a fl]]|] eqn:Hins; [|done].
    simpl in Hidx. injection Hidx as <- <-.
    apply find_key_None in Hx.
    destruct (insert_assoc_core s L k inhabitant s1 a fl Hr Hins)
      as (L' & Hr' & Hpos & Hfl & Hin & Ha).
    assert (fl = true) as -> by by apply Hfl.
    apply list_elem_of_fmap in Hin as (x' & Heq & Hx'); [|done].
    unfold pkv_of, kv_of in Heq. injection Heq as -> Hk' Hv'.
    destruct (lseg_lookup _ _ _ _ x' (rep_chain _ _ _ Hr') Hx') as (nx' & Hl').
    exists (node_of x' nx'). split; [by apply elements_spec|]. split; [done|].
    pose proof (rep_ptr_ne_end _ _ Hr') as Hne. rewrite Forall_forall in Hne.
    split; [by apply Hne|].
    assert (assoc k (map kv_of L) = None) as ->
      by (apply assoc_None; by rewrite <- keys_of_kvs).
    split; [simpl; unfold kv_of; by rewrite <- Hk', <- Hv'|]. split; [done|].
    intros k'. rewrite (lookup_value_spec s1 L' k' Hr') by by right. by rewrite Ha.
Qed.

Lemma insert_list_core l : ∀ s L s',
  rep_core Hash s L → insert_list Hash s l = Some s' →
  ∃ L', rep_core Hash s' L' ∧ (l ≠ [] → 0 < _size s') ∧
    ∀ k, assoc k (map kv_of L') = assoc k (map kv_of L ++ l).
Proof.
  induction l as [|[k v] l IH]; intros s L s' Hr Hil; simpl in Hil.
  - injection Hil as <-. exists L. split; [done|]. split; [done|].
    intros k. by rewrite app_nil_r.
  - destruct (insert Hash s (k, v)) as [[s1 [it fl]]|] eqn:Hins; [|done].
    simpl in Hil.
    destruct (insert_assoc_core s L k v s1 it fl Hr Hins) as (L1 & Hr1 & Hpos & _ & _ & Ha).
    destruct (IH s1 L1 s' Hr1 Hil) as (L' & Hr' & Hpos' & Ha').
    exists L'. split; [done|]. split.
    + intros _. destruct l as [|kv l]; [|by apply Hpos'].
      simpl in Hil. by injection Hil as <-.
    + intros k'. rewrite Ha'. rewrite assoc_app, Ha, <- assoc_app.
      by rewrite <- app_assoc.
Qed.

(** X19.  The list form of [insert] is a chain of insertions from left to right:
    afterwards a key has the value it had before, or else the value of its first
    pair in the list, and no key is stored twice. *)
Theorem insert_list_spec s l s' :
  reachable Hash s → insert_list Hash s l = Some s' →
  ∃ l0 l', elements s = Some l0 ∧ elements s' = Some l' ∧ NoDup (map fst l') ∧
    (∀ k, assoc k l' = assoc k (l0 ++ l)) ∧
    (l ≠ [] → ∀ k, lookup_value Hash s' k = Some (assoc k (l0 ++ l))).
Proof.
  intros Hreach Hil. destruct (reachable_wf s Hreach) as [L Hrep].
  pose proof (rep_rep_core _ _ _ Hrep) as Hr.
  destruct (insert_list_core l s L s' Hr Hil) as (L' & Hr' & Hpos & Ha).
  exists (map kv_of L), (map kv_of L').
  split; [by apply elements_spec|]. split; [by apply elements_spec|].
  split; [by eapply rep_kvs_nodup|]. split; [done|].
  intros Hl k. rewrite (lookup_value_spec s' L' k Hr') by (right; by apply Hpos).
  by rewrite Ha.
Qed.

(** X20.  Assignment from a list drops what was stored: afterwards a key has the
    value of its first pair in the list, and no value when the list has no pair
    for it. *)
Theorem assign_list_spec s l s' :
  reachable Hash s → assign_list Hash s l = Some s' →
  ∃ l', elements s' = Some l' ∧ NoDup (map fst l') ∧
    ∀ k, assoc k l' = assoc k l ∧ lookup_value Hash s' k = Some (assoc k l).
Proof.
  intros Hreach Has. destruct (reachable_wf s Hreach) as [L Hrep].
  pose proof (rep_rep_core _ _ _ Hrep) as Hr.
  destruct (clear_spec s L Hr) as (s0 & Hcl & Hrep0 & _ & _ & Ha0 & _).
  pose proof (rep_rep_core _ _ _ Hrep0) as Hr0.
  unfold assign_list in Has. rewrite Hcl in Has. simpl in Has.
  destruct (insert_list_core l s0 [] s' Hr0 Has) as (L' & Hr' & Hpos & Ha).
  exists (map kv_of L'). split; [by apply elements_spec|].
  split; [by eapply rep_kvs_nodup|]. intros k. split; [by rewrite Ha|].
  rewrite (lookup_value_spec s' L' k Hr'); [by rewrite Ha|].
  destruct l as [|kv l]; [|right; by apply Hpos].
  simpl in Has. injection Has as <-. by left.
Qed.

(** ** Invariants of the representation *)

(** X21.  The hash cached in a node is the bucket index of its key for the
    current bucket count, the bucket array has that many slots, and the slot of
    the node's bucket is not empty. *)
Theorem cached_hash_current s k p :
  reachable Hash s → find Hash s k = Some p → p ≠ _end s →
  ∃ b a g, heap s !! p = Some b ∧ array s = Some a ∧
    hash b = __constrain_hash (hash_key Hash k) (_size s) ∧ 0 ≤ hash b < _size s ∧
    Z.of_nat (length a) = _size s ∧ slot a (hash b) = Some (Some g).
Proof.
  intros Hreach Hfind Hp. destruct (reachable_wf s Hreach) as [L Hrep].
  pose proof (rep_rep_core _ _ _ Hrep) as Hr.
  destruct (find_splits s L k p Hr Hfind Hp) as (Hs & A & y & B & -> & <- & <-).
  assert (Hyin : y ∈ A ++ y :: B) by set_solver.
  destruct (lseg_lookup _ _ _ _ y (rep_chain _ _ _ Hr) Hyin) as (ny & Hl).
  destruct (rep_array_Some s _ Hr Hs) as (a & Harr & Hok).
  pose proof (rep_hash _ _ _ Hr) as Hh. rewrite Forall_forall in Hh.
  destruct (Hh y Hyin) as [Hh1 Hh2].
  destruct (bucket_head (e_hash y) (A ++ y :: B)) as [g|] eqn:Hb; cycle 1.
  { apply bucket_head_None in Hb. rewrite Forall_forall in Hb. by destruct (Hb y Hyin). }
  exists (node_of y ny), a, g. change (hash (node_of y ny)) with (e_hash y).
  split; [done|]. split; [done|]. split; [done|]. split; [done|].
  split; [apply Hok|]. by rewrite (slot_ok a (_size s) _ (e_hash y) Hok Hh2), Hb.
Qed.

(** X22.  The maximum load factor is never negative: it starts as 1, and the
    setter stores the absolute value of its argument. *)
Theorem max_load_factor_not_negative s :
  reachable Hash s → SFabs (_max_load_factor s) = _max_load_factor s.
Proof.
  induction 1 as [|s [k v] s' [it b] Hreach IH Hins Hfits
                  |s k s' p Hreach IH Hidx Hfits
                  |s k s' b Hreach IH Her
                  |s n s' Hreach IH Hn Hre
                  |s s' Hreach IH Hcl
                  |s f Hreach IH
                  |s s' Hreach IH Hcp
                  |s Hreach IH]; try done.
  - destruct (reachable_wf s Hreach) as [L Hrep].
    destruct (insert_core s L k v s' it b (rep_rep_core _ _ _ Hrep) Hins)
      as (_ & _ & _ & -> & _). done.
  - unfold index in Hidx. destruct (find Hash s k) as [it|]; [|done]. simpl in Hidx.
    destruct (decide (it = _end s)).
    + unfold emplace in Hidx.
      destruct (insert Hash s (k, inhabitant)) as [[s1 [a b]]|] eqn:Hins; [|done].
      simpl in Hidx. injection Hidx as <- <-.
      destruct (reachable_wf s Hreach) as [L Hrep].
      destruct (insert_core s L k inhabitant s1 a b (rep_rep_core _ _ _ Hrep) Hins)
        as (_ & _ & _ & -> & _). done.
    + by injection Hidx as <- <-.
  - destruct (reachable_wf s Hreach) as [L Hrep].
    destruct (erase_spec s L k Hrep) as [[_ He]|(s1 & L' & v & He & _ & _ & _ & Hm & _)].
    + by eapply erase_defined; [apply Hrep|].
    + rewrite He in Her. by injection Her as <- <-.
    + rewrite He in Her. injection Her as <- <-. by rewrite Hm.
  - destruct (reachable_wf s Hreach) as [L Hrep].
    unfold rehash in Hre. destruct (rehash_rejects s n); [done|].
    destruct (__rehash Hash s n) as [s1|] eqn:Hre'; [|done].
    simpl in Hre. injection Hre as <-.
    destruct (rehash_rep s L n s1 Hrep Hn Hre') as (L' & _ & _ & _ & _ & -> & _). done.
  - destruct (reachable_wf s Hreach) as [L Hrep].
    destruct (clear_spec s L (rep_rep_core _ _ _ Hrep)) as (s1 & Hcl' & _ & _ & _ & _ & Hm).
    rewrite Hcl' in Hcl. injection Hcl as <-. by rewrite Hm.
  - simpl. by destruct f.
  - destruct (reachable_wf s Hreach) as [L Hrep].
    destruct (copy_construct_spec s L Hrep) as (s1 & L' & Hcp' & _ & _ & _ & Hm).
    rewrite Hcp' in Hcp. injection Hcp as <-. by rewrite Hm.
Qed.

(** X23.  [load_factor()] divides the bucket count by the element count as
    integers: it is zero exactly when the container is empty or holds more
    elements than it has buckets. *)
Theorem load_factor_zero s :
  reachable Hash s →
  load_factor s = float_of_size 0 ↔ _count s = 0 ∨ _size s < _count s.
Proof.
  intros Hreach. destruct (reachable_wf s Hreach) as [L Hrep].
  pose proof (rep_rep_core _ _ _ Hrep) as Hr.
  pose proof (rep_count _ _ _ Hrep) as Hc. pose proof (rep_size _ _ _ Hr) as Hs.
  unfold load_factor. destruct (Z.eqb_spec (_count s) 0) as [Hz|Hz].
  { split; [by left | done]. }
  destruct (decide (_size s < _count s)) as [Hlt|Hge].
  - rewrite Z.div_small by lia. split; [by right | done].
  - split; [|intros [?|?]; lia]. intros Heq. exfalso.
    assert (Hq : 0 < _size s / _count s) by (apply Z.div_str_pos; lia).
    pose proof (float_of_size_pos _ Hq) as Hpos. rewrite Heq in Hpos.
    vm_compute in Hpos. done.
Qed.

(** ** Insertion followed by erasure *)

(** X24.  Erasing a key that was just inserted gives back the pairs and the
    element count from before the insertion. *)
Theorem insert_erase_round_trip s k v s1 it :
  reachable Hash s → insert Hash s (k, v) = Some (s1, (it, true)) → fits s1 →
  ∃ s2 l l2, erase Hash s1 k = Some (s2, true) ∧ elements s = Some l ∧
    elements s2 = Some l2 ∧ l2 ≡ₚ l ∧ _count s2 = _count s ∧
    ∀ k', assoc k' l2 = assoc k' l.
Proof.
  intros Hreach Hins Hfits. destruct (reachable_wf s Hreach) as [L Hrep].
  pose proof (rep_rep_core _ _ _ Hrep) as Hr.
  destruct (insert_spec s L k v s1 it true Hrep Hins)
    as (L1 & Hr1 & Hpos & _ & Hnin & HP & Hc & _).
  assert (Hrep1 : rep Hash s1 L1).
  { constructor; [done | | done]. rewrite Hc, (rep_count _ _ _ Hrep).
    apply Permutation_length in HP. simpl in HP. rewrite !length_map in HP. lia. }
  pose proof (rep_kvs_nodup _ _ Hr1) as Hnd1.
  destruct (erase_spec s1 L1 k Hrep1) as [[Hn _]|(s2 & L2 & v' & He & Hrep2 & HP2 & _ & _ & Hc2 & _)];
    [by right | |].
  { exfalso. apply Hn. rewrite keys_of_kvs, HP. simpl. set_solver. }
  assert (v' = v) as ->.
  { assert (H1 : (k, v) ∈ map kv_of L1) by (rewrite HP; set_solver).
    assert (H2 : (k, v') ∈ map kv_of L1) by (rewrite HP2; set_solver).
    apply (assoc_Some k v _ Hnd1) in H1. apply (assoc_Some k v' _ Hnd1) in H2.
    congruence. }
  assert (HP3 : map kv_of L2 ≡ₚ map kv_of L).
  { apply (Permutation_cons_inv (a := (k, v))). by rewrite <- HP2, <- HP. }
  exists s2, (map kv_of L), (map kv_of L2). split; [done|].
  split; [by apply elements_spec|].
  split; [apply elements_spec, Hrep2|]. split; [done|]. split; [lia|].
  intros k'. apply assoc_perm; [|done]. eapply rep_kvs_nodup, Hrep2.
Qed.

(** ** Iteration order *)

Lemma filter_other_keys k (l : list (Key * T)) :
  k ∉ map fst l → filter (λ kv, kv.1 ≠ k) l = l.
Proof.
  induction l as [|[k' v'] l IH]; simpl; intros Hnin; [done|].
  rewrite filter_cons_True by (simpl; set_solver). rewrite IH; [done | set_solver].
Qed.

(** X25.  An insertion that does not grow the bucket array leaves the stored
    pairs in the order iteration met them in, and puts the new pair between two
    of them, in front of them or behind them. *)
Theorem insert_keeps_order s k v s' it :
  reachable Hash s → need_grow s = false →
  insert Hash s (k, v) = Some (s', (it, true)) →
  ∃ l1 l2, elements s = Some (l1 ++ l2) ∧ elements s' = Some (l1 ++ (k, v) :: l2).
Proof.
  intros Hreach Hng Hins. destruct (reachable_wf s Hreach) as [L Hrep].
  pose proof (rep_rep_core _ _ _ Hrep) as Hr.
  unfold insert in Hins. rewrite Hng in Hins. simpl in Hins.
  set (h := __constrain_hash (hash_key Hash k) (_size s)) in *.
  destruct (__bucket_insert s (k, v) h) as [[s2 res]|] eqn:Hb; [|done]. simpl in Hins.
  assert (Hh : 0 ≤ h < _size s).
  { eapply bucket_insert_defined; [done | done |].
    apply constrain_hash_nonneg; [apply hash_key_range | apply Hr]. }
  destruct (bucket_insert_spec_order s L k v h Hr eq_refl Hh)
    as [[Hin Hb']|(Hnin & s2' & L2 & Hb' & Hr2 & (A & B & -> & ->) & _)];
    rewrite Hb' in Hb; injection Hb as <- <-; [done|].
  injection Hins as <- <-.
  exists (map kv_of A), (map kv_of B). rewrite <- map_app.
  split; [by apply elements_spec|].
  rewrite (elements_spec _ (A ++ Elem (alloc (heap s)) k v h :: B)).
  - by rewrite map_app.
  - by destruct Hr2.
Qed.

(** X26.  An erasure leaves the remaining pairs in the order iteration met them
    in: what is stored afterwards is what was stored, in order, without the pair
    of the key. *)
Theorem erase_keeps_order s k s' (fl : bool) :
  reachable Hash s → erase Hash s k = Some (s', fl) →
  ∃ l, elements s = Some l ∧ elements s' = Some (filter (λ kv, kv.1 ≠ k) l).
Proof.
  intros Hreach Her. destruct (reachable_wf s Hreach) as [L Hrep].
  pose proof (rep_rep_core _ _ _ Hrep) as Hr.
  pose proof (erase_defined s L k _ Hr Her) as Hcond.
  exists (map kv_of L). split; [by apply elements_spec|].
  destruct (find_key k L) as [y|] eqn:Hy.
  - apply find_key_Some in Hy as [Hy <-].
    assert (Hs : 0 < _size s) by by eapply rep_size_pos.
    apply list_elem_of_split in Hy as (A & B & ->).
    destruct (erase_found s A y B Hr Hs) as (s1 & bq & _ & _ & He & Hr' & _).
    rewrite He in Her. injection Her as <- <-.
    pose proof (rep_keys _ _ _ Hr) as Hnd. rewrite map_app in Hnd. simpl in Hnd.
    apply NoDup_app in Hnd as (_ & HdA & [HyB _]%NoDup_cons).
    assert (HA : e_key y ∉ map fst (map kv_of A)).
    { rewrite <- keys_of_kvs. intros Hin. apply (HdA _ Hin). set_solver. }
    assert (HB : e_key y ∉ map fst (map kv_of B)) by by rewrite <- keys_of_kvs.
    rewrite (elements_spec s1 _ Hr'). f_equal.
    rewrite map_app. simpl. rewrite filter_app.
    rewrite filter_cons_False by (simpl; by intros []).
    rewrite !filter_other_keys by done.
    destruct B as [|y2 B']; simpl; [by rewrite app_nil_r | by rewrite map_app].
  - apply find_key_None in Hy.
    destruct (erase_spec s L k Hrep Hcond) as [[_ He]|(s1 & L' & v & He & _ & HP & _)].
    + rewrite He in Her. injection Her as <- <-.
      rewrite (elements_spec s L Hr). f_equal. symmetry.
      apply filter_other_keys. by rewrite <- keys_of_kvs.
    + exfalso. apply Hy. rewrite keys_of_kvs, HP. simpl. set_solver.
Qed.

(** ** A maximum load factor of zero *)

(** X27.  With the maximum load factor set to zero, an insertion that finds its
    growth guard true divides by zero and converts the infinity it gets to
    [size_t]: the call has no defined result. *)
Theorem insert_undefined_for_zero_load_factor s kv :
  reachable Hash s → _max_load_factor s = S754_zero false → need_grow s = true →
  insert Hash s kv = None.
Proof.
  intros Hreach Hm Hng. destruct (reachable_wf s Hreach) as [L Hrep].
  unfold insert. rewrite Hng.
  assert (grow_size s = None) as ->; [|done].
  unfold grow_size. rewrite Hm.
  assert (Hpos : positive_float (float_of_size (wrap (_count s + 1)))).
  { apply float_of_size_pos. pose proof (rep_fits _ _ _ Hrep) as Hfits.
    unfold fits in Hfits. rewrite (rep_heap_size _ _ _ (rep_rep_core _ _ _ Hrep)) in Hfits.
    rewrite (rep_count _ _ _ Hrep). rewrite wrap_small by lia. lia. }
  destruct (float_of_size (wrap (_count s + 1))) as [sg | [] | | [] m e];
    simpl in Hpos; done.
Qed.

(** ** The calls return *)

(** [find] returns whenever the bucket index is null or not empty. *)
Lemma find_total s k :
  reachable Hash s → array s = None ∨ 0 < _size s → ∃ p, find Hash s k = Some p.
Proof.
  intros Hreach Hcond. destruct (reachable_wf s Hreach) as [L Hrep].
  rewrite (find_spec s L k (rep_rep_core _ _ _ Hrep) Hcond). eauto.
Qed.

(** [insert] returns whenever there are buckets and the growth guard does
    not fire. *)
Lemma insert_total_without_growth s kv :
  reachable Hash s → need_grow s = false → 0 < _size s →
  ∃ s' it (fl : bool), insert Hash s kv = Some (s', (it, fl)).
Proof.
  intros Hreach Hg Hpos. destruct (reachable_wf s Hreach) as [L Hrep].
  pose proof (rep_rep_core _ _ _ Hrep) as Hr. destruct kv as [k v].
  unfold insert. rewrite Hg. simpl.
  destruct (bucket_insert_spec s L k v (__constrain_hash (hash_key Hash k) (_size s)))
    as [[_ ->]|(_ & s' & L' & -> & _)];
    [done | done | by eapply rep_constrain_range | simpl; eauto ..].
Qed.

End Correctness.

(** * The properties on a concrete map *)

Lemma insert_m0 :
  insert Example.Hash Example.m0 (1, 10) = Some (Example.s1, (2%positive, true)).
Proof. vm_compute. reflexivity. Qed.

Lemma insert_s1 :
  insert Example.Hash Example.s1 (2, 20) = Some (Example.s2, (3%positive, true)).
Proof. vm_compute. reflexivity. Qed.

Lemma s1_reachable : reachable Example.Hash Example.s1.
Proof.
  apply (reach_insert Example.Hash Example.m0 (1, 10) Example.s1 (2%positive, true)).
  - apply reach_default.
  - apply insert_m0.
  - vm_compute. reflexivity.
Qed.

Lemma s2_reachable : reachable Example.Hash Example.s2.
Proof.
  apply (reach_insert Example.Hash Example.s1 (2, 20) Example.s2 (3%positive, true)).
  - apply s1_reachable.
  - apply insert_s1.
  - vm_compute. reflexivity.
Qed.

Lemma m0_lf_reachable : reachable Example.Hash Example.m0_lf.
Proof. apply reach_max_load_factor, reach_default. Qed.

Lemma insert_find_erase_round_trip_witness :
  find Example.Hash Example.s1 1 = Some 2%positive ∧
  ∃ s', erase Example.Hash Example.s2 2 = Some (s', true) ∧
        find Example.Hash s' 2 = Some (_end s').
Proof.
  split.
  - destruct (insert_find_erase_round_trip Example.Hash Example.m0 1
                (reach_default Example.Hash)) as [Hins _].
    apply (Hins 10 Example.s1 2%positive). vm_compute. reflexivity.
  - destruct (insert_find_erase_round_trip Example.Hash Example.s2 2 s2_reachable)
      as [_ Her].
    eexists. split; [vm_compute; reflexivity|].
    apply Her. vm_compute. reflexivity.
Defined.



Lemma erase_frame_witness :
  ∃ s', erase Example.Hash Example.s2 1 = Some (s', true) ∧
        lookup_value Example.Hash Example.s2 2 = Some (Some 20) ∧
        lookup_value Example.Hash s' 2 = Some (Some 20).
Proof.
  assert (Her : ∃ s', erase Example.Hash Example.s2 1 = Some (s', true))
    by (eexists; vm_compute; reflexivity).
  destruct Her as [s' Her]. exists s'. split; [done|].
  assert (Hl : lookup_value Example.Hash Example.s2 2 = Some (Some 20))
    by (vm_compute; reflexivity).
  split; [done|].
  destruct (erase_frame Example.Hash Example.s2 1 2 s' true s2_reachable) as (r & Hr1 & Hr2);
    [lia | done |].
  rewrite Hl in Hr1. by rewrite Hr2, <- Hr1.
Defined.






Lemma keys_unique_witness :
  ∃ l, elements Example.s2 = Some l ∧ NoDup (map fst l).
Proof. apply (keys_unique Example.Hash Example.s2 s2_reachable). Defined.

Lemma count_accounting_witness :
  _count Example.s2 = _count Example.s1 + 1 ∧
  (_count Example.m0 = 0 ↔ empty Example.m0 = true).
Proof.
  split.
  - destruct (count_accounting Example.Hash Example.s1 s1_reachable) as (Hins & _ & _).
    apply (Hins (2, 20) Example.s2 3%positive). apply insert_s1.
  - destruct (count_accounting Example.Hash Example.m0 (reach_default Example.Hash))
      as (_ & _ & Hempty).
    exact Hempty.
Defined.

(** C7.  The growth of [insert] does not re-establish the bound it guards:
    with the maximum load factor set to the float [0x3cf83e0f], the first
    insert into a fresh container finds the guard true, grows the table to
    [ceil(1 / max_load_factor) = 33] buckets and stores one element, after
    which [33 * max_load_factor] rounds to a float below 1: the guard of
    [rehash] rejects the very bucket count the growth chose. *)
Theorem load_factor_guard_broken_by_rounding :
  reachable Example.Hash Example.m0_lf ∧
  need_grow Example.m0_lf = true ∧
  grow_size Example.m0_lf = Some 33 ∧
  ∃ s' it,
    insert Example.Hash Example.m0_lf (1, 10) = Some (s', (it, true)) ∧
    _size s' = 33 ∧ _count s' = 1 ∧
    flt (fmul (float_of_size (_size s')) (_max_load_factor s'))
        (float_of_size (_count s')) = true ∧
    rehash Example.Hash s' 33 = Some (OutOfRange s').
Proof.
  split; [apply m0_lf_reachable|].
  split; [vm_compute; reflexivity|]. split; [vm_compute; reflexivity|].
  eexists _, _. split; [vm_compute; reflexivity|].
  vm_compute. done.
Qed.

(** C10 as stated fails: a container that received an insertion and was
    then cleared has no buckets. *)
Lemma bucket_count_zero_counterexample :
  ∃ s', clear Example.s1 = Some s' ∧ reachable Example.Hash s' ∧ _size s' = 0 ∧
        insert Example.Hash default_map (1, 10) = Some (Example.s1, (2%positive, true)).
Proof.
  eexists. split; [vm_compute; reflexivity|]. split_and!.
  - eapply reach_clear; [apply s1_reachable | vm_compute; reflexivity].
  - reflexivity.
  - apply insert_m0.
Qed.

Lemma bucket_count_zero_only_when_empty_witness :
  (_size Example.m0 = 0 → _count Example.m0 = 0 ∧ empty Example.m0 = true) ∧
  0 < _size Example.s1.
Proof.
  destruct (bucket_count_zero_only_when_empty Example.Hash Example.m0
              (reach_default Example.Hash)) as (Hz & Hins & _ & _).
  split; [exact Hz|].
  apply (Hins (1, 10) Example.s1 (2%positive, true)). apply insert_m0.
Defined.

(** * The further properties on the concrete map *)

Lemma constrain_hash_bucket_index_witness :
  __constrain_hash 13 6 = 13 mod 6 ∧ 0 ≤ __constrain_hash 13 6 < 6.
Proof. apply (constrain_hash_bucket_index 13 6); unfold size_max; lia. Defined.

Lemma is_hash_power2_spec_witness :
  __is_hash_power2 8 = (2 <? 8) && power_of_two 8.
Proof. apply (is_hash_power2_spec 8). unfold size_max. lia. Defined.

Lemma iteration_meets_count_elements_witness :
  ∃ l, elements Example.s2 = Some l ∧ Z.of_nat (length l) = _count Example.s2 ∧
       Z.of_nat (size (heap Example.s2)) = _count Example.s2 + 1 ∧
       is_Some (heap Example.s2 !! _end Example.s2).
Proof. apply (iteration_meets_count_elements Example.Hash Example.s2 s2_reachable). Defined.

Lemma find_agrees_with_iteration_witness :
  ∃ l, elements Example.s2 = Some l ∧
       (2%positive = _end Example.s2 ↔ 1 ∉ map fst l) ∧
       (2%positive ≠ _end Example.s2 →
        ∃ b v, heap Example.s2 !! 2%positive = Some b ∧ item b = (1, v) ∧ (1, v) ∈ l).
Proof.
  apply (find_agrees_with_iteration Example.Hash Example.s2 1 2%positive s2_reachable).
  vm_compute. reflexivity.
Defined.

Lemma iteration_groups_buckets_witness :
  ∃ l, elements Example.s2 = Some l ∧
       grouped (map (λ kv, __constrain_hash (hash_key Example.Hash kv.1)
                                            (_size Example.s2)) l).
Proof. apply (iteration_groups_buckets Example.Hash Example.s2 s2_reachable). Defined.

Lemma insert_updates_mappings_witness :
  ∃ l, elements Example.s1 = Some l ∧ (true = true ↔ 2 ∉ map fst l) ∧
       ∀ k', lookup_value Example.Hash Example.s2 k' = Some (assoc k' (l ++ [(2, 20)])).
Proof.
  apply (insert_updates_mappings Example.Hash Example.s1 2 20 Example.s2 3%positive true
           s1_reachable insert_s1).
Defined.

Lemma insert_keeps_handles_witness :
  find Example.Hash Example.s2 1 = Some 2%positive ∧
  _end Example.s2 = _end Example.s1 ∧
  ∃ b b', heap Example.s1 !! 2%positive = Some b ∧
          heap Example.s2 !! 2%positive = Some b' ∧ item b' = item b.
Proof.
  apply (insert_keeps_handles Example.Hash Example.s1 2 20 Example.s2 3%positive true 1
           2%positive s1_reachable insert_s1).
  - vm_compute. reflexivity.
  - vm_compute. discriminate.
Defined.

Lemma insert_bucket_count_witness :
  (need_grow Example.s1 = false → _size Example.s2 = _size Example.s1) ∧
  (need_grow Example.s1 = true →
     grow_size Example.s1 = Some (_size Example.s2) ∧
     (2 * _count Example.s1 < size_max → 2 * _count Example.s1 ≤ _size Example.s2)).
Proof.
  apply (insert_bucket_count Example.Hash Example.s1 (2, 20) Example.s2 (3%positive, true)
           s1_reachable insert_s1).
Defined.

Lemma rehash_keeps_handles_witness :
  ∃ s', rehash Example.Hash Example.s2 5 = Some (Normal s') ∧
    find Example.Hash s' 1 = Some 2%positive ∧ _end s' = _end Example.s2 ∧
    (2%positive ≠ _end Example.s2 →
       ∃ b b', heap Example.s2 !! 2%positive = Some b ∧
               heap s' !! 2%positive = Some b' ∧ item b' = item b).
Proof.
  assert (Hre : ∃ s', rehash Example.Hash Example.s2 5 = Some (Normal s'))
    by (eexists; vm_compute; reflexivity).
  destruct Hre as [s' Hre]. exists s'. split; [done|].
  apply (rehash_keeps_handles Example.Hash Example.s2 5 s' 1 2%positive s2_reachable).
  - unfold size_max. lia.
  - done.
  - vm_compute. reflexivity.
Defined.

Lemma erase_frees_successor_witness :
  ∃ s' b q bq,
    heap Example.s2 !! 3%positive = Some b ∧ next b = Some q ∧ q ≠ 3%positive ∧
    heap Example.s2 !! q = Some bq ∧
    erase Example.Hash Example.s2 2 = Some (s', true) ∧
    heap s' !! 3%positive = Some bq ∧ heap s' !! q = None ∧
    (∀ g, g ≠ 3%positive → g ≠ q → heap s' !! g = heap Example.s2 !! g) ∧
    _end s' = (if decide (q = _end Example.s2) then 3%positive else _end Example.s2).
Proof.
  apply (erase_frees_successor Example.Hash Example.s2 2 3%positive s2_reachable).
  - vm_compute. reflexivity.
  - vm_compute. discriminate.
Defined.

Lemma erase_moves_successor_handle_witness :
  ∃ s', erase Example.Hash Example.s2 2 = Some (s', true) ∧
    ∃ b q, heap Example.s2 !! 3%positive = Some b ∧ next b = Some q ∧
           find Example.Hash s' 1 =
             Some (if decide (2%positive = q) then 3%positive else 2%positive).
Proof.
  assert (Her : ∃ s', erase Example.Hash Example.s2 2 = Some (s', true))
    by (eexists; vm_compute; reflexivity).
  destruct Her as [s' Her]. exists s'. split; [done|].
  apply (erase_moves_successor_handle Example.Hash Example.s2 2 3%positive s' true 1
           2%positive s2_reachable).
  - vm_compute. reflexivity.
  - vm_compute. discriminate.
  - done.
  - lia.
  - vm_compute. reflexivity.
Defined.

Lemma erase_updates_mappings_witness :
  ∃ s', erase Example.Hash Example.s2 1 = Some (s', true) ∧
    ∃ l l', elements Example.s2 = Some l ∧ elements s' = Some l' ∧
      (true = true ↔ 1 ∈ map fst l) ∧ (true = false → s' = Example.s2) ∧
      length l = (length l' + 1)%nat ∧
      ∀ k', assoc k' l' = if decide (k' = 1) then None else assoc k' l.
Proof.
  assert (Her : ∃ s', erase Example.Hash Example.s2 1 = Some (s', true))
    by (eexists; vm_compute; reflexivity).
  destruct Her as [s' Her]. exists s'. split; [done|].
  apply (erase_updates_mappings Example.Hash Example.s2 1 s' true s2_reachable Her).
Defined.

Lemma clear_empties_witness :
  ∃ s', clear Example.s2 = Some s' ∧ elements s' = Some [] ∧ _count s' = 0 ∧
        empty s' = true ∧ (∀ k, find Example.Hash s' k = Some (_end s')) ∧
        _end s' = _end Example.s2 ∧ size (heap s') = 1%nat ∧
        _max_load_factor s' = _max_load_factor Example.s2.
Proof. apply (clear_empties Example.Hash Example.s2 s2_reachable). Defined.

Lemma destroy_frees_all_witness : destroy Example.s2 = Some ∅.
Proof. apply (destroy_frees_all Example.Hash Example.s2 s2_reachable). Defined.

Lemma copy_construct_same_mappings_witness :
  ∃ s' l l', copy_construct Example.s2 = Some s' ∧ elements Example.s2 = Some l ∧
    elements s' = Some l' ∧ l' ≡ₚ l ∧
    (∀ k, lookup_value Example.Hash s' k = Some (assoc k l)) ∧
    _size s' = _size Example.s2 ∧ _count s' = _count Example.s2 ∧
    _max_load_factor s' = _max_load_factor Example.s2.
Proof. apply (copy_construct_same_mappings Example.Hash Example.s2 s2_reachable). Defined.


Lemma first_insert_allocates_one_bucket_witness :
  ∃ s' it, insert Example.Hash Example.m0 (1, 10) = Some (s', (it, true)) ∧
           _size s' = 1 ∧ _count s' = 1 ∧ elements s' = Some [(1, 10)].
Proof.
  apply (first_insert_allocates_one_bucket Example.Hash Example.m0 1 10
           (reach_default Example.Hash)); reflexivity.
Defined.

Lemma index_spec_witness :
  ∃ s' p, index Example.Hash Example.s1 2 = Some (s', p) ∧
    ∃ l b, elements Example.s1 = Some l ∧ heap s' !! p = Some b ∧ p ≠ _end s' ∧
      item b = (2, default inhabitant (assoc 2 l)) ∧
      (2 ∈ map fst l → s' = Example.s1) ∧
      ∀ k', lookup_value Example.Hash s' k' = Some (assoc k' (l ++ [(2, inhabitant)])).
Proof.
  assert (Hidx : ∃ s' p, index Example.Hash Example.s1 2 = Some (s', p))
    by (eexists _, _; vm_compute; reflexivity).
  destruct Hidx as (s' & p & Hidx). exists s', p. split; [done|].
  apply (index_spec Example.Hash Example.s1 2 s' p s1_reachable Hidx).
Defined.

Lemma insert_list_spec_witness :
  ∃ s', insert_list Example.Hash Example.s1 [(2, 20); (1, 99)] = Some s' ∧
    ∃ l0 l', elements Example.s1 = Some l0 ∧ elements s' = Some l' ∧
      NoDup (map fst l') ∧
      (∀ k, assoc k l' = assoc k (l0 ++ [(2, 20); (1, 99)])) ∧
      ([(2, 20); (1, 99)] ≠ [] →
       ∀ k, lookup_value Example.Hash s' k = Some (assoc k (l0 ++ [(2, 20); (1, 99)]))).
Proof.
  assert (Hil : ∃ s', insert_list Example.Hash Example.s1 [(2, 20); (1, 99)] = Some s')
    by (eexists; vm_compute; reflexivity).
  destruct Hil as [s' Hil]. exists s'. split; [done|].
  apply (insert_list_spec Example.Hash Example.s1 _ s' s1_reachable Hil).
Defined.

Lemma assign_list_spec_witness :
  ∃ s', assign_list Example.Hash Example.s2 [(5, 50); (5, 51)] = Some s' ∧
    ∃ l', elements s' = Some l' ∧ NoDup (map fst l') ∧
      ∀ k, assoc k l' = assoc k [(5, 50); (5, 51)] ∧
           lookup_value Example.Hash s' k = Some (assoc k [(5, 50); (5, 51)]).
Proof.
  assert (Has : ∃ s', assign_list Example.Hash Example.s2 [(5, 50); (5, 51)] = Some s')
    by (eexists; vm_compute; reflexivity).
  destruct Has as [s' Has]. exists s'. split; [done|].
  apply (assign_list_spec Example.Hash Example.s2 _ s' s2_reachable Has).
Defined.

Lemma cached_hash_current_witness :
  ∃ b a g, heap Example.s2 !! 2%positive = Some b ∧ array Example.s2 = Some a ∧
    hash b = __constrain_hash (hash_key Example.Hash 1) (_size Example.s2) ∧
    0 ≤ hash b < _size Example.s2 ∧
    Z.of_nat (length a) = _size Example.s2 ∧ slot a (hash b) = Some (Some g).
Proof.
  apply (cached_hash_current Example.Hash Example.s2 1 2%positive s2_reachable).
  - vm_compute. reflexivity.
  - vm_compute. discriminate.
Defined.

Lemma max_load_factor_not_negative_witness :
  SFabs (_max_load_factor
           (set_max_load_factor Example.m0 (S754_finite true 16268815 (-29)))) =
  _max_load_factor (set_max_load_factor Example.m0 (S754_finite true 16268815 (-29))).
Proof.
  apply (max_load_factor_not_negative Example.Hash).
  apply reach_max_load_factor, reach_default.
Defined.

Lemma load_factor_zero_witness :
  load_factor Example.s2 = float_of_size 0 ↔
  _count Example.s2 = 0 ∨ _size Example.s2 < _count Example.s2.
Proof. apply (load_factor_zero Example.Hash Example.s2 s2_reachable). Defined.

Lemma insert_erase_round_trip_witness :
  ∃ s3 l l2, erase Example.Hash Example.s2 2 = Some (s3, true) ∧
    elements Example.s1 = Some l ∧ elements s3 = Some l2 ∧ l2 ≡ₚ l ∧
    _count s3 = _count Example.s1 ∧ ∀ k', assoc k' l2 = assoc k' l.
Proof.
  apply (insert_erase_round_trip Example.Hash Example.s1 2 20 Example.s2 3%positive
           s1_reachable insert_s1).
  vm_compute. reflexivity.
Defined.

Lemma insert_keeps_order_witness :
  ∃ s' it, insert Example.Hash Example.s2 (3, 30) = Some (s', (it, true)) ∧
    ∃ l1 l2, elements Example.s2 = Some (l1 ++ l2) ∧
             elements s' = Some (l1 ++ (3, 30) :: l2).
Proof.
  assert (Hins : ∃ s' it, insert Example.Hash Example.s2 (3, 30) = Some (s', (it, true)))
    by (eexists _, _; vm_compute; reflexivity).
  destruct Hins as (s' & it & Hins). exists s', it. split; [done|].
  apply (insert_keeps_order Example.Hash Example.s2 3 30 s' it s2_reachable);
    [vm_compute; reflexivity | done].
Defined.

Lemma erase_keeps_order_witness :
  ∃ s', erase Example.Hash Example.s2 1 = Some (s', true) ∧
    ∃ l, elements Example.s2 = Some l ∧
         elements s' = Some (filter (λ kv, kv.1 ≠ 1) l).
Proof.
  assert (Her : ∃ s', erase Example.Hash Example.s2 1 = Some (s', true))
    by (eexists; vm_compute; reflexivity).
  destruct Her as [s' Her]. exists s'. split; [done|].
  apply (erase_keeps_order Example.Hash Example.s2 1 s' true s2_reachable Her).
Defined.

Lemma insert_undefined_for_zero_load_factor_witness :
  need_grow (set_max_load_factor Example.m0 (S754_zero true)) = true ∧
  insert Example.Hash (set_max_load_factor Example.m0 (S754_zero true)) (1, 10) = None.
Proof.
  assert (Hng : need_grow (set_max_load_factor Example.m0 (S754_zero true)) = true)
    by (vm_compute; reflexivity).
  split; [done|].
  apply (insert_undefined_for_zero_load_factor Example.Hash).
  - apply reach_max_load_factor, reach_default.
  - reflexivity.
  - done.
Defined.
